(** * go-proxyproto: the PROXY protocol (version 1) connection wrapper

    A shallow embedding of [protocol.go] (package [proxyproto]) and of the
    pieces of the Go standard library it calls ([bufio.Reader], [net.Conn],
    [strings.Split], [strconv.Atoi], [net.ParseIP]), followed by the
    properties of the wrapper.

    Go strings and byte slices are lists of [ascii] characters.  A Go method
    with a pointer receiver takes the receiver's state and returns the new
    state next to its results. *)

From Stdlib Require Import String Ascii ZArith NArith Lia Bool Arith List.
Import ListNotations.
Open Scope nat_scope.
Open Scope list_scope.

Set Implicit Arguments.

(** ** Bytes and strings *)

Definition byte := ascii.
Definition gostring := list byte.

Definition str (s : string) : gostring := list_ascii_of_string s.

(** [bytes.Equal], also the [==] of Go strings. *)
Fixpoint bytes_Equal (a b : list byte) : bool :=
  match a, b with
  | [], [] => true
  | x :: a', y :: b' => Ascii.eqb x y && bytes_Equal a' b'
  | _, _ => false
  end.

(** [bytes.IndexByte]: the position of the first [c] in [s]. *)
Fixpoint IndexByte (s : list byte) (c : byte) : option nat :=
  match s with
  | [] => None
  | x :: s' => if Ascii.eqb x c then Some 0
               else match IndexByte s' c with
                    | Some i => Some (S i)
                    | None => None
                    end
  end.

(** [strings.Split(s, sep)] for a one-byte separator: the pieces of [s]
    between the occurrences of [sep]; one more piece than separators. *)
Fixpoint Split (s : gostring) (sep : byte) : list gostring :=
  match s with
  | [] => [[]]
  | c :: s' =>
      if Ascii.eqb c sep then [] :: Split s' sep
      else match Split s' sep with
           | h :: t => (c :: h) :: t
           | [] => [[c]]
           end
  end.

(** ** Errors *)

(** The error values that reach the wrapper.  [net_Error] stands for a value
    implementing the [net.Error] interface, with the answer of its [Timeout()]
    method; [fmt_Errorf text] is the result of a [fmt.Errorf] call whose
    formatted text is [text], and [fmt_Errorf_w text w] that of a call whose
    format ends in the wrapping verb: its text is [text] followed by the
    text of the wrapped error [w]. *)
Inductive error : Type :=
| io_EOF
| net_Error (timeout : bool) (msg : gostring)
| errors_New (msg : gostring)
| fmt_Errorf (text : gostring)
| fmt_Errorf_w (text : gostring) (w : error).

Definition io_ErrNoProgress : error :=
  errors_New (str "multiple Read calls return no data or error").
Definition bufio_ErrBufferFull : error := errors_New (str "bufio: buffer full").
Definition net_ErrClosed : error :=
  net_Error false (str "use of closed network connection").
Definition ErrInvalidUpstream : error :=
  errors_New (str "upstream connection address not trusted for PROXY information").

(** [err == io.EOF]. *)
Definition is_EOF (e : error) : bool :=
  match e with io_EOF => true | _ => false end.

(** [neterr, ok := err.(net.Error); ok && neterr.Timeout()]. *)
Definition is_net_timeout (e : error) : bool :=
  match e with net_Error t _ => t | _ => false end.

(** ** Addresses *)

(** [net.IP] is a byte slice; [net.TCPAddr] an IP and a port (an [int]). *)
Definition IP := list N.

Record TCPAddr : Type := mkTCPAddr { addrIP : IP; addrPort : Z }.

(** [net.Addr]: either a [*net.TCPAddr] or some other implementation, known
    by its network name and its printed form. *)
Inductive net_Addr : Type :=
| AddrTCP (a : TCPAddr)
| AddrOther (network text : gostring).

(** ** The underlying connection ([net.Conn])

    The peer's behaviour is a script: what the successive [Read] calls of the
    socket deliver.  [Data b bs] is a segment of at least one byte, [Fault e]
    a failed read (a deadline that elapsed is a [Fault] whose error answers
    true to [Timeout()]).  Once the script is used up the peer has closed its
    side and reads return [io.EOF]. *)
Inductive event : Type :=
| Data (b : byte) (bs : list byte)
| Fault (e : error).

Record NetConn : Type := mkNetConn {
  incoming : list event;
  closed : bool;
  outgoing : list byte;
  (** [None] is the zero [time.Time]: no deadline.  [Some d]: a deadline [d]
      nanoseconds after the call that set it. *)
  readDeadline : option Z;
  connLocal : net_Addr;
  connRemote : net_Addr
}.

Definition set_incoming (evs : list event) (c : NetConn) : NetConn :=
  mkNetConn evs (closed c) (outgoing c) (readDeadline c) (connLocal c) (connRemote c).

(** The unread rest of a segment goes back in front of the script. *)
Definition unread (l : list byte) (evs : list event) : list event :=
  match l with
  | [] => evs
  | b :: bs => Data b bs :: evs
  end.

(** [c.Read(b)] with [len(b) = n]: the bytes read, the error, the new state. *)
Definition conn_Read (n : nat) (c : NetConn) : (list byte * option error) * NetConn :=
  if closed c then (([], Some net_ErrClosed), c)
  else match incoming c with
       | [] => (([], Some io_EOF), c)
       | Fault e :: rest => (([], Some e), set_incoming rest c)
       | Data b bs :: rest =>
           ((firstn n (b :: bs), None), set_incoming (unread (skipn n (b :: bs)) rest) c)
       end.

(** [c.Write(b)]. *)
Definition conn_Write (b : list byte) (c : NetConn) : (nat * option error) * NetConn :=
  if closed c then ((0, Some net_ErrClosed), c)
  else ((length b, None),
        mkNetConn (incoming c) (closed c) (outgoing c ++ b) (readDeadline c)
                  (connLocal c) (connRemote c)).

(** [c.Close()]. *)
Definition conn_Close (c : NetConn) : option error * NetConn :=
  if closed c then (Some net_ErrClosed, c)
  else (None,
        mkNetConn (incoming c) true (outgoing c) (readDeadline c)
                  (connLocal c) (connRemote c)).

(** [c.SetReadDeadline(t)]. *)
Definition conn_SetReadDeadline (t : option Z) (c : NetConn) : option error * NetConn :=
  if closed c then (Some net_ErrClosed, c)
  else (None,
        mkNetConn (incoming c) (closed c) (outgoing c) t (connLocal c) (connRemote c)).

(** ** [bufio.Reader]

    The reader's buffer holds [buf], the bytes read from the connection and
    not yet handed out ([b.buf[b.r:b.w]]), and [rerr], the error of the last
    read, kept until it is reported ([b.err]).  The connection it reads from
    is the wrapper's own [conn]; the two are passed together. *)
Record Reader : Type := mkReader { buf : list byte; rerr : option error }.

Definition defaultBufSize : nat := 4096.
Definition maxConsecutiveEmptyReads : nat := 100.

(** [bufio.NewReader(conn)]. *)
Definition NewReader : Reader := mkReader [] None.

(** [b.fill()]: read new data after the buffered bytes, trying a limited
    number of times. *)
Fixpoint fillTries (i : nat) (r : Reader) (c : NetConn) : Reader * NetConn :=
  match i with
  | 0 => (mkReader (buf r) (Some io_ErrNoProgress), c)
  | S i' =>
      let '((d, e), c') := conn_Read (defaultBufSize - length (buf r)) c in
      let r' := mkReader (buf r ++ d) (rerr r) in
      match e with
      | Some _ => (mkReader (buf r') e, c')
      | None => match d with
                | [] => fillTries i' r' c'
                | _ :: _ => (r', c')
                end
      end
  end.

Definition fill (r : Reader) (c : NetConn) : Reader * NetConn :=
  fillTries maxConsecutiveEmptyReads r c.

(** The loop of [b.Peek(n)]:
    [for b.w-b.r < n && b.w-b.r < len(b.buf) && b.err == nil { b.fill() }]. *)
Fixpoint peekFill (fuel n : nat) (r : Reader) (c : NetConn) : Reader * NetConn :=
  match fuel with
  | 0 => (r, c)
  | S f =>
      if (length (buf r) <? n) && (length (buf r) <? defaultBufSize)
         && match rerr r with None => true | Some _ => false end
      then let '(r', c') := fill r c in peekFill f n r' c'
      else (r, c)
  end.

(** [b.Peek(n)].  Every round of the loop adds a byte or records an error,
    so [n] rounds are enough (lemma [peekFill_exits]). *)
Definition Peek (n : nat) (r : Reader) (c : NetConn)
  : (list byte * option error) * (Reader * NetConn) :=
  let '(r1, c1) := peekFill n n r c in
  if defaultBufSize <? n then ((buf r1, Some bufio_ErrBufferFull), (r1, c1))
  else if length (buf r1) <? n then
    ((buf r1,
      Some match rerr r1 with Some e => e | None => bufio_ErrBufferFull end),
     (mkReader (buf r1) None, c1))
  else ((firstn n (buf r1), None), (r1, c1)).

(** [b.ReadString(delim)]: [ReadSlice] repeated by [collectFragments].  The
    bytes of the buffers found full are gathered in [acc]. *)
Fixpoint readStringLoop (fuel : nat) (delim : byte) (acc : list byte)
    (r : Reader) (c : NetConn)
  : option ((list byte * option error) * (Reader * NetConn)) :=
  match fuel with
  | 0 => None
  | S f =>
      match IndexByte (buf r) delim with
      | Some i =>
          Some ((acc ++ firstn (S i) (buf r), None),
                (mkReader (skipn (S i) (buf r)) (rerr r), c))
      | None =>
          match rerr r with
          | Some e => Some ((acc ++ buf r, Some e), (mkReader [] None, c))
          | None =>
              if defaultBufSize <=? length (buf r)
              then readStringLoop f delim (acc ++ buf r) (mkReader [] None) c
              else let '(r', c') := fill r c in readStringLoop f delim acc r' c'
          end
      end
  end.

(** A bound on the rounds of [readStringLoop]: every round but the last
    empties a full buffer, takes bytes from the script or records an error
    (lemma [ReadString_returns]). *)
Fixpoint weight (evs : list event) : nat :=
  match evs with
  | [] => 0
  | Data _ bs :: rest => S (length bs) + weight rest
  | Fault _ :: rest => 1 + weight rest
  end.

Definition budget (c : NetConn) : nat := 2 * weight (incoming c) + 4.

Definition ReadString (delim : byte) (r : Reader) (c : NetConn)
  : (list byte * option error) * (Reader * NetConn) :=
  match readStringLoop (budget c) delim [] r c with
  | Some res => res
  | None => (([], Some io_ErrNoProgress), (r, c))
  end.

(** [b.Read(p)] with [len(p) = n]. *)
Definition Reader_Read (n : nat) (r : Reader) (c : NetConn)
  : (list byte * option error) * (Reader * NetConn) :=
  match n with
  | 0 => match buf r with
         | _ :: _ => (([], None), (r, c))
         | [] => (([], rerr r), (mkReader [] None, c))
         end
  | S _ =>
      match buf r with
      | _ :: _ => ((firstn n (buf r), None), (mkReader (skipn n (buf r)) (rerr r), c))
      | [] =>
          match rerr r with
          | Some e => (([], Some e), (mkReader [] None, c))
          | None =>
              if defaultBufSize <=? n
              then (* large read, empty buffer: read directly into p *)
                let '((d, e), c') := conn_Read n c in
                ((d, e), (mkReader [] None, c'))
              else (* one read into the buffer *)
                let '((d, e), c') := conn_Read defaultBufSize c in
                match d with
                | [] => (([], e), (mkReader [] None, c'))
                | _ :: _ => ((firstn n d, None), (mkReader (skipn n d) e, c'))
                end
          end
      end
  end.

(** ** [strconv.Atoi] and [net.ParseIP]

    The two parsers of the standard library the header fields go through. *)

Definition digit (c : byte) : option N :=
  let n := N_of_ascii c in
  if ((48 <=? n) && (n <=? 57))%N then Some (n - 48)%N else None.

Definition hexdigit (c : byte) : option N :=
  let n := N_of_ascii c in
  if ((48 <=? n) && (n <=? 57))%N then Some (n - 48)%N
  else if ((97 <=? n) && (n <=? 102))%N then Some (n - 97 + 10)%N
  else if ((65 <=? n) && (n <=? 70))%N then Some (n - 65 + 10)%N
  else None.

(** The value of a string of decimal digits; [None] at any other byte. *)
Fixpoint decimal (acc : Z) (s : gostring) : option Z :=
  match s with
  | [] => Some acc
  | c :: s' => match digit c with
               | Some d => decimal (acc * 10 + Z.of_N d) s'
               | None => None
               end
  end.

Definition intMin : Z := - 2 ^ 63.
Definition intMax : Z := 2 ^ 63 - 1.

(** [strconv.Atoi(s)], that is [ParseInt(s, 10, 0)] on a 64-bit platform: an
    optional sign, then one or more decimal digits, the value within the
    range of [int].  [None] stands for a non-nil error. *)
Definition Atoi (s : gostring) : option Z :=
  let '(neg, ds) :=
    match s with
    | c :: t => if Ascii.eqb c "-" then (true, t)
                else if Ascii.eqb c "+" then (false, t)
                else (false, s)
    | [] => (false, s)
    end in
  match ds with
  | [] => None
  | _ :: _ =>
      match decimal 0 ds with
      | None => None
      | Some n =>
          let v := if neg then (- n)%Z else n in
          if ((intMin <=? v) && (v <=? intMax))%Z then Some v else None
      end
  end.

(** [big] of [net/parse.go]: bigger than needed, not too big to overflow. *)
Definition big : N := 0xFFFFFF.

(** [dtoi(s)]: decimal to integer; the number, the characters consumed,
    success.  [n] and [i] are the loop's variables. *)
Fixpoint dtoi_loop (n : N) (i : nat) (s : gostring) : N * nat * bool :=
  match s with
  | c :: s' =>
      match digit c with
      | Some d =>
          let n' := (n * 10 + d)%N in
          if (big <=? n')%N then (big, i, false) else dtoi_loop n' (S i) s'
      | None => if i =? 0 then (0%N, 0, false) else (n, i, true)
      end
  | [] => if i =? 0 then (0%N, 0, false) else (n, i, true)
  end.

Definition dtoi (s : gostring) : N * nat * bool := dtoi_loop 0 0 s.

(** The hexadecimal number that starts [s], as the inner loop of
    [parseIPv6] reads it ([net.ParseIP] parses with [netip.ParseAddr]):
    [for ; off < len(s); off++ { ... }] with the loop's variables [acc] and
    [off]; the result is their value at the [break] or at the end of [s].
    [None] is the loop's error return: a fifth digit in the group, or a
    value over 16 bits.  [acc] is a [uint32] that is at most [0xFFFF] at
    every shift, so nothing wraps. *)
Fixpoint hexGroup_loop (acc : N) (off : nat) (s : gostring) : option (N * nat) :=
  match s with
  | c :: s' =>
      match hexdigit c with
      | Some d =>
          let acc := (N.shiftl acc 4 + d)%N in
          if 3 <? off then None (* more than 4 digits in the group *)
          else if (0xFFFF <? acc)%N then None (* overflow *)
          else hexGroup_loop acc (S off) s'
      | None => Some (acc, off)
      end
  | [] => Some (acc, off)
  end.

(** The loop and the check after it: a group without a digit is an error. *)
Definition hexGroup (s : gostring) : option (N * nat) :=
  match hexGroup_loop 0 0 s with
  | Some (acc, off) => if off =? 0 then None else Some (acc, off)
  | None => None
  end.

Definition IPv4len : nat := 4.
Definition IPv6len : nat := 16.

Definition v4InV6Prefix : IP := [0; 0; 0; 0; 0; 0; 0; 0; 0; 0; 0xff; 0xff]%N.

(** [net.IPv4(a, b, c, d)]: the 16-byte form of an IPv4 address. *)
Definition IPv4 (a b c d : N) : IP := v4InV6Prefix ++ [a; b; c; d].

(** The loop of [parseIPv4]: [k] fields left to read, [i] the index of the
    next one; the octets read and the rest of the string. *)
Fixpoint parseIPv4_fields (k i : nat) (s : gostring) : option (list N * gostring) :=
  match k with
  | 0 => Some ([], s)
  | S k' =>
      match s with
      | [] => None (* missing octets *)
      | c0 :: t0 =>
          let dotted :=
            if 0 <? i
            then (if Ascii.eqb c0 "." then Some t0 else None)
            else Some s in
          match dotted with
          | None => None
          | Some s1 =>
              let '(n, c, ok) := dtoi s1 in
              if negb ok || (0xFF <? n)%N then None
              else if (1 <? c)
                      && match s1 with x :: _ => Ascii.eqb x "0" | [] => false end
              then None (* non-zero component with leading zeroes *)
              else match parseIPv4_fields k' (S i) (skipn c s1) with
                   | Some (p, rest) => Some (n :: p, rest)
                   | None => None
                   end
          end
      end
  end.

(** [parseIPv4(s)]; [None] is the nil IP. *)
Definition parseIPv4 (s : gostring) : option IP :=
  match parseIPv4_fields IPv4len 0 s with
  | Some ([a; b; c; d], []) => Some (IPv4 a b c d)
  | _ => None
  end.

(** The main loop of [parseIPv6].  [ip] holds the bytes written so far (the
    index [i] of the source is its length) and [ellipsis] the position of the
    [::] when one was seen.  The result is the rest of the string with the
    final [ip] and [ellipsis]; [None] is the return with an error. *)
Fixpoint parseIPv6_loop (fuel : nat) (s : gostring) (ip : list N) (ellipsis : option nat)
  : option (gostring * list N * option nat) :=
  match fuel with
  | 0 => Some (s, ip, ellipsis)
  | S f =>
      let i := length ip in
      if negb (i <? IPv6len) then Some (s, ip, ellipsis)
      else
        match hexGroup s with
        | None => None
        | Some (n, c) =>
            if (c <? length s)
               && match nth_error s c with
                  | Some x => Ascii.eqb x "."
                  | None => false
                  end
            then (* followed by a dot: a trailing IPv4 address *)
              if match ellipsis with None => true | Some _ => false end
                 && negb (i =? IPv6len - IPv4len) then None
              else if IPv6len <? i + IPv4len then None
              else match parseIPv4 s with
                   | None => None
                   | Some ip4 => Some ([], ip ++ skipn 12 ip4, ellipsis)
                   end
            else
              let ip := ip ++ [N.shiftr n 8; N.land n 0xFF] in
              let i := i + 2 in
              let s := skipn c s in
              match s with
              | [] => Some (s, ip, ellipsis)
              | x :: t =>
                  if negb (Ascii.eqb x ":") || (length s =? 1) then None
                  else
                    match t with
                    | y :: t' =>
                        if Ascii.eqb y ":" then
                          match ellipsis with
                          | Some _ => None (* already have one *)
                          | None =>
                              match t' with
                              | [] => Some (t', ip, Some i)
                              | _ :: _ => parseIPv6_loop f t' ip (Some i)
                              end
                          end
                        else parseIPv6_loop f t ip ellipsis
                    | [] => None
                    end
              end
        end
  end.

(** [parseIPv6(s)]. *)
Definition parseIPv6 (s : gostring) : option IP :=
  let '(s0, ellipsis0) :=
    match s with
    | x :: y :: t => if Ascii.eqb x ":" && Ascii.eqb y ":" then (t, Some 0)
                     else (s, None)
    | _ => (s, None)
    end in
  match ellipsis0, s0 with
  | Some _, [] => Some (repeat 0%N IPv6len) (* only the ellipsis *)
  | _, _ =>
      match parseIPv6_loop (S IPv6len) s0 [] ellipsis0 with
      | None => None
      | Some (rest, ip, ellipsis) =>
          match rest with
          | _ :: _ => None (* must have used the entire string *)
          | [] =>
              let i := length ip in
              if i <? IPv6len then
                match ellipsis with
                | None => None
                | Some e =>
                    Some (firstn e ip ++ repeat 0%N (IPv6len - i) ++ skipn e ip)
                end
              else match ellipsis with
                   | Some _ => None (* must stand for at least one group *)
                   | None => Some ip
                   end
          end
      end
  end.

(** [net.ParseIP(s)], which parses with [netip.ParseAddr] and refuses an
    address with a zone: the first dot or colon decides the form.  A [%]
    makes every path fail; here it does as a byte that neither form allows
    (lemma [ParseIP_zone]). *)
Fixpoint ParseIP_scan (s rest : gostring) : option IP :=
  match rest with
  | [] => None
  | c :: rest' =>
      if Ascii.eqb c "." then parseIPv4 s
      else if Ascii.eqb c ":" then parseIPv6 s
      else ParseIP_scan s rest'
  end.

Definition ParseIP (s : gostring) : option IP := ParseIP_scan s s.

(** ** The wrapper: [Conn] and [Listener] *)

(** [prefix] is the string looked for at the start of a connection. *)
Definition prefix : list byte := str "PROXY ".
Definition prefixLen : nat := length prefix.

(** The struct [Conn].  [once] is the [sync.Once]: true when its function
    has run.  The last two fields are not in the source: [parseRuns] counts
    the executions of [checkPrefix] and [logged] keeps the arguments of the
    [log.Printf] calls. *)
Record Conn : Type := mkConn {
  bufReader : Reader;
  conn : NetConn;
  dstAddr : option TCPAddr;
  srcAddr : option TCPAddr;
  proxyErr : option error;
  useConnAddr : bool;
  once : bool;
  proxyHeaderTimeout : Z;
  unknownOK : bool;
  parseRuns : nat;
  logged : list error
}.

Definition set_reader (r : Reader) (c : NetConn) (p : Conn) : Conn :=
  mkConn r c (dstAddr p) (srcAddr p) (proxyErr p) (useConnAddr p) (once p)
         (proxyHeaderTimeout p) (unknownOK p) (parseRuns p) (logged p).

Definition set_conn (c : NetConn) (p : Conn) : Conn :=
  set_reader (bufReader p) c p.

Definition set_dstAddr (a : option TCPAddr) (p : Conn) : Conn :=
  mkConn (bufReader p) (conn p) a (srcAddr p) (proxyErr p) (useConnAddr p) (once p)
         (proxyHeaderTimeout p) (unknownOK p) (parseRuns p) (logged p).

Definition set_srcAddr (a : option TCPAddr) (p : Conn) : Conn :=
  mkConn (bufReader p) (conn p) (dstAddr p) a (proxyErr p) (useConnAddr p) (once p)
         (proxyHeaderTimeout p) (unknownOK p) (parseRuns p) (logged p).

Definition set_proxyErr (e : option error) (p : Conn) : Conn :=
  mkConn (bufReader p) (conn p) (dstAddr p) (srcAddr p) e (useConnAddr p) (once p)
         (proxyHeaderTimeout p) (unknownOK p) (parseRuns p) (logged p).

Definition set_useConnAddr (b : bool) (p : Conn) : Conn :=
  mkConn (bufReader p) (conn p) (dstAddr p) (srcAddr p) (proxyErr p) b (once p)
         (proxyHeaderTimeout p) (unknownOK p) (parseRuns p) (logged p).

Definition set_once (b : bool) (p : Conn) : Conn :=
  mkConn (bufReader p) (conn p) (dstAddr p) (srcAddr p) (proxyErr p) (useConnAddr p) b
         (proxyHeaderTimeout p) (unknownOK p) (parseRuns p) (logged p).

Definition set_unknownOK (b : bool) (p : Conn) : Conn :=
  mkConn (bufReader p) (conn p) (dstAddr p) (srcAddr p) (proxyErr p) (useConnAddr p)
         (once p) (proxyHeaderTimeout p) b (parseRuns p) (logged p).

Definition count_run (p : Conn) : Conn :=
  mkConn (bufReader p) (conn p) (dstAddr p) (srcAddr p) (proxyErr p) (useConnAddr p)
         (once p) (proxyHeaderTimeout p) (unknownOK p) (S (parseRuns p)) (logged p).

Definition log_Printf (e : error) (p : Conn) : Conn :=
  mkConn (bufReader p) (conn p) (dstAddr p) (srcAddr p) (proxyErr p) (useConnAddr p)
         (once p) (proxyHeaderTimeout p) (unknownOK p) (parseRuns p) (logged p ++ [e]).

(** [NewConn(conn, timeout)]. *)
Definition NewConn (c : NetConn) (timeout : Z) : Conn :=
  mkConn NewReader c None None None false false timeout false 0 [].

(** [p.conn.Close()] inside the wrapper; the error is dropped where the
    source drops it. *)
Definition close_conn (p : Conn) : Conn := set_conn (snd (conn_Close (conn p))) p.

(** How the prefix loop of [checkPrefix] ends: the whole prefix was seen, or
    the function returns [ret]. *)
Inductive scan : Type :=
| Matched
| Return (ret : option error).

(** [for i := 1; i <= prefixLen; i++ { ... }], with [k] rounds to go. *)
Fixpoint scanPrefix (k i : nat) (p : Conn) : scan * Conn :=
  match k with
  | 0 => (Matched, p)
  | S k' =>
      let '((inp, err), (r, c)) := Peek i (bufReader p) (conn p) in
      let p := set_reader r c p in
      match err with
      | Some e =>
          let p := set_proxyErr
                     (Some (fmt_Errorf_w (str "error while trying to read proxy header: ") e))
                     p in
          if is_net_timeout e then (Return None, p) else (Return (Some e), p)
      | None =>
          if negb (bytes_Equal inp (firstn i prefix))
          then (Return None,
                set_proxyErr
                  (Some (fmt_Errorf (str "connection read did not match proxy header"))) p)
          else scanPrefix k' (S i) p
      end
  end.

(** [header[:len(header)-2]].  The line read has seven bytes or more (the
    prefix and the newline), so the slice expression does not panic. *)
Definition stripEnd (header : gostring) : gostring :=
  firstn (length header - 2) header.

(** [parts[i]] where the source has checked [len(parts)]. *)
Definition part (parts : list gostring) (i : nat) : gostring := nth i parts [].

(** Close the connection, store the error and return it. *)
Definition fail (e : error) (p : Conn) : option error * Conn :=
  (Some e, set_proxyErr (Some e) (close_conn p)).

(** The part of [checkPrefix] after the header line was read. *)
Definition parseHeader (line : gostring) (p : Conn) : option error * Conn :=
  let header := stripEnd line in
  let parts := Split header " "%char in
  if length parts <? 2
  then fail (fmt_Errorf (str "invalid header line: " ++ header)) p
  else
    let family := part parts 1 in
    if bytes_Equal family (str "UNKNOWN") then
      if negb (unknownOK p) || negb (length parts =? 2)
      then fail (fmt_Errorf (str "invalid UNKNOWN header line: " ++ header)) p
      else (None, set_useConnAddr true p)
    else if negb (bytes_Equal family (str "TCP4") || bytes_Equal family (str "TCP6"))
    then fail (fmt_Errorf (str "Unhandled address type: " ++ family)) p
    else if negb (length parts =? 6)
    then fail (fmt_Errorf (str "Invalid header line (should have 6 parts): " ++ header)) p
    else
      (* the source address *)
      match ParseIP (part parts 2) with
      | None => fail (fmt_Errorf (str "Invalid source ip: " ++ part parts 2)) p
      | Some ip =>
          match Atoi (part parts 4) with
          | None => fail (fmt_Errorf (str "Invalid source port: " ++ part parts 4)) p
          | Some port =>
              let p := set_srcAddr (Some (mkTCPAddr ip port)) p in
              (* the destination address *)
              match ParseIP (part parts 3) with
              | None => fail (fmt_Errorf (str "Invalid destination ip: " ++ part parts 3)) p
              | Some ip =>
                  match Atoi (part parts 5) with
                  | None =>
                      fail (fmt_Errorf (str "Invalid destination port: " ++ part parts 5)) p
                  | Some port => (None, set_dstAddr (Some (mkTCPAddr ip port)) p)
                  end
              end
          end
      end.

(** [checkPrefix] between the installation of the deadline and its deferred
    removal. *)
Definition checkPrefixBody (p : Conn) : option error * Conn :=
  match scanPrefix prefixLen 1 p with
  | (Return ret, p) => (ret, p)
  | (Matched, p) =>
      let '((header, err), (r, c)) := ReadString "010"%char (bufReader p) (conn p) in
      let p := set_reader r c p in
      match err with
      | Some e =>
          (Some e,
           close_conn
             (set_proxyErr
                (Some (fmt_Errorf_w (str "error reading first proxyheader line: ") e)) p))
      | None => parseHeader header p
      end
  end.

(** [func (p *Conn) checkPrefix() error]. *)
Definition checkPrefix (p : Conn) : option error * Conn :=
  let p := count_run p in
  if (proxyHeaderTimeout p =? 0)%Z then checkPrefixBody p
  else
    let p := set_conn (snd (conn_SetReadDeadline (Some (proxyHeaderTimeout p)) (conn p))) p in
    let '(ret, p) := checkPrefixBody p in
    (ret, set_conn (snd (conn_SetReadDeadline None (conn p))) p).

(** [func (p *Conn) Close() error]. *)
Definition Close (p : Conn) : option error * Conn :=
  let '(res, c) := conn_Close (conn p) in (res, set_conn c p).

(** [func (p *Conn) checkPrefixOnce()]. *)
Definition checkPrefixOnce (p : Conn) : Conn :=
  if once p then p
  else
    let '(err, p) := checkPrefix p in
    let p :=
      match err with
      | Some e =>
          if negb (is_EOF e)
          then
            let p := log_Printf e p in
            let p := snd (Close p) in
            set_reader NewReader (conn p) p
          else p
      | None => p
      end in
    set_once true p.

(** [func (p *Conn) Read(b []byte) (int, error)] with [len(b) = n]; the
    bytes stored in [b] stand for the count. *)
Definition Read (n : nat) (p : Conn) : (list byte * option error) * Conn :=
  let '(err, p) :=
    if once p then (None, p)
    else let '(e, p') := checkPrefix p in (e, set_once true p') in
  match err with
  | Some e => (([], Some e), p)
  | None =>
      let '(res, (r, c)) := Reader_Read n (bufReader p) (conn p) in
      (res, set_reader r c p)
  end.

(** [func (p *Conn) Write(b []byte) (int, error)]. *)
Definition Write (b : list byte) (p : Conn) : (nat * option error) * Conn :=
  let '(res, c) := conn_Write b (conn p) in (res, set_conn c p).

(** [func (p *Conn) SetReadDeadline(t time.Time) error]. *)
Definition SetReadDeadline (t : option Z) (p : Conn) : option error * Conn :=
  let '(res, c) := conn_SetReadDeadline t (conn p) in (res, set_conn c p).

(** [func (p *Conn) LocalAddr() net.Addr]. *)
Definition LocalAddr (p : Conn) : net_Addr * Conn :=
  let p := checkPrefixOnce p in
  match dstAddr p with
  | Some a => if negb (useConnAddr p) then (AddrTCP a, p) else (connLocal (conn p), p)
  | None => (connLocal (conn p), p)
  end.

(** [func (p *Conn) RemoteAddr() net.Addr]. *)
Definition RemoteAddr (p : Conn) : net_Addr * Conn :=
  let p := checkPrefixOnce p in
  match srcAddr p with
  | Some a => if negb (useConnAddr p) then (AddrTCP a, p) else (connRemote (conn p), p)
  | None => (connRemote (conn p), p)
  end.

(** [func (p *Conn) ProxySourceAddr() (net.Addr, error)]; [None] is the nil
    interface value. *)
Definition ProxySourceAddr (p : Conn) : (option net_Addr * option error) * Conn :=
  let p := checkPrefixOnce p in
  match srcAddr p with
  | None => ((None, proxyErr p), p)
  | Some a => ((Some (AddrTCP a), proxyErr p), p)
  end.

(** [SourceChecker] and the configuration held by [Listener]. *)
Definition SourceChecker := net_Addr -> bool * option error.

Record Listener : Type := mkListener {
  ProxyHeaderTimeout : Z;
  SourceCheck : option SourceChecker;
  UnknownOK : bool
}.

(** [func (p *Listener) Accept() (net.Conn, error)]; [accepted] is what the
    underlying listener's [Accept] returned. *)
Definition Accept (l : Listener) (accepted : NetConn + error) : Conn + error :=
  match accepted with
  | inr err => inr err
  | inl c =>
      let checked :=
        match SourceCheck l with
        | None => inl false
        | Some check =>
            match check (connRemote c) with
            | (_, Some err) => inr err
            | (allowed, None) => inl (negb allowed)
            end
        end in
      match checked with
      | inr err => inr err
      | inl use =>
          inl (set_unknownOK (UnknownOK l)
                 (set_useConnAddr use (NewConn c (ProxyHeaderTimeout l))))
      end
  end.

(** ** Observing a connection *)

(** The bytes of the segments up to the first failed read, and the script
    from that read on. *)
Fixpoint lead (evs : list event) : list byte :=
  match evs with
  | Data b bs :: rest => b :: bs ++ lead rest
  | _ => []
  end.

Fixpoint afterLead (evs : list event) : list event :=
  match evs with
  | Data _ _ :: rest => afterLead rest
  | _ => evs
  end.

(** The error of the first read that fails, and the script after it. *)
Definition nextErr (evs : list event) : error :=
  match afterLead evs with
  | Fault e :: _ => e
  | _ => io_EOF
  end.

Definition afterErr (evs : list event) : list event :=
  match afterLead evs with
  | Fault _ :: rest => rest
  | _ => []
  end.

(** What an open connection and the reader's buffer hold together. *)
Definition pending (r : Reader) (c : NetConn) : list byte :=
  buf r ++ lead (incoming c).

(** How a stream compares with the signature: it starts with it
    ([Same]), departs from it at some byte ([Differs]), or ends before
    either is settled ([Short]). *)
Inductive verdict : Type := Same | Differs | Short.

Fixpoint agree (pfx s : list byte) : verdict :=
  match pfx, s with
  | [], _ => Same
  | _ :: _, [] => Short
  | a :: pfx', b :: s' => if Ascii.eqb a b then agree pfx' s' else Differs
  end.

(** The errors [checkPrefix] stores for a stream that departs from the
    prefix, for a failed [Peek] and for a failed [ReadString]. *)
Definition errMismatch : error :=
  fmt_Errorf (str "connection read did not match proxy header").

Definition errPeek (e : error) : error :=
  fmt_Errorf_w (str "error while trying to read proxy header: ") e.

Definition errLine (e : error) : error :=
  fmt_Errorf_w (str "error reading first proxyheader line: ") e.

(** Calling [step] until it fails: the bytes gathered and the error that
    ended the loop ([None] when [fuel] calls were not enough to meet one). *)
Fixpoint readLoop (step : Conn -> (list byte * option error) * Conn)
    (fuel : nat) (p : Conn) : (list byte * option error) * Conn :=
  match fuel with
  | 0 => (([], None), p)
  | S f =>
      let '((d, e), p') := step p in
      match e with
      | Some _ => ((d, e), p')
      | None => let '((d', e'), p'') := readLoop step f p' in ((d ++ d', e'), p'')
      end
  end.

(** Reading until a [Read] fails, as [io.ReadAll] does, with buffers of [n]
    bytes. *)
Definition drain (fuel n : nat) (p : Conn) : (list byte * option error) * Conn :=
  readLoop (Read n) fuel p.

(** The parts of the underlying connection no read, close or deadline
    call changes. *)
Definition sameConn (c c' : NetConn) : Prop :=
  connLocal c' = connLocal c /\ connRemote c' = connRemote c /\
  outgoing c' = outgoing c.

(** The fields of the wrapper the header parser never writes, and the parts
    of the connection it leaves as they were. *)
Definition untouched (p p' : Conn) : Prop :=
  once p' = once p /\ proxyHeaderTimeout p' = proxyHeaderTimeout p /\
  unknownOK p' = unknownOK p /\ logged p' = logged p /\
  parseRuns p' = parseRuns p /\ sameConn (conn p) (conn p').

(** [checkPrefix] around its body: the run is counted and the deadline
    installed; the deferred call removes the deadline. *)
Definition arm (p : Conn) : Conn :=
  if (proxyHeaderTimeout p =? 0)%Z then count_run p
  else set_conn (snd (conn_SetReadDeadline (Some (proxyHeaderTimeout p)) (conn p)))
                (count_run p).

Definition disarm (timeout : Z) (p : Conn) : Conn :=
  if (timeout =? 0)%Z then p
  else set_conn (snd (conn_SetReadDeadline None (conn p))) p.

(** The wrapper's connection is open and, with the reader's buffer, holds
    the bytes [s] before the part [tl] of the script that starts with the
    first failed read. *)
Definition readable (p : Conn) (s : list byte) (tl : list event) : Prop :=
  closed (conn p) = false /\ rerr (bufReader p) = None /\
  pending (bufReader p) (conn p) = s /\ afterLead (incoming (conn p)) = tl.

(** The error of the read that fails first, from the script at that read. *)
Definition errOf (tl : list event) : error :=
  match tl with
  | Fault e :: _ => e
  | _ => io_EOF
  end.

(** What the parser stores: the two addresses, the error and the flag. *)
Definition outcome (p : Conn) : option TCPAddr * option TCPAddr * option error * bool :=
  (srcAddr p, dstAddr p, proxyErr p, useConnAddr p).

(** The wrapper [Accept] hands out: [NewConn] with the two fields set from
    the source check and the listener. *)
Definition wrapped (c : NetConn) (timeout : Z) (use unk : bool) : Conn :=
  set_unknownOK unk (set_useConnAddr use (NewConn c timeout)).

(** The calls that start the header parser, and the state each leaves. *)
Inductive call : Type :=
| CallRead (n : nat)
| CallLocalAddr
| CallRemoteAddr
| CallProxySourceAddr.

Definition after (o : call) (p : Conn) : Conn :=
  match o with
  | CallRead n => snd (Read n p)
  | CallLocalAddr => snd (LocalAddr p)
  | CallRemoteAddr => snd (RemoteAddr p)
  | CallProxySourceAddr => snd (ProxySourceAddr p)
  end.

Definition afterAll (os : list call) (p : Conn) : Conn :=
  fold_left (fun q o => after o q) os p.

(** What [checkPrefixOnce] does after [checkPrefix] returned [err]. *)
Definition recover (err : option error) (q : Conn) : Conn :=
  match err with
  | Some e =>
      if negb (is_EOF e)
      then set_reader NewReader (conn (close_conn (log_Printf e q)))
                      (close_conn (log_Printf e q))
      else q
  | None => q
  end.

(** An open connection with the script [evs], for the examples: the proxy
    at 10.0.0.1 has connected to the server at 10.0.0.2. *)
Definition exampleConn (evs : list event) : NetConn :=
  mkNetConn evs false [] None
    (AddrOther (str "tcp") (str "10.0.0.2:8080"))
    (AddrOther (str "tcp") (str "10.0.0.1:54321")).

(** One segment holding the bytes of [s]. *)
Definition segment (s : list byte) : list event := unread s [].

Definition CRLF : list byte := ["013"%char; "010"%char].

Definition errTimeout : error := net_Error true (str "i/o timeout").

(** The parser rejected the header with the error [e]: it returned [e],
    stored it and closed the underlying connection. *)
Definition rejected (res : option error * Conn) (e : error) : Prop :=
  fst res = Some e /\ proxyErr (snd res) = Some e /\
  closed (conn (snd res)) = true.

(** The requirements on the address fields as the specification words
    them: an IP literal of the declared family, and a port that is a
    non-negative decimal integer. *)
Definition literal_of_family (family s : gostring) : bool :=
  if bytes_Equal family (str "TCP4")
  then match parseIPv4 s with Some _ => true | None => false end
  else match parseIPv6 s with Some _ => true | None => false end.

Definition nonneg_decimal (s : gostring) : bool :=
  match s with
  | [] => false
  | _ :: _ => match decimal 0 s with Some _ => true | None => false end
  end.

(** A port as the header carries it: decimal digits, at most 65535. *)
Definition validPort (s : gostring) (port : Z) : Prop :=
  s <> [] /\ decimal 0 s = Some port /\ (port <= 65535)%Z.

(** The condition of the loop of [Peek]. *)
Definition peekMore (n : nat) (r : Reader) : bool :=
  (length (buf r) <? n) && (length (buf r) <? defaultBufSize)
  && match rerr r with None => true | Some _ => false end.

(** A listener whose source checker trusts nobody. *)
Definition suspiciousListener : Listener :=
  mkListener 0 (Some (fun _ => (false, None))) false.

(** The bytes an IP literal can hold. *)
Definition ipChar (c : byte) : Prop :=
  hexdigit c <> None \/ c = "."%char \/ c = ":"%char.

(** The address accessors: the calls that run the parser through
    [checkPrefixOnce]. *)
Inductive accessor : Type :=
| GetLocalAddr
| GetRemoteAddr
| GetProxySourceAddr.

(** An accessor as a [call]. *)
Definition callOf (a : accessor) : call :=
  match a with
  | GetLocalAddr => CallLocalAddr
  | GetRemoteAddr => CallRemoteAddr
  | GetProxySourceAddr => CallProxySourceAddr
  end.

(** * Properties *)

(** ** Bytes *)

Lemma bytes_Equal_refl (a : list byte) : bytes_Equal a a = true.
Proof.
  induction a as [|x a IH]; simpl; [reflexivity|].
  now rewrite Ascii.eqb_refl, IH.
Qed.

Lemma bytes_Equal_eq (a b : list byte) : bytes_Equal a b = true <-> a = b.
Proof.
  split.
  - revert b; induction a as [|x a IH]; intros [|y b] H; simpl in H;
      try discriminate; [reflexivity|].
    apply andb_true_iff in H as [Hxy Hab].
    apply Ascii.eqb_eq in Hxy. apply IH in Hab. now subst.
  - intros ->. apply bytes_Equal_refl.
Qed.

Lemma bytes_Equal_neq (a b : list byte) : bytes_Equal a b = false <-> a <> b.
Proof.
  split.
  - intros H Heq. apply bytes_Equal_eq in Heq. congruence.
  - intros H. destruct (bytes_Equal a b) eqn:E; [|reflexivity].
    apply bytes_Equal_eq in E. contradiction.
Qed.

Lemma IndexByte_None (s : list byte) (c : byte) :
  IndexByte s c = None <-> ~ In c s.
Proof.
  induction s as [|x s IH]; simpl.
  - tauto.
  - destruct (Ascii.eqb x c) eqn:E.
    + apply Ascii.eqb_eq in E. split; [discriminate|]. intros H. exfalso. auto.
    + apply Ascii.eqb_neq in E.
      destruct (IndexByte s c) eqn:Es.
      * split; [discriminate|]. intros H. exfalso. apply H. right.
        destruct (in_dec ascii_dec c s) as [Hin|Hin]; [assumption|].
        apply IH in Hin. discriminate.
      * split; [|reflexivity]. intros _ [H|H]; [congruence|].
        now apply IH in H.
Qed.

Lemma IndexByte_Some (s : list byte) (c : byte) (i : nat) :
  IndexByte s c = Some i ->
  i < length s /\ ~ In c (firstn i s) /\ skipn i s = c :: skipn (S i) s.
Proof.
  revert i; induction s as [|x s IH]; simpl; intros i H; [discriminate|].
  destruct (Ascii.eqb x c) eqn:E.
  - apply Ascii.eqb_eq in E. injection H as <-. subst. simpl.
    repeat split; [lia | tauto].
  - apply Ascii.eqb_neq in E.
    destruct (IndexByte s c) as [j|] eqn:Es; [|discriminate].
    injection H as <-. destruct (IH j eq_refl) as (Hlt & Hnin & Hsk).
    repeat split; [lia | | exact Hsk].
    simpl. intros [H|H]; [congruence | contradiction].
Qed.

Lemma IndexByte_app_l (s t : list byte) (c : byte) (i : nat) :
  IndexByte s c = Some i -> IndexByte (s ++ t) c = Some i.
Proof.
  revert i; induction s as [|x s IH]; simpl; intros i H; [discriminate|].
  destruct (Ascii.eqb x c); [assumption|].
  destruct (IndexByte s c) as [j|]; [|discriminate].
  now rewrite (IH j eq_refl).
Qed.

Lemma IndexByte_app_r (s t : list byte) (c : byte) :
  IndexByte s c = None ->
  IndexByte (s ++ t) c =
  match IndexByte t c with Some i => Some (length s + i) | None => None end.
Proof.
  induction s as [|x s IH]; simpl; intros H.
  - now destruct (IndexByte t c).
  - destruct (Ascii.eqb x c); [discriminate|].
    destruct (IndexByte s c); [discriminate|].
    rewrite (IH eq_refl). now destruct (IndexByte t c).
Qed.

(** ** The bytes a connection is about to deliver *)

Lemma lead_unread (l : list byte) (evs : list event) :
  lead (unread l evs) = l ++ lead evs.
Proof. destruct l; reflexivity. Qed.

Lemma afterLead_unread (l : list byte) (evs : list event) :
  afterLead (unread l evs) = afterLead evs.
Proof. destruct l; reflexivity. Qed.

Lemma weight_unread (l : list byte) (evs : list event) :
  weight (unread l evs) = length l + weight evs.
Proof. destruct l; reflexivity. Qed.

Lemma lead_nil_afterLead (evs : list event) : lead evs = [] -> afterLead evs = evs.
Proof. destruct evs as [|[b bs|e] rest]; simpl; intros H; congruence. Qed.

Lemma nextErr_unread (l : list byte) (evs : list event) :
  nextErr (unread l evs) = nextErr evs.
Proof. unfold nextErr. now rewrite afterLead_unread. Qed.

Lemma afterErr_unread (l : list byte) (evs : list event) :
  afterErr (unread l evs) = afterErr evs.
Proof. unfold afterErr. now rewrite afterLead_unread. Qed.

(** ** [fill] on an open connection *)

Lemma fillTries_S (i : nat) (r : Reader) (c : NetConn) :
  fillTries (S i) r c =
  let '((d, e), c') := conn_Read (defaultBufSize - length (buf r)) c in
  match e with
  | Some _ => (mkReader (buf r ++ d) e, c')
  | None => match d with
            | [] => fillTries i (mkReader (buf r ++ d) (rerr r)) c'
            | _ :: _ => (mkReader (buf r ++ d) (rerr r), c')
            end
  end.
Proof. reflexivity. Qed.

Lemma fill_open (r : Reader) (c : NetConn) :
  closed c = false ->
  length (buf r) < defaultBufSize ->
  fill r c =
  match incoming c with
  | [] => (mkReader (buf r) (Some io_EOF), c)
  | Fault e :: rest => (mkReader (buf r) (Some e), set_incoming rest c)
  | Data b bs :: rest =>
      let m := defaultBufSize - length (buf r) in
      (mkReader (buf r ++ firstn m (b :: bs)) (rerr r),
       set_incoming (unread (skipn m (b :: bs)) rest) c)
  end.
Proof.
  intros Hopen Hroom. unfold fill.
  change maxConsecutiveEmptyReads with (S 99).
  rewrite fillTries_S.
  unfold conn_Read. rewrite Hopen.
  destruct (incoming c) as [|[b bs|e] rest].
  - now rewrite app_nil_r.
  - cbv zeta.
    destruct (defaultBufSize - length (buf r)) as [|m] eqn:Em; [lia|].
    reflexivity.
  - now rewrite app_nil_r.
Qed.

Lemma fill_closed (r : Reader) (c : NetConn) :
  closed c = true ->
  fill r c = (mkReader (buf r) (Some net_ErrClosed), c).
Proof.
  intros Hc. unfold fill.
  change maxConsecutiveEmptyReads with (S 99).
  rewrite fillTries_S.
  unfold conn_Read. rewrite Hc. now rewrite app_nil_r.
Qed.

(** ** The connection under [set_incoming] *)

Lemma set_incoming_same (c : NetConn) : set_incoming (incoming c) c = c.
Proof. now destruct c. Qed.

Lemma set_incoming_twice (a b : list event) (c : NetConn) :
  set_incoming a (set_incoming b c) = set_incoming a c.
Proof. reflexivity. Qed.

Lemma defaultBufSize_pos : 0 < defaultBufSize.
Proof. unfold defaultBufSize. lia. Qed.

(** ** [Peek] *)

Lemma peekFill_err (fuel n : nat) (r : Reader) (c : NetConn) (e : error) :
  rerr r = Some e -> peekFill fuel n r c = (r, c).
Proof.
  intros H. destruct fuel; [reflexivity|].
  cbn [peekFill]. rewrite H. now rewrite andb_false_r.
Qed.

Lemma peekFill_full (fuel n : nat) (r : Reader) (c : NetConn) :
  n <= length (buf r) -> peekFill fuel n r c = (r, c).
Proof.
  intros H. destruct fuel; [reflexivity|].
  cbn [peekFill].
  replace (length (buf r) <? n) with false; [reflexivity|].
  symmetry. apply Nat.ltb_ge. exact H.
Qed.

Lemma firstn_cons_length (A : Type) (m : nat) (x : A) (l : list A) :
  0 < m -> 1 <= length (firstn m (x :: l)).
Proof. destruct m; [lia|]. simpl. lia. Qed.

(** The two ways the loop of [Peek] ends on an open connection: with [n]
    bytes in the buffer, or with every byte up to the failed read in the
    buffer and the error recorded. *)
Lemma peekFill_spec (fuel n : nat) : forall (r : Reader) (c : NetConn),
  closed c = false -> rerr r = None -> n <= defaultBufSize ->
  n - length (buf r) <= fuel ->
  exists r' evs',
    peekFill fuel n r c = (r', set_incoming evs' c) /\
    ((n <= length (pending r c) /\ n <= length (buf r') /\ rerr r' = None /\
      buf r' ++ lead evs' = pending r c /\
      afterLead evs' = afterLead (incoming c))
     \/
     (length (pending r c) < n /\ buf r' = pending r c /\
      rerr r' = Some (nextErr (incoming c)) /\ evs' = afterErr (incoming c))).
Proof.
  induction fuel as [|f IH]; intros r c Hopen Herr Hn Hfuel.
  - exists r, (incoming c). rewrite set_incoming_same. split; [reflexivity|].
    left. unfold pending. rewrite length_app. repeat split; try lia; assumption.
  - destruct (Nat.ltb_spec (length (buf r)) n) as [Hlt|Hge].
    + cbn [peekFill]. rewrite Herr.
      replace (length (buf r) <? n) with true by (symmetry; now apply Nat.ltb_lt).
      replace (length (buf r) <? defaultBufSize) with true
        by (symmetry; apply Nat.ltb_lt; lia).
      cbn [andb]. rewrite fill_open by (assumption || lia).
      unfold pending, nextErr, afterErr.
      destruct (incoming c) as [|[b bs|e] rest] eqn:Einc.
      * rewrite peekFill_err with (e := io_EOF) by reflexivity.
        exists (mkReader (buf r) (Some io_EOF)), [].
        assert (Hc : set_incoming [] c = c)
          by (rewrite <- Einc; apply set_incoming_same).
        rewrite Hc. split; [reflexivity|].
        right. cbn. rewrite app_nil_r. repeat split; assumption.
      * cbv zeta.
        set (m := defaultBufSize - length (buf r)).
        set (r1 := mkReader (buf r ++ firstn m (b :: bs)) (rerr r)).
        set (c1 := set_incoming (unread (skipn m (b :: bs)) rest) c).
        assert (Hm : 0 < m) by (unfold m; lia).
        assert (Hlen : 1 <= length (firstn m (b :: bs)))
          by now apply firstn_cons_length.
        destruct (IH r1 c1) as (r' & evs' & Hrun & Hcase).
        { exact Hopen. }
        { exact Herr. }
        { exact Hn. }
        { unfold r1. cbn [buf]. rewrite length_app. lia. }
        exists r', evs'. split; [exact Hrun|].
        assert (Hpend : pending r1 c1 = buf r ++ lead (Data b bs :: rest)).
        { unfold pending, r1, c1. cbn [buf incoming set_incoming].
          rewrite lead_unread, <- app_assoc, (app_assoc (firstn m (b :: bs))).
          now rewrite firstn_skipn. }
        assert (Hafter : afterLead (incoming c1) = afterLead (Data b bs :: rest)).
        { unfold c1. cbn [incoming set_incoming]. now rewrite afterLead_unread. }
        unfold nextErr, afterErr in Hcase.
        rewrite Hpend, Hafter in Hcase. exact Hcase.
      * rewrite peekFill_err with (e := e) by reflexivity.
        exists (mkReader (buf r) (Some e)), rest. split; [reflexivity|].
        right. cbn. rewrite app_nil_r. repeat split; assumption.
    + rewrite peekFill_full by assumption.
      exists r, (incoming c). rewrite set_incoming_same. split; [reflexivity|].
      left. unfold pending. rewrite length_app. repeat split; try lia; assumption.
Qed.

Lemma Peek_enough (n : nat) (r : Reader) (c : NetConn) :
  closed c = false -> rerr r = None -> n <= defaultBufSize ->
  n <= length (pending r c) ->
  exists r' evs',
    Peek n r c = ((firstn n (pending r c), None), (r', set_incoming evs' c)) /\
    rerr r' = None /\ buf r' ++ lead evs' = pending r c /\
    afterLead evs' = afterLead (incoming c).
Proof.
  intros Hopen Herr Hn Hlen. unfold Peek.
  destruct (@peekFill_spec n n r c Hopen Herr Hn) as (r' & evs' & Hrun & Hcase);
    [lia|].
  destruct Hcase as [(_ & Hbuf & Herr' & Hpend & Hafter)|(Hshort & _)]; [|lia].
  exists r', evs'. rewrite Hrun.
  replace (defaultBufSize <? n) with false by (symmetry; apply Nat.ltb_ge; lia).
  replace (length (buf r') <? n) with false by (symmetry; apply Nat.ltb_ge; lia).
  repeat split; try assumption.
  rewrite <- Hpend, firstn_app.
  replace (n - length (buf r')) with 0 by lia.
  now rewrite firstn_O, app_nil_r.
Qed.

Lemma Peek_short (n : nat) (r : Reader) (c : NetConn) :
  closed c = false -> rerr r = None -> n <= defaultBufSize ->
  length (pending r c) < n ->
  Peek n r c =
  ((pending r c, Some (nextErr (incoming c))),
   (mkReader (pending r c) None, set_incoming (afterErr (incoming c)) c)).
Proof.
  intros Hopen Herr Hn Hlen. unfold Peek.
  destruct (@peekFill_spec n n r c Hopen Herr Hn) as (r' & evs' & Hrun & Hcase);
    [lia|].
  destruct Hcase as [(Hlong & _)|(_ & Hbuf & Herr' & Hevs)]; [lia|].
  rewrite Hrun.
  replace (defaultBufSize <? n) with false by (symmetry; apply Nat.ltb_ge; lia).
  replace (length (buf r') <? n) with true
    by (symmetry; apply Nat.ltb_lt; rewrite Hbuf; lia).
  now rewrite Herr', Hbuf, Hevs.
Qed.

(** ** The prefix loop *)

Lemma skipn_cons_firstn (A : Type) (j : nat) : forall (l t : list A) (x : A),
  skipn j l = x :: t ->
  firstn (S j) l = firstn j l ++ [x] /\ skipn (S j) l = t /\ j < length l.
Proof.
  induction j as [|j IH]; intros l t x H.
  - destruct l as [|y l]; [discriminate|]. simpl in H. injection H as -> ->.
    simpl. repeat split. lia.
  - destruct l as [|y l]; [discriminate|]. simpl in H.
    destruct (IH _ _ _ H) as (Hf & Hs & Hl).
    change (firstn (S (S j)) (y :: l)) with (y :: firstn (S j) l).
    rewrite Hf. simpl. repeat split; [exact Hs | lia].
Qed.

Lemma skipn_nil_length (A : Type) (j : nat) (l : list A) :
  skipn j l = [] -> length l <= j.
Proof.
  intros H. pose proof (length_skipn j l) as Hl. rewrite H in Hl. simpl in Hl. lia.
Qed.

(** What the loop does, by the way the stream compares with the prefix
    from position [j] on, the first [j] bytes having been found equal. *)
Lemma scanPrefix_spec (k : nat) : forall (j : nat) (p : Conn),
  j + k = prefixLen ->
  closed (conn p) = false -> rerr (bufReader p) = None ->
  firstn j (pending (bufReader p) (conn p)) = firstn j prefix ->
  j <= length (pending (bufReader p) (conn p)) ->
  let s := pending (bufReader p) (conn p) in
  match agree (skipn j prefix) (skipn j s) with
  | Same =>
      exists r' evs',
        scanPrefix k (S j) p = (Matched, set_reader r' (set_incoming evs' (conn p)) p) /\
        rerr r' = None /\ buf r' ++ lead evs' = s /\
        afterLead evs' = afterLead (incoming (conn p))
  | Differs =>
      exists r' evs',
        scanPrefix k (S j) p =
          (Return None,
           set_proxyErr (Some errMismatch)
             (set_reader r' (set_incoming evs' (conn p)) p)) /\
        rerr r' = None /\ buf r' ++ lead evs' = s /\
        afterLead evs' = afterLead (incoming (conn p))
  | Short =>
      let e := nextErr (incoming (conn p)) in
      scanPrefix k (S j) p =
        (Return (if is_net_timeout e then None else Some e),
         set_proxyErr (Some (errPeek e))
           (set_reader (mkReader s None)
              (set_incoming (afterErr (incoming (conn p))) (conn p)) p))
  end.
Proof.
  induction k as [|k IH]; intros j p Hjk Hopen Herr Hpre Hlen s.
  - rewrite skipn_all2 by (unfold prefixLen in Hjk; lia).
    cbn [agree scanPrefix].
    exists (bufReader p), (incoming (conn p)).
    rewrite set_incoming_same. destruct p; repeat split; assumption.
  - assert (Hj : j < length prefix) by (unfold prefixLen in Hjk; lia).
    destruct (skipn j prefix) as [|a pt] eqn:Ea.
    { apply skipn_nil_length in Ea. lia. }
    destruct (skipn_cons_firstn _ _ Ea) as (Hfa & Hsa & _).
    assert (Hsz : S j <= defaultBufSize).
    { unfold prefix in Hj. cbn in Hj. unfold defaultBufSize. lia. }
    cbn [scanPrefix agree].
    destruct (skipn j s) as [|b st] eqn:Eb.
    + (* the stream ends here *)
      apply skipn_nil_length in Eb.
      rewrite Peek_short by (assumption || (fold s; lia)).
      fold s. cbv zeta. destruct (is_net_timeout _); reflexivity.
    + destruct (skipn_cons_firstn _ _ Eb) as (Hfb & Hsb & Hlb).
      destruct (@Peek_enough (S j) (bufReader p) (conn p) Hopen Herr Hsz) as
        (r' & evs' & Hpeek & Herr' & Hpend & Hafter); [fold s; lia|].
      rewrite Hpeek. fold s. rewrite Hfa, Hfb. fold s in Hpre. rewrite Hpre.
      destruct (Ascii.eqb a b) eqn:Eab.
      * apply Ascii.eqb_eq in Eab. subst b.
        rewrite bytes_Equal_refl. cbn [negb].
        set (p1 := set_reader r' (set_incoming evs' (conn p)) p).
        specialize (IH (S j) p1).
        assert (Hs1 : pending (bufReader p1) (conn p1) = s) by exact Hpend.
        rewrite Hs1 in IH. cbv zeta in IH.
        rewrite Hsa, Hsb in IH.
        assert (Hgo : match agree pt st with
                      | Same | Differs | Short => True end) by now destruct (agree pt st).
        specialize (IH ltac:(lia) Hopen Herr').
        rewrite Hfa, Hfb, Hpre in IH.
        specialize (IH eq_refl ltac:(lia)).
        change (incoming (conn p1)) with evs' in IH.
        change (conn p1) with (set_incoming evs' (conn p)) in IH.
        destruct (agree pt st).
        -- destruct IH as (r2 & evs2 & Hrun & H1 & H2 & H3).
           exists r2, evs2. rewrite Hrun. repeat split; try assumption; congruence.
        -- destruct IH as (r2 & evs2 & Hrun & H1 & H2 & H3).
           exists r2, evs2. rewrite Hrun. repeat split; try assumption; congruence.
        -- rewrite IH. unfold nextErr, afterErr. rewrite Hafter. reflexivity.
      * assert (Hne : bytes_Equal (firstn j prefix ++ [b]) (firstn j prefix ++ [a]) = false).
        { apply bytes_Equal_neq. intros Heq. apply app_inv_head in Heq.
          apply Ascii.eqb_neq in Eab. congruence. }
        rewrite Hne. cbn [negb].
        exists r', evs'. repeat split; assumption.
Qed.

(** ** [ReadString] *)

Lemma firstn_app_exact (A : Type) (a b : list A) (k : nat) :
  firstn (length a + k) (a ++ b) = a ++ firstn k b.
Proof. induction a as [|x a IH]; simpl; [reflexivity|]. now rewrite IH. Qed.

Lemma skipn_app_exact (A : Type) (a b : list A) (k : nat) :
  skipn (length a + k) (a ++ b) = skipn k b.
Proof. induction a as [|x a IH]; simpl; [reflexivity|]. exact IH. Qed.

Lemma firstn_app_short (A : Type) (a b : list A) (k : nat) :
  k <= length a -> firstn k (a ++ b) = firstn k a.
Proof.
  intros H. rewrite firstn_app. replace (k - length a) with 0 by lia.
  now rewrite firstn_O, app_nil_r.
Qed.

Lemma skipn_app_short (A : Type) (a b : list A) (k : nat) :
  k <= length a -> skipn k (a ++ b) = skipn k a ++ b.
Proof.
  intros H. rewrite skipn_app. replace (k - length a) with 0 by lia.
  reflexivity.
Qed.

Lemma readStringLoop_err (f : nat) (delim : byte) (acc : list byte)
    (r : Reader) (c : NetConn) (e : error) :
  IndexByte (buf r) delim = None -> rerr r = Some e ->
  readStringLoop (S f) delim acc r c =
  Some ((acc ++ buf r, Some e), (mkReader [] None, c)).
Proof. intros Hi He. cbn [readStringLoop]. now rewrite Hi, He. Qed.

(** With enough rounds, the loop of [ReadString] on an open connection
    returns the bytes up to the first [delim], or every byte up to the
    failed read with its error. *)
Lemma readStringLoop_spec (delim : byte) (fuel : nat) :
  forall (acc : list byte) (r : Reader) (c : NetConn),
  closed c = false -> rerr r = None ->
  2 * weight (incoming c)
    + (if defaultBufSize <=? length (buf r) then 1 else 0) + 2 <= fuel ->
  match IndexByte (pending r c) delim with
  | Some i =>
      exists r' evs',
        readStringLoop fuel delim acc r c =
          Some ((acc ++ firstn (S i) (pending r c), None), (r', set_incoming evs' c)) /\
        rerr r' = None /\ buf r' ++ lead evs' = skipn (S i) (pending r c) /\
        afterLead evs' = afterLead (incoming c)
  | None =>
      readStringLoop fuel delim acc r c =
        Some ((acc ++ pending r c, Some (nextErr (incoming c))),
              (mkReader [] None, set_incoming (afterErr (incoming c)) c))
  end.
Proof.
  induction fuel as [|f IH]; intros acc r c Hopen Herr Hfuel; [lia|].
  cbn [readStringLoop]. unfold pending.
  destruct (IndexByte (buf r) delim) as [i|] eqn:Ebuf.
  - (* the delimiter is in the buffer *)
    rewrite (@IndexByte_app_l (buf r) (lead (incoming c)) delim i Ebuf).
    apply IndexByte_Some in Ebuf as (Hi & _ & _).
    exists (mkReader (skipn (S i) (buf r)) (rerr r)), (incoming c).
    rewrite set_incoming_same, firstn_app_short, skipn_app_short by lia.
    repeat split; assumption.
  - rewrite (@IndexByte_app_r (buf r) (lead (incoming c)) delim Ebuf). rewrite Herr.
    destruct (defaultBufSize <=? length (buf r)) eqn:Efull.
    + (* a full buffer goes to the fragments *)
      specialize (IH (acc ++ buf r) (mkReader [] None) c Hopen eq_refl).
      unfold pending in IH. cbn [buf app] in IH.
      replace (defaultBufSize <=? @length byte []) with false in IH
        by (symmetry; apply Nat.leb_gt; cbn; apply defaultBufSize_pos).
      specialize (IH ltac:(lia)).
      destruct (IndexByte (lead (incoming c)) delim) as [i|].
      * destruct IH as (r' & evs' & Hrun & H1 & H2 & H3).
        exists r', evs'. rewrite Hrun.
        replace (S (length (buf r) + i)) with (length (buf r) + S i) by lia.
        rewrite firstn_app_exact, skipn_app_exact, app_assoc.
        repeat split; assumption.
      * rewrite IH. now rewrite app_assoc.
    + apply Nat.leb_gt in Efull.
      rewrite fill_open by assumption.
      unfold nextErr, afterErr.
      destruct (incoming c) as [|[b bs|e] rest] eqn:Einc.
      * assert (Hc : set_incoming [] c = c)
          by (rewrite <- Einc; apply set_incoming_same).
        destruct f as [|f]; [cbn in Hfuel; lia|].
        rewrite readStringLoop_err with (e := io_EOF) by (assumption || reflexivity).
        cbn. now rewrite Hc, app_nil_r.
      * cbv zeta.
        set (m := defaultBufSize - length (buf r)).
        set (l := b :: bs).
        set (r1 := mkReader (buf r ++ firstn m l) (rerr r)).
        set (c1 := set_incoming (unread (skipn m l) rest) c).
        assert (Hm : 0 < m) by (unfold m; lia).
        assert (Hl1 : 1 <= length (firstn m l)) by now apply firstn_cons_length.
        assert (Hsplit : length (firstn m l) + length (skipn m l) = length l).
        { rewrite <- length_app, firstn_skipn. reflexivity. }
        assert (Hpend : pending r1 c1 = buf r ++ lead (Data b bs :: rest)).
        { unfold pending, r1, c1. cbn [buf incoming set_incoming].
          rewrite lead_unread, <- app_assoc, (app_assoc (firstn m l)).
          now rewrite firstn_skipn. }
        assert (Hafter : afterLead (incoming c1) = afterLead (Data b bs :: rest)).
        { unfold c1. cbn [incoming set_incoming]. now rewrite afterLead_unread. }
        specialize (IH acc r1 c1 Hopen Herr).
        assert (Hw : 2 * weight (incoming c1)
                     + (if defaultBufSize <=? length (buf r1) then 1 else 0) + 2 <= f).
        { unfold c1. cbn [incoming set_incoming]. rewrite weight_unread.
          cbn [weight] in Hfuel. change (S (length bs)) with (length l) in Hfuel.
          destruct (defaultBufSize <=? length (buf r1)); lia. }
        specialize (IH Hw). unfold nextErr, afterErr in IH.
        rewrite Hpend, Hafter in IH.
        rewrite <- (@IndexByte_app_r (buf r) (lead (Data b bs :: rest)) delim Ebuf).
        exact IH.
      * destruct f as [|f]; [cbn in Hfuel; lia|].
        rewrite readStringLoop_err with (e := e) by (assumption || reflexivity).
        cbn. now rewrite app_nil_r.
Qed.

Lemma ReadString_found (delim : byte) (r : Reader) (c : NetConn) (i : nat) :
  closed c = false -> rerr r = None ->
  IndexByte (pending r c) delim = Some i ->
  exists r' evs',
    ReadString delim r c =
      ((firstn (S i) (pending r c), None), (r', set_incoming evs' c)) /\
    rerr r' = None /\ buf r' ++ lead evs' = skipn (S i) (pending r c) /\
    afterLead evs' = afterLead (incoming c).
Proof.
  intros Hopen Herr Hi.
  pose proof (@readStringLoop_spec delim (budget c) [] r c Hopen Herr) as H.
  rewrite Hi in H.
  destruct H as (r' & evs' & Hrun & H1 & H2 & H3).
  { unfold budget. destruct (defaultBufSize <=? length (buf r)); lia. }
  exists r', evs'. unfold ReadString. rewrite Hrun. repeat split; assumption.
Qed.

Lemma ReadString_missing (delim : byte) (r : Reader) (c : NetConn) :
  closed c = false -> rerr r = None ->
  IndexByte (pending r c) delim = None ->
  ReadString delim r c =
    ((pending r c, Some (nextErr (incoming c))),
     (mkReader [] None, set_incoming (afterErr (incoming c)) c)).
Proof.
  intros Hopen Herr Hi.
  pose proof (@readStringLoop_spec delim (budget c) [] r c Hopen Herr) as H.
  rewrite Hi in H. unfold ReadString. rewrite H; [reflexivity|].
  unfold budget. destruct (defaultBufSize <=? length (buf r)); lia.
Qed.

(** ** [Read] on the buffered reader *)

Lemma Reader_Read_fail (n : nat) (r : Reader) (c : NetConn) :
  0 < n -> closed c = false -> rerr r = None -> pending r c = [] ->
  Reader_Read n r c =
    (([], Some (nextErr (incoming c))),
     (mkReader [] None, set_incoming (afterErr (incoming c)) c)).
Proof.
  intros Hn Hopen Herr Hpend. unfold pending in Hpend.
  apply app_eq_nil in Hpend as [Hb Hl].
  unfold Reader_Read. destruct n as [|n]; [lia|].
  rewrite Hb, Herr. unfold conn_Read. rewrite Hopen.
  unfold nextErr, afterErr.
  destruct (incoming c) as [|[b bs|e] rest] eqn:Einc; [|discriminate|].
  - assert (Hc : set_incoming [] c = c)
      by (rewrite <- Einc; apply set_incoming_same).
    destruct (defaultBufSize <=? S n); cbn [afterLead]; cbv beta iota zeta;
      now rewrite Hc.
  - destruct (defaultBufSize <=? S n); reflexivity.
Qed.

Lemma Reader_Read_data (n : nat) (r : Reader) (c : NetConn) :
  0 < n -> closed c = false -> rerr r = None -> pending r c <> [] ->
  exists d r' evs',
    Reader_Read n r c = ((d, None), (r', set_incoming evs' c)) /\
    d <> [] /\ rerr r' = None /\
    d ++ buf r' ++ lead evs' = pending r c /\
    afterLead evs' = afterLead (incoming c).
Proof.
  intros Hn Hopen Herr Hpend. unfold pending in *.
  unfold Reader_Read. destruct n as [|n]; [lia|].
  destruct (buf r) as [|x b'] eqn:Eb.
  - rewrite Herr. unfold conn_Read. rewrite Hopen.
    destruct (incoming c) as [|[b bs|e] rest] eqn:Einc;
      try (exfalso; apply Hpend; reflexivity).
    destruct (defaultBufSize <=? S n).
    + exists (firstn (S n) (b :: bs)), (mkReader [] None),
        (unread (skipn (S n) (b :: bs)) rest).
      repeat split.
      * discriminate.
      * cbn [buf app]. rewrite lead_unread, app_assoc, firstn_skipn. reflexivity.
      * now rewrite afterLead_unread.
    + pose proof defaultBufSize_pos as Hpos.
      destruct defaultBufSize as [|m]; [lia|].
      change (firstn (S m) (b :: bs)) with (b :: firstn m bs).
      exists (firstn (S n) (b :: firstn m bs)),
        (mkReader (skipn (S n) (b :: firstn m bs)) None),
        (unread (skipn (S m) (b :: bs)) rest).
      repeat split.
      * discriminate.
      * cbn [buf]. rewrite lead_unread, app_assoc, firstn_skipn.
        change (b :: firstn m bs) with (firstn (S m) (b :: bs)).
        rewrite app_assoc, firstn_skipn. reflexivity.
      * now rewrite afterLead_unread.
  - exists (firstn (S n) (x :: b')), (mkReader (skipn (S n) (x :: b')) (rerr r)),
      (incoming c).
    rewrite set_incoming_same. repeat split.
    + discriminate.
    + exact Herr.
    + cbn [buf]. rewrite app_assoc, firstn_skipn. reflexivity.
Qed.

(** ** Reading a settled connection to its end *)

Lemma Read_settled (n : nat) (p : Conn) :
  once p = true ->
  Read n p =
  let '(res, (r, c)) := Reader_Read n (bufReader p) (conn p) in
  (res, set_reader r c p).
Proof. intros H. unfold Read. now rewrite H. Qed.

(** Once the header is dealt with, reading until the first failure hands
    over every byte the reader and the connection hold, in order. *)
Lemma drain_settled (n : nat) (Hn : 0 < n) (fuel : nat) : forall (p : Conn),
  once p = true -> closed (conn p) = false -> rerr (bufReader p) = None ->
  length (pending (bufReader p) (conn p)) < fuel ->
  drain fuel n p =
    ((pending (bufReader p) (conn p), Some (nextErr (incoming (conn p)))),
     set_reader (mkReader [] None)
       (set_incoming (afterErr (incoming (conn p))) (conn p)) p).
Proof.
  unfold drain.
  induction fuel as [|f IH]; intros p Honce Hopen Herr Hlen; [lia|].
  cbn [readLoop]. rewrite Read_settled by assumption.
  destruct (pending (bufReader p) (conn p)) as [|x s] eqn:Es.
  - rewrite Reader_Read_fail by assumption. reflexivity.
  - destruct (@Reader_Read_data n (bufReader p) (conn p) Hn Hopen Herr)
      as (d & r' & evs' & Hrd & Hd & Herr' & Hpend & Hafter).
    { rewrite Es. discriminate. }
    rewrite Hrd.
    set (p1 := set_reader r' (set_incoming evs' (conn p)) p).
    assert (Hp1 : pending (bufReader p1) (conn p1) = buf r' ++ lead evs') by reflexivity.
    assert (Hlen1 : length (pending (bufReader p1) (conn p1)) < f).
    { rewrite Hp1. rewrite Es in Hpend.
      apply (f_equal (@length byte)) in Hpend. rewrite length_app in Hpend.
      destruct d; [congruence|]. cbn in Hpend, Hlen. lia. }
    rewrite (IH p1 Honce Hopen Herr' Hlen1).
    rewrite Hp1. rewrite Es in Hpend. rewrite Hpend.
    unfold nextErr, afterErr.
    change (incoming (conn p1)) with evs'. rewrite Hafter.
    reflexivity.
Qed.

(** ** What parsing leaves alone *)

Lemma sameConn_refl (c : NetConn) : sameConn c c.
Proof. now repeat split. Qed.

Lemma sameConn_trans (a b c : NetConn) :
  sameConn a b -> sameConn b c -> sameConn a c.
Proof. unfold sameConn. intuition congruence. Qed.

Lemma conn_Read_same (n : nat) (c : NetConn) : sameConn c (snd (conn_Read n c)).
Proof.
  unfold conn_Read. destruct (closed c); [apply sameConn_refl|].
  destruct (incoming c) as [|[b bs|e] rest]; now repeat split.
Qed.

Lemma conn_Close_same (c : NetConn) : sameConn c (snd (conn_Close c)).
Proof. unfold conn_Close. destruct (closed c); now repeat split. Qed.

Lemma conn_Close_closed (c : NetConn) : closed (snd (conn_Close c)) = true.
Proof. unfold conn_Close. destruct (closed c) eqn:E; [exact E | reflexivity]. Qed.

Lemma conn_SetReadDeadline_same (t : option Z) (c : NetConn) :
  sameConn c (snd (conn_SetReadDeadline t c)).
Proof. unfold conn_SetReadDeadline. destruct (closed c); now repeat split. Qed.

Lemma conn_SetReadDeadline_closed (t : option Z) (c : NetConn) :
  closed (snd (conn_SetReadDeadline t c)) = closed c.
Proof. unfold conn_SetReadDeadline. destruct (closed c) eqn:E; [exact E | reflexivity]. Qed.

Lemma conn_SetReadDeadline_incoming (t : option Z) (c : NetConn) :
  incoming (snd (conn_SetReadDeadline t c)) = incoming c.
Proof. unfold conn_SetReadDeadline. now destruct (closed c). Qed.

Lemma fillTries_same (i : nat) : forall (r : Reader) (c : NetConn),
  sameConn c (snd (fillTries i r c)).
Proof.
  induction i as [|i IH]; intros r c; [apply sameConn_refl|].
  rewrite fillTries_S.
  pose proof (conn_Read_same (defaultBufSize - length (buf r)) c) as H.
  destruct (conn_Read (defaultBufSize - length (buf r)) c) as [[d e] c'].
  cbn [snd] in H. destruct e; [exact H|]. destruct d; [|exact H].
  eapply sameConn_trans; [exact H | apply IH].
Qed.

Lemma fill_same (r : Reader) (c : NetConn) : sameConn c (snd (fill r c)).
Proof. unfold fill. apply fillTries_same. Qed.

Lemma peekFill_same (fuel n : nat) : forall (r : Reader) (c : NetConn),
  sameConn c (snd (peekFill fuel n r c)).
Proof.
  induction fuel as [|f IH]; intros r c; [apply sameConn_refl|].
  cbn [peekFill].
  destruct (_ && _ && _); [|apply sameConn_refl].
  pose proof (fill_same r c) as H.
  destruct (fill r c) as [r' c']. cbn [snd] in H.
  eapply sameConn_trans; [exact H | apply IH].
Qed.

Lemma Peek_same (n : nat) (r : Reader) (c : NetConn) :
  sameConn c (snd (snd (Peek n r c))).
Proof.
  unfold Peek. pose proof (peekFill_same n n r c) as H.
  destruct (peekFill n n r c) as [r1 c1]. cbn [snd] in H.
  destruct (defaultBufSize <? n); [exact H|].
  destruct (length (buf r1) <? n); exact H.
Qed.

Lemma readStringLoop_same (delim : byte) (fuel : nat) :
  forall (acc : list byte) (r : Reader) (c : NetConn) res r' c',
  readStringLoop fuel delim acc r c = Some (res, (r', c')) -> sameConn c c'.
Proof.
  induction fuel as [|f IH]; intros acc r c res r' c' H; [discriminate|].
  cbn [readStringLoop] in H.
  destruct (IndexByte (buf r) delim).
  { injection H as _ _ <-. apply sameConn_refl. }
  destruct (rerr r).
  { injection H as _ _ <-. apply sameConn_refl. }
  destruct (defaultBufSize <=? length (buf r)).
  { eapply IH; exact H. }
  pose proof (fill_same r c) as Hf.
  destruct (fill r c) as [r1 c1]. cbn [snd] in Hf.
  eapply sameConn_trans; [exact Hf | eapply IH; exact H].
Qed.

Lemma ReadString_same (delim : byte) (r : Reader) (c : NetConn) :
  sameConn c (snd (snd (ReadString delim r c))).
Proof.
  unfold ReadString.
  destruct (readStringLoop (budget c) delim [] r c) as [[res [r' c']]|] eqn:E.
  - cbn [snd]. eapply readStringLoop_same; exact E.
  - apply sameConn_refl.
Qed.

Lemma Reader_Read_same (n : nat) (r : Reader) (c : NetConn) :
  sameConn c (snd (snd (Reader_Read n r c))).
Proof.
  unfold Reader_Read. destruct n as [|n].
  - destruct (buf r); apply sameConn_refl.
  - destruct (buf r); [|apply sameConn_refl].
    destruct (rerr r); [apply sameConn_refl|].
    destruct (defaultBufSize <=? S n).
    + pose proof (conn_Read_same (S n) c) as H.
      destruct (conn_Read (S n) c) as [[d e] c']. exact H.
    + pose proof (conn_Read_same defaultBufSize c) as H.
      destruct (conn_Read defaultBufSize c) as [[d e] c']. now destruct d.
Qed.

Lemma untouched_refl (p : Conn) : untouched p p.
Proof. unfold untouched. repeat split. Qed.

Lemma untouched_trans (a b c : Conn) :
  untouched a b -> untouched b c -> untouched a c.
Proof.
  unfold untouched. intros (?&?&?&?&?&?) (?&?&?&?&?&?).
  repeat split; try congruence; eapply sameConn_trans; eassumption.
Qed.

Lemma untouched_set_reader (p : Conn) (r : Reader) (c : NetConn) :
  sameConn (conn p) c -> untouched p (set_reader r c p).
Proof. intros H. unfold untouched. cbn. repeat split; apply H. Qed.

Lemma untouched_set_proxyErr (p : Conn) (e : option error) :
  untouched p (set_proxyErr e p).
Proof. unfold untouched. cbn. repeat split. Qed.

Lemma untouched_close_conn (p : Conn) : untouched p (close_conn p).
Proof.
  unfold close_conn, set_conn. apply untouched_set_reader, conn_Close_same.
Qed.

Lemma untouched_fail (e : error) (p : Conn) : untouched p (snd (fail e p)).
Proof.
  unfold fail. cbn [snd].
  eapply untouched_trans; [apply untouched_close_conn | apply untouched_set_proxyErr].
Qed.

Lemma scanPrefix_untouched (k : nat) : forall (i : nat) (p : Conn),
  untouched p (snd (scanPrefix k i p)).
Proof.
  induction k as [|k IH]; intros i p; [apply untouched_refl|].
  cbn [scanPrefix].
  pose proof (Peek_same i (bufReader p) (conn p)) as H.
  destruct (Peek i (bufReader p) (conn p)) as [[inp err] [r c]]. cbn [snd] in H.
  pose proof (untouched_set_reader p r H) as Hp.
  destruct err as [e|].
  - destruct (is_net_timeout e); cbn [snd];
      (eapply untouched_trans; [exact Hp | apply untouched_set_proxyErr]).
  - destruct (negb _); cbn [snd].
    + eapply untouched_trans; [exact Hp | apply untouched_set_proxyErr].
    + eapply untouched_trans; [exact Hp | apply IH].
Qed.

Lemma parseHeader_untouched (line : gostring) (p : Conn) :
  untouched p (snd (parseHeader line p)).
Proof.
  unfold parseHeader.
  repeat match goal with
         | |- untouched _ (snd (if ?b then _ else _)) => destruct b
         | |- untouched _ (snd (match ?x with Some _ => _ | None => _ end)) =>
             destruct x
         | |- untouched _ (snd (fail _ _)) =>
             first [ apply untouched_fail
                   | eapply untouched_trans; [|apply untouched_fail] ]
         end;
    try (unfold untouched; cbn; repeat split; fail).
Qed.

Lemma checkPrefixBody_untouched (p : Conn) :
  untouched p (snd (checkPrefixBody p)).
Proof.
  unfold checkPrefixBody.
  pose proof (scanPrefix_untouched prefixLen 1 p) as Hs.
  destruct (scanPrefix prefixLen 1 p) as [[|ret] p1]; cbn [snd] in Hs; [|exact Hs].
  pose proof (ReadString_same "010"%char (bufReader p1) (conn p1)) as Hr.
  destruct (ReadString _ (bufReader p1) (conn p1)) as [[header err] [r c]].
  cbn [snd] in Hr.
  pose proof (untouched_set_reader p1 r Hr) as Hp.
  destruct err as [e|]; cbn [snd].
  - eapply untouched_trans; [exact Hs|].
    eapply untouched_trans; [exact Hp|].
    eapply untouched_trans; [apply untouched_set_proxyErr | apply untouched_close_conn].
  - eapply untouched_trans; [exact Hs|].
    eapply untouched_trans; [exact Hp | apply parseHeader_untouched].
Qed.

(** [checkPrefix] counts one run and leaves the rest of these alone. *)
Lemma checkPrefix_untouched (p : Conn) :
  untouched (count_run p) (snd (checkPrefix p)).
Proof.
  unfold checkPrefix. cbn [proxyHeaderTimeout count_run].
  change (proxyHeaderTimeout (count_run p)) with (proxyHeaderTimeout p).
  destruct (proxyHeaderTimeout p =? 0)%Z; [apply checkPrefixBody_untouched|].
  set (q := set_conn _ (count_run p)).
  assert (Hq : untouched (count_run p) q).
  { unfold q, set_conn. apply untouched_set_reader, conn_SetReadDeadline_same. }
  pose proof (checkPrefixBody_untouched q) as Hb.
  destruct (checkPrefixBody q) as [ret q']. cbn [snd] in *.
  eapply untouched_trans; [exact Hq|].
  eapply untouched_trans; [exact Hb|].
  unfold set_conn. apply untouched_set_reader, conn_SetReadDeadline_same.
Qed.

(** ** [checkPrefix] on an open connection *)

Lemma checkPrefix_arm (p : Conn) :
  checkPrefix p =
  let '(ret, q) := checkPrefixBody (arm p) in (ret, disarm (proxyHeaderTimeout p) q).
Proof.
  unfold checkPrefix, arm, disarm.
  change (proxyHeaderTimeout (count_run p)) with (proxyHeaderTimeout p).
  change (conn (count_run p)) with (conn p).
  destruct (proxyHeaderTimeout p =? 0)%Z; [|reflexivity].
  now destruct (checkPrefixBody (count_run p)).
Qed.

Lemma arm_readable (p : Conn) (s : list byte) (tl : list event) :
  readable p s tl -> readable (arm p) s tl.
Proof.
  unfold readable, arm. intros (Hopen & Herr & Hs & Htl).
  destruct (proxyHeaderTimeout p =? 0)%Z; [now repeat split|].
  unfold conn_SetReadDeadline. rewrite Hopen. now repeat split.
Qed.

Lemma arm_outcome (p : Conn) : outcome (arm p) = outcome p.
Proof. unfold arm. now destruct (proxyHeaderTimeout p =? 0)%Z. Qed.

Lemma arm_untouched (p : Conn) : untouched (count_run p) (arm p).
Proof.
  unfold arm. destruct (proxyHeaderTimeout p =? 0)%Z; [apply untouched_refl|].
  unfold set_conn. apply untouched_set_reader.
  apply (conn_SetReadDeadline_same _ (conn p)).
Qed.

Lemma disarm_outcome (t : Z) (p : Conn) : outcome (disarm t p) = outcome p.
Proof. unfold disarm. now destruct (t =? 0)%Z. Qed.

Lemma disarm_untouched (t : Z) (p : Conn) : untouched p (disarm t p).
Proof.
  unfold disarm. destruct (t =? 0)%Z; [apply untouched_refl|].
  unfold set_conn. apply untouched_set_reader, conn_SetReadDeadline_same.
Qed.

Lemma disarm_closed (t : Z) (p : Conn) :
  closed (conn (disarm t p)) = closed (conn p).
Proof.
  unfold disarm. destruct (t =? 0)%Z; [reflexivity|].
  apply conn_SetReadDeadline_closed.
Qed.

Lemma disarm_bufReader (t : Z) (p : Conn) : bufReader (disarm t p) = bufReader p.
Proof. unfold disarm. now destruct (t =? 0)%Z. Qed.

Lemma disarm_incoming (t : Z) (p : Conn) :
  incoming (conn (disarm t p)) = incoming (conn p).
Proof.
  unfold disarm. destruct (t =? 0)%Z; [reflexivity|].
  apply conn_SetReadDeadline_incoming.
Qed.

Lemma disarm_readable (t : Z) (p : Conn) (s : list byte) (tl : list event) :
  readable p s tl -> readable (disarm t p) s tl.
Proof.
  unfold readable, pending.
  rewrite disarm_closed, disarm_bufReader, disarm_incoming. tauto.
Qed.

Lemma nextErr_errOf (evs : list event) : nextErr evs = errOf (afterLead evs).
Proof. reflexivity. Qed.

Lemma set_reader_readable (p : Conn) (r' : Reader) (evs' : list event)
    (s : list byte) (tl : list event) :
  closed (conn p) = false -> rerr r' = None ->
  buf r' ++ lead evs' = s -> afterLead evs' = tl ->
  readable (set_reader r' (set_incoming evs' (conn p)) p) s tl.
Proof. intros. now repeat split. Qed.

(** The stream departs from the prefix: nothing is consumed, the mismatch
    is stored, nil is returned. *)
Lemma checkPrefix_differs (p : Conn) (s : list byte) (tl : list event) :
  readable p s tl -> agree prefix s = Differs ->
  exists p',
    checkPrefix p = (None, p') /\ readable p' s tl /\
    outcome p' = (srcAddr p, dstAddr p, Some errMismatch, useConnAddr p).
Proof.
  intros Hr Hagree. apply arm_readable in Hr.
  destruct Hr as (Hopen & Herr & Hs & Htl).
  pose proof (@scanPrefix_spec prefixLen 0 (arm p) eq_refl Hopen Herr eq_refl
                ltac:(cbn; lia)) as H.
  cbv zeta in H. rewrite Hs in H. cbn [skipn] in H. rewrite Hagree in H.
  destruct H as (r' & evs' & Hrun & Herr' & Hpend & Hafter).
  rewrite checkPrefix_arm. unfold checkPrefixBody. rewrite Hrun.
  eexists. split; [reflexivity|]. split.
  - apply disarm_readable.
    split; [exact Hopen|split; [exact Herr'|split]].
    + exact Hpend.
    + exact (eq_trans Hafter Htl).
  - rewrite disarm_outcome. unfold outcome. cbn.
    pose proof (arm_outcome p) as Ho. unfold outcome in Ho.
    now injection Ho as -> -> _ ->.
Qed.

(** The stream stops inside the prefix: the bytes seen stay in the buffer,
    the error of the failed read is stored; it is returned unless it is a
    timeout. *)
Lemma checkPrefix_short (p : Conn) (s : list byte) (tl : list event) :
  readable p s tl -> agree prefix s = Short ->
  let e := errOf tl in
  exists p',
    checkPrefix p = (if is_net_timeout e then None else Some e, p') /\
    readable p' (s ++ lead (tail tl)) (afterLead (tail tl)) /\
    outcome p' = (srcAddr p, dstAddr p, Some (errPeek e), useConnAddr p).
Proof.
  intros Hr Hagree e. apply arm_readable in Hr.
  destruct Hr as (Hopen & Herr & Hs & Htl).
  pose proof (@scanPrefix_spec prefixLen 0 (arm p) eq_refl Hopen Herr eq_refl
                ltac:(cbn; lia)) as H.
  cbv zeta in H. rewrite Hs in H. cbn [skipn] in H. rewrite Hagree in H.
  rewrite nextErr_errOf, Htl in H. fold e in H.
  rewrite checkPrefix_arm. unfold checkPrefixBody. rewrite H.
  eexists. split; [reflexivity|]. split.
  - apply disarm_readable.
    assert (Hae : afterErr (incoming (conn (arm p))) = tail tl).
    { unfold afterErr. rewrite Htl. destruct tl as [|[b bs|e'] rest]; try reflexivity.
      exfalso. clear -Htl.
      induction (incoming (conn (arm p))) as [|[b' bs'|e''] l IH];
        cbn in Htl; try discriminate. auto. }
    rewrite Hae. repeat split; assumption.
  - rewrite disarm_outcome. unfold outcome. cbn.
    pose proof (arm_outcome p) as Ho. unfold outcome in Ho.
    now injection Ho as -> -> _ ->.
Qed.

(** The prefix is there and no newline comes before the read that fails:
    the connection is closed and the error returned. *)
Lemma checkPrefix_noline (p : Conn) (s : list byte) (tl : list event) :
  readable p s tl -> agree prefix s = Same ->
  IndexByte s "010"%char = None ->
  let e := errOf tl in
  exists p',
    checkPrefix p = (Some e, p') /\ closed (conn p') = true /\
    outcome p' = (srcAddr p, dstAddr p, Some (errLine e), useConnAddr p).
Proof.
  intros Hr Hagree Hnl e. apply arm_readable in Hr.
  destruct Hr as (Hopen & Herr & Hs & Htl).
  pose proof (@scanPrefix_spec prefixLen 0 (arm p) eq_refl Hopen Herr eq_refl
                ltac:(cbn; lia)) as H.
  cbv zeta in H. rewrite Hs in H. cbn [skipn] in H. rewrite Hagree in H.
  destruct H as (r' & evs' & Hrun & Herr' & Hpend & Hafter).
  rewrite checkPrefix_arm. unfold checkPrefixBody. rewrite Hrun.
  cbn [bufReader conn set_reader].
  rewrite ReadString_missing; [| exact Hopen | exact Herr' | ].
  2:{ unfold pending. cbn [incoming set_incoming]. now rewrite Hpend. }
  cbn [incoming set_incoming].
  rewrite nextErr_errOf, Hafter, Htl. fold e.
  eexists. split; [reflexivity|]. split.
  - rewrite disarm_closed. unfold close_conn. cbn [conn set_conn set_reader].
    apply conn_Close_closed.
  - rewrite disarm_outcome. unfold outcome. cbn.
    pose proof (arm_outcome p) as Ho. unfold outcome in Ho.
    now injection Ho as -> -> _ ->.
Qed.

(** The prefix is there and the line ends at position [i]: the line is
    consumed and handed to the header parser. *)
Lemma checkPrefix_line (p : Conn) (s : list byte) (tl : list event) (i : nat) :
  readable p s tl -> agree prefix s = Same ->
  IndexByte s "010"%char = Some i ->
  exists q,
    checkPrefix p =
      (let '(ret, q') := parseHeader (firstn (S i) s) q in
       (ret, disarm (proxyHeaderTimeout p) q')) /\
    readable q (skipn (S i) s) tl /\ outcome q = outcome p /\
    untouched (count_run p) q.
Proof.
  intros Hr Hagree Hnl. apply arm_readable in Hr.
  destruct Hr as (Hopen & Herr & Hs & Htl).
  pose proof (@scanPrefix_spec prefixLen 0 (arm p) eq_refl Hopen Herr eq_refl
                ltac:(cbn; lia)) as H.
  cbv zeta in H. rewrite Hs in H. cbn [skipn] in H. rewrite Hagree in H.
  destruct H as (r' & evs' & Hrun & Herr' & Hpend & Hafter).
  rewrite checkPrefix_arm. unfold checkPrefixBody. rewrite Hrun.
  cbn [bufReader conn set_reader].
  destruct (@ReadString_found "010"%char r' (set_incoming evs' (conn (arm p))) i)
    as (r2 & evs2 & Hrs & Herr2 & Hpend2 & Hafter2).
  { exact Hopen. }
  { exact Herr'. }
  { unfold pending. cbn [incoming set_incoming]. now rewrite Hpend. }
  rewrite Hrs. unfold pending. cbn [incoming set_incoming]. rewrite Hpend.
  rewrite set_incoming_twice.
  exists (set_reader r2 (set_incoming evs2 (conn (arm p))) (arm p)).
  split; [|split; [|split]].
  - match goal with
    | |- (let '(_, _) := parseHeader _ ?q1 in _) = (let '(_, _) := parseHeader _ ?q2 in _) =>
        change q1 with q2
    end.
    reflexivity.
  - unfold pending in Hpend2. cbn [incoming set_incoming] in Hpend2, Hafter2.
    rewrite Hpend in Hpend2.
    split; [exact Hopen|split; [exact Herr2|split]].
    + exact Hpend2.
    + exact (eq_trans Hafter2 (eq_trans Hafter Htl)).
  - exact (arm_outcome p).
  - eapply untouched_trans; [apply arm_untouched|].
    apply untouched_set_reader. now repeat split.
Qed.

(** ** The accessors *)

Lemma Read_fresh (n : nat) (p : Conn) :
  once p = false ->
  Read n p =
  let '(e, q) := checkPrefix p in
  match e with
  | Some e => (([], Some e), set_once true q)
  | None =>
      let '(res, (r, c)) := Reader_Read n (bufReader q) (conn q) in
      (res, set_reader r c (set_once true q))
  end.
Proof.
  intros H. unfold Read. rewrite H. destruct (checkPrefix p) as [[e|] q]; reflexivity.
Qed.

Lemma Close_close_conn (p : Conn) : snd (Close p) = close_conn p.
Proof. unfold Close, close_conn. now destruct (conn_Close (conn p)). Qed.

Lemma checkPrefixOnce_fresh (p : Conn) :
  once p = false ->
  checkPrefixOnce p =
  let '(err, q) := checkPrefix p in set_once true (recover err q).
Proof.
  intros H. unfold checkPrefixOnce, recover. rewrite H.
  destruct (checkPrefix p) as [[e|] q]; [|reflexivity].
  destruct (negb (is_EOF e)); [|reflexivity].
  cbv zeta. now rewrite Close_close_conn.
Qed.

Lemma checkPrefixOnce_settled (p : Conn) : once p = true -> checkPrefixOnce p = p.
Proof. intros H. unfold checkPrefixOnce. now rewrite H. Qed.

Lemma recover_outcome (err : option error) (q : Conn) :
  outcome (recover err q) = outcome q.
Proof.
  unfold recover. destruct err as [e|]; [|reflexivity].
  now destruct (negb (is_EOF e)).
Qed.

Lemma recover_parseRuns (err : option error) (q : Conn) :
  parseRuns (recover err q) = parseRuns q.
Proof.
  unfold recover. destruct err as [e|]; [|reflexivity].
  now destruct (negb (is_EOF e)).
Qed.

Lemma recover_sameConn (err : option error) (q : Conn) :
  sameConn (conn q) (conn (recover err q)).
Proof.
  unfold recover. destruct err as [e|]; [|apply sameConn_refl].
  destruct (negb (is_EOF e)); [|apply sameConn_refl].
  cbn [conn set_reader close_conn set_conn log_Printf]. apply conn_Close_same.
Qed.

(** A call on a connection whose header is dealt with does not run the
    parser and keeps what it stored. *)
Lemma after_settled (o : call) (p : Conn) :
  once p = true ->
  once (after o p) = true /\ parseRuns (after o p) = parseRuns p /\
  outcome (after o p) = outcome p /\ sameConn (conn p) (conn (after o p)).
Proof.
  intros H. destruct o as [n| | |]; unfold after.
  - rewrite Read_settled by assumption.
    pose proof (Reader_Read_same n (bufReader p) (conn p)) as Hs.
    destruct (Reader_Read n (bufReader p) (conn p)) as [res [r c]].
    cbn [snd] in *. repeat split; try assumption; apply Hs.
  - unfold LocalAddr. rewrite checkPrefixOnce_settled by assumption.
    destruct (dstAddr p); [destruct (negb (useConnAddr p))|];
      cbn [snd]; repeat split; assumption.
  - unfold RemoteAddr. rewrite checkPrefixOnce_settled by assumption.
    destruct (srcAddr p); [destruct (negb (useConnAddr p))|];
      cbn [snd]; repeat split; assumption.
  - unfold ProxySourceAddr. rewrite checkPrefixOnce_settled by assumption.
    destruct (srcAddr p); cbn [snd]; repeat split; assumption.
Qed.

Lemma checkPrefixOnce_fresh_facts (p : Conn) :
  once p = false ->
  let q := snd (checkPrefix p) in
  once (checkPrefixOnce p) = true /\
  parseRuns (checkPrefixOnce p) = parseRuns q /\
  outcome (checkPrefixOnce p) = outcome q /\
  sameConn (conn q) (conn (checkPrefixOnce p)).
Proof.
  intros H q. rewrite checkPrefixOnce_fresh by assumption. subst q.
  destruct (checkPrefix p) as [err q]. cbn [snd].
  repeat split.
  - exact (recover_parseRuns err q).
  - exact (recover_outcome err q).
  - apply (recover_sameConn err q).
  - apply (recover_sameConn err q).
  - apply (recover_sameConn err q).
Qed.

(** The first call runs the parser; what it leaves is what the parser
    stored, whichever call it was. *)
Lemma after_fresh (o : call) (p : Conn) :
  once p = false ->
  let q := snd (checkPrefix p) in
  once (after o p) = true /\ parseRuns (after o p) = parseRuns q /\
  outcome (after o p) = outcome q /\ sameConn (conn q) (conn (after o p)).
Proof.
  intros H q. destruct o as [n| | |]; unfold after.
  - rewrite Read_fresh by assumption. subst q.
    destruct (checkPrefix p) as [[e|] q]; cbn [snd].
    + repeat split.
    + pose proof (Reader_Read_same n (bufReader q) (conn q)) as Hs.
      destruct (Reader_Read n (bufReader q) (conn q)) as [res [r c]].
      cbn [snd] in *. repeat split; apply Hs.
  - pose proof (checkPrefixOnce_fresh_facts p H) as Hf. unfold LocalAddr.
    destruct (dstAddr _); [destruct (negb _)|]; exact Hf.
  - pose proof (checkPrefixOnce_fresh_facts p H) as Hf. unfold RemoteAddr.
    destruct (srcAddr _); [destruct (negb _)|]; exact Hf.
  - pose proof (checkPrefixOnce_fresh_facts p H) as Hf. unfold ProxySourceAddr.
    destruct (srcAddr _); exact Hf.
Qed.

Lemma afterAll_settled (os : list call) : forall (p : Conn),
  once p = true ->
  once (afterAll os p) = true /\ parseRuns (afterAll os p) = parseRuns p /\
  outcome (afterAll os p) = outcome p /\ sameConn (conn p) (conn (afterAll os p)).
Proof.
  induction os as [|o os IH]; intros p H.
  - repeat split. assumption.
  - destruct (@after_settled o p H) as (H1 & H2 & H3 & H4).
    destruct (IH (after o p) H1) as (K1 & K2 & K3 & K4).
    change (afterAll (o :: os) p) with (afterAll os (after o p)).
    repeat split; try congruence; eapply sameConn_trans; eassumption.
Qed.

(** The values of the address accessors on a connection whose header is
    dealt with. *)
Lemma RemoteAddr_settled (p : Conn) :
  once p = true ->
  fst (RemoteAddr p) =
  match srcAddr p with
  | Some a => if negb (useConnAddr p) then AddrTCP a else connRemote (conn p)
  | None => connRemote (conn p)
  end.
Proof.
  intros H. unfold RemoteAddr. rewrite checkPrefixOnce_settled by assumption.
  destruct (srcAddr p); [destruct (negb _)|]; reflexivity.
Qed.

Lemma LocalAddr_settled (p : Conn) :
  once p = true ->
  fst (LocalAddr p) =
  match dstAddr p with
  | Some a => if negb (useConnAddr p) then AddrTCP a else connLocal (conn p)
  | None => connLocal (conn p)
  end.
Proof.
  intros H. unfold LocalAddr. rewrite checkPrefixOnce_settled by assumption.
  destruct (dstAddr p); [destruct (negb _)|]; reflexivity.
Qed.

Lemma ProxySourceAddr_settled (p : Conn) :
  once p = true ->
  fst (ProxySourceAddr p) = (option_map AddrTCP (srcAddr p), proxyErr p).
Proof.
  intros H. unfold ProxySourceAddr. rewrite checkPrefixOnce_settled by assumption.
  destruct (srcAddr p); reflexivity.
Qed.

Lemma outcome_fields (p q : Conn) :
  outcome p = outcome q ->
  srcAddr p = srcAddr q /\ dstAddr p = dstAddr q /\
  proxyErr p = proxyErr q /\ useConnAddr p = useConnAddr q.
Proof. unfold outcome. intros H. now injection H. Qed.

Lemma checkPrefix_wrapped_conn (c : NetConn) (t : Z) (use unk : bool) :
  let q := snd (checkPrefix (wrapped c t use unk)) in
  parseRuns q = 1 /\ connLocal (conn q) = connLocal c /\
  connRemote (conn q) = connRemote c.
Proof.
  destruct (checkPrefix_untouched (wrapped c t use unk)) as (_ & _ & _ & _ & Hr & Hs).
  destruct Hs as (Hl & Hrem & _). repeat split; assumption.
Qed.

(** C9: [Write] hands the bytes to the underlying connection's [Write] and
    returns its result; it does not start the header parser and leaves the
    latch, the stored addresses, error and flag, the buffered reader and the
    unread input as they were. *)
Theorem Write_leaves_parsing_alone (b : list byte) (p : Conn) :
  fst (Write b p) = fst (conn_Write b (conn p)) /\
  conn (snd (Write b p)) = snd (conn_Write b (conn p)) /\
  once (snd (Write b p)) = once p /\
  parseRuns (snd (Write b p)) = parseRuns p /\
  outcome (snd (Write b p)) = outcome p /\
  bufReader (snd (Write b p)) = bufReader p /\
  incoming (conn (snd (Write b p))) = incoming (conn p) /\
  readDeadline (conn (snd (Write b p))) = readDeadline (conn p) /\
  closed (conn (snd (Write b p))) = closed (conn p).
Proof.
  unfold Write.
  destruct (conn_Write b (conn p)) as [res c'] eqn:E. cbn [fst snd conn set_conn set_reader].
  unfold conn_Write in E.
  destruct (closed (conn p)) eqn:Ec; injection E as <- <-;
    repeat split; try assumption.
Qed.

(** ** Comparing a stream with the prefix *)

Lemma agree_same_app (pfx t : list byte) : agree pfx (pfx ++ t) = Same.
Proof.
  induction pfx as [|a pfx IH]; [reflexivity|].
  cbn [agree app]. now rewrite Ascii.eqb_refl.
Qed.

Lemma agree_same_inv (pfx : list byte) : forall s : list byte,
  agree pfx s = Same -> exists t, s = pfx ++ t.
Proof.
  induction pfx as [|a pfx IH]; intros s H.
  - now exists s.
  - destruct s as [|b s]; [discriminate|]. cbn [agree] in H.
    destruct (Ascii.eqb a b) eqn:E; [|discriminate].
    apply Ascii.eqb_eq in E. subst b.
    destruct (IH s H) as [t ->]. now exists t.
Qed.

Lemma agree_differs (pfx : list byte) : forall (s : list byte) (i : nat) (x : byte),
  i < length pfx -> firstn i s = firstn i pfx ->
  nth_error s i = Some x -> nth_error pfx i <> Some x ->
  agree pfx s = Differs.
Proof.
  induction pfx as [|a pfx IH]; intros s i x Hi Hpre Hx Hne; [cbn in Hi; lia|].
  destruct s as [|b s]; [now destruct i|].
  destruct i as [|i].
  - cbn in Hx, Hne. injection Hx as ->. cbn [agree].
    destruct (Ascii.eqb a x) eqn:E; [|reflexivity].
    apply Ascii.eqb_eq in E. congruence.
  - cbn in Hpre, Hx, Hne, Hi. injection Hpre as -> Hpre.
    cbn [agree]. rewrite Ascii.eqb_refl.
    apply (IH s i x); [lia | assumption..].
Qed.

Lemma agree_short (pfx : list byte) : forall s : list byte,
  length s < length pfx -> s = firstn (length s) pfx -> agree pfx s = Short.
Proof.
  induction pfx as [|a pfx IH]; intros s Hlen Hs; [cbn in Hlen; lia|].
  destruct s as [|b s]; [reflexivity|].
  cbn in Hs, Hlen. injection Hs as -> Hs.
  cbn [agree]. rewrite Ascii.eqb_refl. apply IH; [lia | assumption].
Qed.

(** ** A wrapped connection before and after the first call *)

Lemma wrapped_readable (c : NetConn) (t : Z) (use unk : bool) :
  closed c = false ->
  readable (wrapped c t use unk) (lead (incoming c)) (afterLead (incoming c)).
Proof. intros H. now repeat split. Qed.

Lemma checkPrefix_wrapped_addrs (c : NetConn) (t : Z) (use unk : bool)
    (ret : option error) (q : Conn) :
  checkPrefix (wrapped c t use unk) = (ret, q) ->
  connLocal (conn q) = connLocal c /\ connRemote (conn q) = connRemote c /\
  unknownOK q = unk /\ once q = false.
Proof.
  intros H.
  destruct (checkPrefix_untouched (wrapped c t use unk)) as (Ho & _ & Hu & _ & _ & Hs).
  rewrite H in Ho, Hu, Hs. cbn [snd] in Ho, Hu, Hs.
  destruct Hs as (Hl & Hr & _). repeat split; assumption.
Qed.

Lemma Read_after_parse (n : nat) (p q : Conn) :
  once p = false -> checkPrefix p = (None, q) ->
  Read n p = Read n (set_once true q).
Proof.
  intros Hp Hq. rewrite Read_fresh by assumption. rewrite Hq.
  rewrite Read_settled by reflexivity. reflexivity.
Qed.

Lemma checkPrefixOnce_after_parse (p q : Conn) :
  once p = false -> checkPrefix p = (None, q) ->
  checkPrefixOnce p = set_once true q.
Proof.
  intros Hp Hq. rewrite checkPrefixOnce_fresh by assumption. now rewrite Hq.
Qed.

(** When the parser returns nil and leaves the connection holding [s],
    reading to the first failure returns [s], whether the first [Read] or an
    earlier accessor ran the parser. *)
Lemma drain_after_parse (n fuel : nat) (p q : Conn) (s : list byte) (tl : list event) :
  0 < n -> once p = false -> checkPrefix p = (None, q) ->
  readable q s tl -> length s < fuel ->
  fst (drain fuel n p) = (s, Some (errOf tl)) /\
  fst (drain fuel n (checkPrefixOnce p)) = (s, Some (errOf tl)).
Proof.
  intros Hn Hp Hq (Hopen & Herr & Hs & Htl) Hlen.
  assert (Hd : fst (drain fuel n (set_once true q)) = (s, Some (errOf tl))).
  { rewrite drain_settled; try assumption; try reflexivity.
    - cbn [fst]. change (bufReader (set_once true q)) with (bufReader q).
      change (conn (set_once true q)) with (conn q).
      now rewrite Hs, nextErr_errOf, Htl.
    - change (bufReader (set_once true q)) with (bufReader q).
      change (conn (set_once true q)) with (conn q). now rewrite Hs. }
  split.
  - destruct fuel as [|f]; [lia|].
    unfold drain in *. cbn [readLoop] in *.
    now rewrite (@Read_after_parse n p q Hp Hq).
  - now rewrite (@checkPrefixOnce_after_parse p q Hp Hq).
Qed.

(** C3: when the stream departs from the signature at some position, the
    parser returns nil with the mismatch stored and no address, the
    connection still holds every byte of the stream, [RemoteAddr] and
    [LocalAddr] answer with the underlying connection's addresses, and the
    [Read] calls return the stream from its first byte, whether or not an
    address was asked for first. *)
Theorem no_signature_passes_through
    (c : NetConn) (t : Z) (use unk : bool) (i : nat) (x : byte) :
  closed c = false ->
  i < prefixLen ->
  firstn i (lead (incoming c)) = firstn i prefix ->
  nth_error (lead (incoming c)) i = Some x ->
  nth_error prefix i <> Some x ->
  let p := wrapped c t use unk in
  let s := lead (incoming c) in
  (exists q, checkPrefix p = (None, q) /\
             readable q s (afterLead (incoming c)) /\
             outcome q = (None, None, Some errMismatch, use)) /\
  fst (RemoteAddr p) = connRemote c /\
  fst (LocalAddr p) = connLocal c /\
  (forall n fuel, 0 < n -> length s < fuel ->
     fst (drain fuel n p) = (s, Some (nextErr (incoming c))) /\
     fst (drain fuel n (snd (RemoteAddr p))) = (s, Some (nextErr (incoming c))) /\
     fst (drain fuel n (snd (LocalAddr p))) = (s, Some (nextErr (incoming c)))).
Proof.
  intros Hopen Hi Hpre Hx Hne p s.
  assert (Hagree : agree prefix s = Differs) by (eapply agree_differs; eassumption).
  destruct (@checkPrefix_differs p s (afterLead (incoming c))
              (@wrapped_readable c t use unk Hopen) Hagree) as (q & Hq & Hr & Ho).
  destruct (@checkPrefix_wrapped_addrs c t use unk None q Hq) as (Hl & Hrem & _ & _).
  destruct (@outcome_fields q (set_proxyErr (Some errMismatch) p) Ho)
    as (Es & Ed & _ & _).
  cbn in Es, Ed.
  assert (Hcpo : checkPrefixOnce p = set_once true q)
    by now apply checkPrefixOnce_after_parse.
  split; [exists q; repeat split; try apply Hr; assumption|].
  split; [unfold RemoteAddr; rewrite Hcpo; cbn [srcAddr set_once];
          rewrite Es; exact Hrem|].
  split; [unfold LocalAddr; rewrite Hcpo; cbn [dstAddr set_once];
          rewrite Ed; exact Hl|].
  intros n fuel Hn Hlen.
  destruct (@drain_after_parse n fuel p q s (afterLead (incoming c)) Hn eq_refl Hq Hr Hlen) as (D1 & D2).
  rewrite nextErr_errOf.
  split; [exact D1|]. rewrite Hcpo in D2.
  split.
  - unfold RemoteAddr. rewrite Hcpo. cbn [srcAddr set_once]. rewrite Es. exact D2.
  - unfold LocalAddr. rewrite Hcpo. cbn [dstAddr set_once]. rewrite Ed. exact D2.
Qed.

Lemma no_signature_passes_through_witness :
  let c := exampleConn (segment (str "GET / HTTP/1.1")) in
  fst (RemoteAddr (wrapped c 0 false false)) = connRemote c.
Proof.
  intros c.
  refine (proj1 (proj2
    (@no_signature_passes_through c 0 false false 0 "G"%char _ _ _ _ _))).
  - reflexivity.
  - apply Nat.ltb_lt. reflexivity.
  - reflexivity.
  - reflexivity.
  - discriminate.
Defined.

(** ** The accessors as the first call *)

Lemma LocalAddr_state (p : Conn) : snd (LocalAddr p) = checkPrefixOnce p.
Proof.
  unfold LocalAddr.
  destruct (dstAddr (checkPrefixOnce p));
    [destruct (negb (useConnAddr (checkPrefixOnce p)))|]; reflexivity.
Qed.

Lemma RemoteAddr_state (p : Conn) : snd (RemoteAddr p) = checkPrefixOnce p.
Proof.
  unfold RemoteAddr.
  destruct (srcAddr (checkPrefixOnce p));
    [destruct (negb (useConnAddr (checkPrefixOnce p)))|]; reflexivity.
Qed.

Lemma ProxySourceAddr_state (p : Conn) :
  snd (ProxySourceAddr p) = checkPrefixOnce p.
Proof.
  unfold ProxySourceAddr. destruct (srcAddr (checkPrefixOnce p)); reflexivity.
Qed.

Lemma ProxySourceAddr_fresh (p : Conn) :
  once p = false ->
  let q := snd (checkPrefix p) in
  fst (ProxySourceAddr p) = (option_map AddrTCP (srcAddr q), proxyErr q).
Proof.
  intros H q.
  destruct (@checkPrefixOnce_fresh_facts p H) as (_ & _ & Ho & _). fold q in Ho.
  destruct (@outcome_fields (checkPrefixOnce p) q Ho) as (Es & _ & Ee & _).
  unfold ProxySourceAddr. rewrite Ee, Es. now destruct (srcAddr q).
Qed.

Lemma RemoteAddr_fresh (p : Conn) :
  once p = false ->
  let q := snd (checkPrefix p) in
  fst (RemoteAddr p) =
  match srcAddr q with
  | Some a => if negb (useConnAddr q) then AddrTCP a else connRemote (conn p)
  | None => connRemote (conn p)
  end.
Proof.
  intros H q.
  destruct (@checkPrefixOnce_fresh_facts p H) as (_ & _ & Ho & (_ & Hr & _)).
  fold q in Ho, Hr.
  destruct (@outcome_fields (checkPrefixOnce p) q Ho) as (Es & _ & _ & Eu).
  destruct (checkPrefix_untouched p) as (_ & _ & _ & _ & _ & (_ & Hr' & _)).
  fold q in Hr'. change (conn (count_run p)) with (conn p) in Hr'.
  unfold RemoteAddr. rewrite Es, Eu, Hr, Hr'.
  destruct (srcAddr q); [destruct (negb _)|]; reflexivity.
Qed.

Lemma LocalAddr_fresh (p : Conn) :
  once p = false ->
  let q := snd (checkPrefix p) in
  fst (LocalAddr p) =
  match dstAddr q with
  | Some a => if negb (useConnAddr q) then AddrTCP a else connLocal (conn p)
  | None => connLocal (conn p)
  end.
Proof.
  intros H q.
  destruct (@checkPrefixOnce_fresh_facts p H) as (_ & _ & Ho & (Hl & _ & _)).
  fold q in Ho, Hl.
  destruct (@outcome_fields (checkPrefixOnce p) q Ho) as (_ & Ed & _ & Eu).
  destruct (checkPrefix_untouched p) as (_ & _ & _ & _ & _ & (Hl' & _ & _)).
  fold q in Hl'. change (conn (count_run p)) with (conn p) in Hl'.
  unfold LocalAddr. rewrite Ed, Eu, Hl, Hl'.
  destruct (dstAddr q); [destruct (negb _)|]; reflexivity.
Qed.

Lemma Read_fresh_error (n : nat) (p q : Conn) (e : error) :
  once p = false -> checkPrefix p = (Some e, q) ->
  Read n p = (([], Some e), set_once true q).
Proof. intros Hp Hq. rewrite Read_fresh by assumption. now rewrite Hq. Qed.

Lemma firstn_prefix_agree (s : list byte) :
  firstn prefixLen s = prefix -> agree prefix s = Same.
Proof.
  intros H. rewrite <- (firstn_skipn prefixLen s), H. apply agree_same_app.
Qed.

(** C7: a read that times out while the bytes of the signature are still
    arriving makes the parser return nil: the connection stays open, the
    bytes seen and all that follow are handed to the later [Read] calls and
    the addresses are the underlying connection's.  A read that times out
    once the whole signature is there, before the end of the line, makes
    the parser close the connection and return the timeout: the [Read] that
    ran the parser returns it, and the stored error is what
    [ProxySourceAddr] reports from then on.  Both hold whatever the
    configured header timeout. *)
Theorem header_timeout_duality
    (c : NetConn) (t : Z) (use unk : bool) (e : error) (rest : list event) :
  closed c = false ->
  afterLead (incoming c) = Fault e :: rest ->
  is_net_timeout e = true ->
  let p := wrapped c t use unk in
  let s := lead (incoming c) in
  (length s < prefixLen -> s = firstn (length s) prefix ->
   exists q,
     checkPrefix p = (None, q) /\
     readable q (s ++ lead rest) (afterLead rest) /\
     outcome q = (None, None, Some (errPeek e), use) /\
     fst (RemoteAddr p) = connRemote c /\
     fst (LocalAddr p) = connLocal c /\
     forall n fuel, 0 < n -> length (s ++ lead rest) < fuel ->
       fst (drain fuel n p) = (s ++ lead rest, Some (nextErr rest)))
  /\
  (firstn prefixLen s = prefix -> ~ In "010"%char s ->
   exists q,
     checkPrefix p = (Some e, q) /\
     closed (conn q) = true /\
     outcome q = (None, None, Some (errLine e), use) /\
     (forall n, fst (Read n p) = ([], Some e)) /\
     fst (ProxySourceAddr p) = (None, Some (errLine e)) /\
     (forall n, fst (ProxySourceAddr (snd (Read n p))) = (None, Some (errLine e))) /\
     (forall o, closed (conn (after o p)) = true)).
Proof.
  intros Hopen Htl Hto p s.
  pose proof (@wrapped_readable c t use unk Hopen) as Hr. fold p s in Hr.
  rewrite Htl in Hr.
  split.
  - intros Hlen Hs.
    assert (Hagree : agree prefix s = Short) by now apply agree_short.
    destruct (@checkPrefix_short p s (Fault e :: rest) Hr Hagree)
      as (q & Hq & Hrq & Ho).
    cbn [errOf tl] in Hq, Hrq, Ho. rewrite Hto in Hq.
    exists q. split; [exact Hq|]. split; [exact Hrq|]. split; [exact Ho|].
    destruct (@outcome_fields q (set_proxyErr (Some (errPeek e)) p) Ho)
      as (Es & Ed & _ & _).
    cbn in Es, Ed.
    split; [|split].
    + rewrite RemoteAddr_fresh by reflexivity. rewrite Hq. cbn [snd].
      now rewrite Es.
    + rewrite LocalAddr_fresh by reflexivity. rewrite Hq. cbn [snd].
      now rewrite Ed.
    + intros n fuel Hn Hfuel.
      apply (@drain_after_parse n fuel p q (s ++ lead rest) (afterLead rest)
               Hn eq_refl Hq Hrq Hfuel).
  - intros Hpre Hnl.
    assert (Hagree : agree prefix s = Same) by now apply firstn_prefix_agree.
    assert (Hidx : IndexByte s "010"%char = None) by now apply IndexByte_None.
    destruct (@checkPrefix_noline p s (Fault e :: rest) Hr Hagree Hidx)
      as (q & Hq & Hcl & Ho).
    cbn [errOf] in Hq, Ho.
    exists q. split; [exact Hq|]. split; [exact Hcl|]. split; [exact Ho|].
    destruct (@outcome_fields q (set_proxyErr (Some (errLine e)) p) Ho)
      as (Es & _ & Ee & _).
    cbn in Es, Ee.
    split; [|split; [|split]].
    + intros n. now rewrite (@Read_fresh_error n p q e eq_refl Hq).
    + rewrite ProxySourceAddr_fresh by reflexivity. rewrite Hq. cbn [snd].
      now rewrite Es, Ee.
    + intros n. rewrite (@Read_fresh_error n p q e eq_refl Hq). cbn [snd].
      rewrite ProxySourceAddr_settled by reflexivity.
      cbn [srcAddr proxyErr set_once]. now rewrite Es, Ee.
    + intros o.
      assert (Hrec : closed (conn (recover (Some e) q)) = true).
      { unfold recover. destruct (negb (is_EOF e)); [|exact Hcl].
        cbn [conn set_reader close_conn set_conn log_Printf].
        apply conn_Close_closed. }
      destruct o as [n| | |]; unfold after.
      * now rewrite (@Read_fresh_error n p q e eq_refl Hq).
      * rewrite LocalAddr_state, checkPrefixOnce_fresh by reflexivity.
        rewrite Hq. exact Hrec.
      * rewrite RemoteAddr_state, checkPrefixOnce_fresh by reflexivity.
        rewrite Hq. exact Hrec.
      * rewrite ProxySourceAddr_state, checkPrefixOnce_fresh by reflexivity.
        rewrite Hq. exact Hrec.
Qed.

Lemma header_timeout_duality_witness :
  let c := exampleConn (segment (str "PRO") ++ [Fault errTimeout]
                          ++ segment (str "XY TCP4 1.2.3.4 5.6.7.8 80 443" ++ CRLF)) in
  fst (RemoteAddr (wrapped c 5 false false)) = connRemote c.
Proof.
  intros c.
  destruct (@header_timeout_duality c 5 false false errTimeout
              (segment (str "XY TCP4 1.2.3.4 5.6.7.8 80 443" ++ CRLF))
              eq_refl eq_refl eq_refl) as [H _].
  destruct H as (q & _ & _ & _ & Hr & _).
  - apply Nat.ltb_lt. reflexivity.
  - reflexivity.
  - exact Hr.
Defined.

(** ** [strings.Split] *)

Lemma Split_nonempty (s : gostring) (sep : byte) : Split s sep <> [].
Proof.
  destruct s as [|c s]; cbn [Split]; [discriminate|].
  destruct (Ascii.eqb c sep); [discriminate|].
  destruct (Split s sep); discriminate.
Qed.

Lemma Split_nosep (s : gostring) (sep : byte) :
  ~ In sep s -> Split s sep = [s].
Proof.
  induction s as [|c s IH]; intros H; [reflexivity|].
  cbn [Split]. destruct (Ascii.eqb c sep) eqn:E.
  - apply Ascii.eqb_eq in E. exfalso. apply H. now left.
  - rewrite IH; [reflexivity|]. intros Hin. apply H. now right.
Qed.

Lemma Split_app_sep (a b : gostring) (sep : byte) :
  ~ In sep a -> Split (a ++ sep :: b) sep = a :: Split b sep.
Proof.
  induction a as [|c a IH]; intros H.
  - cbn [app Split]. now rewrite Ascii.eqb_refl.
  - cbn [app Split]. destruct (Ascii.eqb c sep) eqn:E.
    + apply Ascii.eqb_eq in E. exfalso. apply H. now left.
    + rewrite IH; [reflexivity|]. intros Hin. apply H. now right.
Qed.

(** The first piece holds no separator; the string is the first piece
    alone, or the first piece, a separator and what the other pieces were
    split from. *)
Lemma Split_cons_inv (sep : byte) : forall (s a : gostring) (l : list gostring),
  Split s sep = a :: l ->
  ~ In sep a /\
  (l = [] -> s = a) /\
  (l <> [] -> exists s', s = a ++ sep :: s' /\ Split s' sep = l).
Proof.
  induction s as [|c s IH]; intros a l H.
  - cbn in H. injection H as <- <-.
    split; [tauto|]. split; [reflexivity|]. intros Hl. now exfalso.
  - cbn [Split] in H. destruct (Ascii.eqb c sep) eqn:E.
    + apply Ascii.eqb_eq in E. subst c. injection H as <- <-.
      split; [tauto|]. split.
      * intros Hl. exfalso. exact (Split_nonempty _ _ Hl).
      * intros _. now exists s.
    + apply Ascii.eqb_neq in E.
      destruct (Split s sep) as [|h t] eqn:Es; [now apply Split_nonempty in Es|].
      injection H as <- <-.
      destruct (IH h t eq_refl) as (Hnin & Hnil & Hcons).
      split; [|split].
      * intros [Hc|Hin]; [congruence | contradiction].
      * intros Hl. now rewrite (Hnil Hl).
      * intros Hl. destruct (Hcons Hl) as (s' & -> & Hs'). now exists s'.
Qed.

Lemma Split_two (sep : byte) (s a b : gostring) :
  Split s sep = [a; b] -> s = a ++ sep :: b /\ ~ In sep a.
Proof.
  intros H. destruct (@Split_cons_inv sep s a [b] H) as (Ha & _ & Hc).
  destruct Hc as (s' & -> & Hs'); [discriminate|].
  destruct (@Split_cons_inv sep s' b [] Hs') as (_ & Hb & _).
  now rewrite (Hb eq_refl).
Qed.

Lemma first_sep_unique (sep : byte) : forall (a b x y : list byte),
  a ++ sep :: x = b ++ sep :: y -> ~ In sep a -> ~ In sep b -> a = b /\ x = y.
Proof.
  induction a as [|c a IH]; intros b x y H Ha Hb.
  - destruct b as [|d b]; cbn in H.
    + injection H as ->. now split.
    + injection H as <- _. exfalso. apply Hb. now left.
  - destruct b as [|d b]; cbn in H.
    + injection H as -> _. exfalso. apply Ha. now left.
    + injection H as -> H.
      destruct (IH b x y H) as (-> & ->).
      * intros Hin. apply Ha. now right.
      * intros Hin. apply Hb. now right.
      * now split.
Qed.

(** ** The line of an accepted UNKNOWN header *)

Lemma stripEnd_firstn (s : list byte) (i : nat) :
  i < length s -> stripEnd (firstn (S i) s) = firstn (i - 1) s.
Proof.
  intros H. unfold stripEnd. rewrite length_firstn.
  replace (Nat.min (S i) (length s)) with (S i) by lia.
  rewrite firstn_firstn. f_equal. lia.
Qed.

Lemma parseHeader_unknown (x : byte) (q : Conn) :
  unknownOK q = true ->
  parseHeader (str "PROXY UNKNOWN" ++ [x; "010"%char]) q =
  (None, set_useConnAddr true q).
Proof.
  intros H. unfold parseHeader.
  change (stripEnd (str "PROXY UNKNOWN" ++ [x; "010"%char]))
    with (str "PROXY UNKNOWN").
  change (Split (str "PROXY UNKNOWN") " "%char) with [str "PROXY"; str "UNKNOWN"].
  change (length [str "PROXY"; str "UNKNOWN"] <? 2) with false.
  change (part [str "PROXY"; str "UNKNOWN"] 1) with (str "UNKNOWN").
  change (bytes_Equal (str "UNKNOWN") (str "UNKNOWN")) with true.
  rewrite H. reflexivity.
Qed.

(** The header parser leaves neither an address nor an error only on the
    branch that accepts UNKNOWN. *)
Lemma parseHeader_nil_nil (line : gostring) (q : Conn) :
  srcAddr (snd (parseHeader line q)) = None ->
  proxyErr (snd (parseHeader line q)) = None ->
  unknownOK q = true /\
  exists a, Split (stripEnd line) " "%char = [a; str "UNKNOWN"].
Proof.
  unfold parseHeader.
  set (parts := Split (stripEnd line) " "%char).
  destruct (length parts <? 2) eqn:E2; [discriminate 2|].
  destruct (bytes_Equal (part parts 1) (str "UNKNOWN")) eqn:Eu.
  - destruct (unknownOK q); [|discriminate 2].
    destruct (length parts =? 2) eqn:El; [|discriminate 2].
    intros _ _. split; [reflexivity|].
    apply Nat.eqb_eq in El. apply bytes_Equal_eq in Eu.
    destruct parts as [|a [|b [|? ?]]]; try discriminate.
    cbn in Eu. subst b. now exists a.
  - destruct (negb _); [discriminate 2|].
    destruct (negb _); [discriminate 2|].
    destruct (ParseIP (part parts 2)); [|discriminate 2].
    destruct (Atoi (part parts 4)); [|discriminate 2].
    destruct (ParseIP (part parts 3)); [|discriminate 2].
    destruct (Atoi (part parts 5)); [discriminate 1 | discriminate 2].
Qed.

Lemma unknown_line_stream (s : list byte) (i : nat) (a : gostring) :
  agree prefix s = Same ->
  IndexByte s "010"%char = Some i ->
  Split (stripEnd (firstn (S i) s)) " "%char = [a; str "UNKNOWN"] ->
  exists x rest,
    s = str "PROXY UNKNOWN" ++ x :: "010"%char :: rest /\ x <> "010"%char.
Proof.
  intros Hagree Hidx Hsplit.
  apply IndexByte_Some in Hidx as (Hi & Hnin & Hskip).
  rewrite stripEnd_firstn in Hsplit by assumption.
  apply Split_two in Hsplit as (Hh & Ha).
  apply agree_same_inv in Hagree as (t & Hs).
  (* the stripped line has the first thirteen bytes of the stream *)
  assert (Hlen : length (firstn (i - 1) s) = i - 1)
    by (rewrite length_firstn; lia).
  assert (Hi9 : 9 <= i).
  { apply (f_equal (@length byte)) in Hh. rewrite Hlen, length_app in Hh.
    cbn in Hh. lia. }
  assert (Hh' : firstn (i - 1) s = str "PROXY" ++ " "%char :: firstn (i - 7) t).
  { rewrite Hs. replace (i - 1) with (length prefix + (i - 7)) by (cbn; lia).
    rewrite firstn_app_exact. reflexivity. }
  rewrite Hh' in Hh.
  apply first_sep_unique in Hh as (Ha' & Ht); [| |exact Ha].
  2:{ cbn. intros H. repeat (destruct H as [H|H]; [discriminate|]). exact H. }
  assert (Hi14 : i = 14).
  { apply (f_equal (@length byte)) in Ht. rewrite length_firstn in Ht.
    assert (Hls : length s = 6 + length t) by (rewrite Hs, length_app; reflexivity).
    cbn in Ht. lia. }
  subst i. 
  assert (H13 : firstn 13 s = str "PROXY UNKNOWN").
  { change 13 with (14 - 1). rewrite Hh', Ht. reflexivity. }
  destruct (skipn 13 s) as [|x r] eqn:E13.
  { apply skipn_nil_length in E13. lia. }
  destruct (@skipn_cons_firstn byte 13 s r x E13) as (Hf14 & Hs14 & _).
  exists x, (skipn 15 s). split.
  - rewrite <- (firstn_skipn 13 s) at 1. rewrite H13, E13.
    rewrite <- Hs14, Hskip. reflexivity.
  - intros ->. apply Hnin. rewrite Hf14. apply in_or_app. right. now left.
Qed.

(** C10: on a stream that departs from the signature [ProxySourceAddr]
    returns no address and the stored mismatch error; on an accepted
    [PROXY UNKNOWN] line it returns no address and no error; and it returns
    no address and no error only there: the flag is set and the stream
    starts with that line. *)
Theorem ProxySourceAddr_nil_nil_iff_unknown
    (c : NetConn) (t : Z) (use unk : bool) :
  closed c = false ->
  let p := wrapped c t use unk in
  let s := lead (incoming c) in
  (forall i x, i < prefixLen -> firstn i s = firstn i prefix ->
     nth_error s i = Some x -> nth_error prefix i <> Some x ->
     fst (ProxySourceAddr p) = (None, Some errMismatch)) /\
  (forall x rest, unk = true -> x <> "010"%char ->
     s = str "PROXY UNKNOWN" ++ x :: "010"%char :: rest ->
     fst (ProxySourceAddr p) = (None, None)) /\
  (fst (ProxySourceAddr p) = (None, None) ->
   unk = true /\
   exists x rest,
     s = str "PROXY UNKNOWN" ++ x :: "010"%char :: rest /\ x <> "010"%char).
Proof.
  intros Hopen p s.
  pose proof (@wrapped_readable c t use unk Hopen) as Hr. fold p s in Hr.
  split; [|split].
  - intros i x Hi Hpre Hx Hne.
    assert (Hagree : agree prefix s = Differs) by (eapply agree_differs; eassumption).
    destruct (@checkPrefix_differs p s _ Hr Hagree) as (q & Hq & _ & Ho).
    rewrite ProxySourceAddr_fresh by reflexivity. rewrite Hq. cbn [snd].
    destruct (@outcome_fields q (set_proxyErr (Some errMismatch) p) Ho)
      as (Es & _ & Ee & _).
    cbn in Es, Ee. now rewrite Es, Ee.
  - intros x rest Hunk Hx Hs.
    assert (Hagree : agree prefix s = Same) by (rewrite Hs; reflexivity).
    assert (Hidx : IndexByte s "010"%char = Some 14).
    { rewrite Hs.
      rewrite (@IndexByte_app_r (str "PROXY UNKNOWN") (x :: "010"%char :: rest)
                 "010"%char eq_refl).
      cbn [IndexByte]. apply Ascii.eqb_neq in Hx. rewrite Hx. reflexivity. }
    destruct (@checkPrefix_line p s _ 14 Hr Hagree Hidx) as (q & Hq & _ & Ho & Hu).
    assert (Hline : firstn 15 s = str "PROXY UNKNOWN" ++ [x; "010"%char])
      by (rewrite Hs; reflexivity).
    rewrite Hline in Hq.
    assert (Hunk' : unknownOK q = true).
    { destruct Hu as (_ & _ & Hk & _). rewrite Hk. exact Hunk. }
    assert (Hq' : checkPrefix p =
                  (None, disarm (proxyHeaderTimeout p) (set_useConnAddr true q))).
    { exact (eq_trans Hq
               (f_equal (fun r : option error * Conn =>
                           let '(ret, q') := r in
                           (ret, disarm (proxyHeaderTimeout p) q'))
                        (@parseHeader_unknown x q Hunk'))). }
    rewrite ProxySourceAddr_fresh by reflexivity. rewrite Hq'. cbn [snd].
    destruct (@outcome_fields
                (disarm (proxyHeaderTimeout p) (set_useConnAddr true q))
                (set_useConnAddr true q) (disarm_outcome _ _))
      as (Es & _ & Ee & _).
    destruct (@outcome_fields q p Ho) as (Es' & _ & Ee' & _).
    rewrite Es, Ee. cbn [srcAddr proxyErr set_useConnAddr].
    now rewrite Es', Ee'.
  - intros Hnn. rewrite ProxySourceAddr_fresh in Hnn by reflexivity.
    injection Hnn as Hsrc Herr.
    assert (Hsrc' : srcAddr (snd (checkPrefix p)) = None)
      by (destruct (srcAddr (snd (checkPrefix p))); [discriminate | reflexivity]).
    clear Hsrc.
    destruct (agree prefix s) eqn:Hagree.
    + destruct (IndexByte s "010"%char) as [i|] eqn:Hidx.
      * destruct (@checkPrefix_line p s _ i Hr Hagree Hidx) as (q & Hq & _ & Ho & Hu).
        rewrite Hq in Hsrc', Herr.
        destruct (parseHeader (firstn (S i) s) q) as [ret q'] eqn:Eph.
        cbn [snd] in Hsrc', Herr.
        destruct (@outcome_fields (disarm (proxyHeaderTimeout p) q') q'
                    (disarm_outcome _ _)) as (Es & _ & Ee & _).
        rewrite Es in Hsrc'. rewrite Ee in Herr.
        destruct (@parseHeader_nil_nil (firstn (S i) s) q) as (Hunk & a & Hsplit).
        { now rewrite Eph. }
        { now rewrite Eph. }
        split.
        -- destruct Hu as (_ & _ & Hk & _). rewrite Hk in Hunk. exact Hunk.
        -- exact (@unknown_line_stream s i a Hagree Hidx Hsplit).
      * destruct (@checkPrefix_noline p s _ Hr Hagree Hidx) as (q & Hq & _ & Ho).
        rewrite Hq in Herr. cbn [snd] in Herr.
        unfold outcome in Ho. injection Ho as _ _ Ee _. congruence.
    + destruct (@checkPrefix_differs p s _ Hr Hagree) as (q & Hq & _ & Ho).
      rewrite Hq in Herr. cbn [snd] in Herr.
      destruct (@outcome_fields q (set_proxyErr (Some errMismatch) p) Ho)
        as (_ & _ & Ee & _).
      cbn in Ee. congruence.
    + destruct (@checkPrefix_short p s _ Hr Hagree) as (q & Hq & _ & Ho).
      rewrite Hq in Herr. cbn [snd] in Herr.
      unfold outcome in Ho. injection Ho as _ _ Ee _. congruence.
Qed.

Lemma ProxySourceAddr_nil_nil_iff_unknown_witness :
  let c := exampleConn (segment (str "PROXY UNKNOWN" ++ CRLF ++ str "hello")) in
  fst (ProxySourceAddr (wrapped c 0 false true)) = (None, None).
Proof.
  intros c.
  refine (proj1 (proj2 (@ProxySourceAddr_nil_nil_iff_unknown c 0 false true _))
            "013"%char (str "hello") _ _ _).
  - reflexivity.
  - reflexivity.
  - discriminate.
  - reflexivity.
Defined.

(** ** The branches of the header parser *)

Lemma fail_rejected (e : error) (q : Conn) : rejected (fail e q) e.
Proof.
  unfold rejected, fail. cbn [fst snd]. repeat split.
  unfold close_conn. cbn [conn set_proxyErr set_conn set_reader].
  apply conn_Close_closed.
Qed.

Lemma disarm_rejected (t : Z) (ret : option error) (q : Conn) (e : error) :
  rejected (ret, q) e -> rejected (ret, disarm t q) e.
Proof.
  unfold rejected. cbn [fst snd]. intros (H1 & H2 & H3).
  split; [exact H1|]. split.
  - destruct (@outcome_fields (disarm t q) q (disarm_outcome t q)) as (_ & _ & Ee & _).
    now rewrite Ee.
  - now rewrite disarm_closed.
Qed.

(** The checks of the header parser, one after the other, on the pieces
    [parts] of the stripped line. *)
Lemma parseHeader_few (line : gostring) (q : Conn) :
  length (Split (stripEnd line) " "%char) < 2 ->
  parseHeader line q =
  fail (fmt_Errorf (str "invalid header line: " ++ stripEnd line)) q.
Proof.
  intros H. unfold parseHeader.
  replace (length (Split (stripEnd line) " "%char) <? 2) with true
    by (symmetry; now apply Nat.ltb_lt).
  reflexivity.
Qed.

Lemma parseHeader_UNKNOWN (line : gostring) (q : Conn) :
  let parts := Split (stripEnd line) " "%char in
  2 <= length parts -> part parts 1 = str "UNKNOWN" ->
  parseHeader line q =
  if unknownOK q && (length parts =? 2)
  then (None, set_useConnAddr true q)
  else fail (fmt_Errorf (str "invalid UNKNOWN header line: " ++ stripEnd line)) q.
Proof.
  intros parts Hlen Hfam. unfold parseHeader. fold parts.
  replace (length parts <? 2) with false by (symmetry; apply Nat.ltb_ge; lia).
  rewrite Hfam, bytes_Equal_refl.
  destruct (unknownOK q); [|reflexivity].
  now destruct (length parts =? 2).
Qed.

Lemma parseHeader_other (line : gostring) (q : Conn) :
  let parts := Split (stripEnd line) " "%char in
  2 <= length parts ->
  part parts 1 <> str "UNKNOWN" -> part parts 1 <> str "TCP4" ->
  part parts 1 <> str "TCP6" ->
  parseHeader line q =
  fail (fmt_Errorf (str "Unhandled address type: " ++ part parts 1)) q.
Proof.
  intros parts Hlen Hu H4 H6. unfold parseHeader. fold parts.
  replace (length parts <? 2) with false by (symmetry; apply Nat.ltb_ge; lia).
  apply bytes_Equal_neq in Hu, H4, H6. rewrite Hu, H4, H6. reflexivity.
Qed.

Lemma parseHeader_count (line : gostring) (q : Conn) :
  let parts := Split (stripEnd line) " "%char in
  2 <= length parts ->
  part parts 1 = str "TCP4" \/ part parts 1 = str "TCP6" ->
  length parts <> 6 ->
  parseHeader line q =
  fail (fmt_Errorf (str "Invalid header line (should have 6 parts): "
                      ++ stripEnd line)) q.
Proof.
  intros parts Hlen Hfam H6. unfold parseHeader. fold parts.
  replace (length parts <? 2) with false by (symmetry; apply Nat.ltb_ge; lia).
  replace (length parts =? 6) with false by (symmetry; now apply Nat.eqb_neq).
  destruct Hfam as [-> | ->]; reflexivity.
Qed.

(** With six pieces and a TCP family, the four fields are parsed in the
    order source IP, source port, destination IP, destination port; the
    family plays no part. *)
Lemma parseHeader_fields (line : gostring) (q : Conn) :
  let parts := Split (stripEnd line) " "%char in
  length parts = 6 ->
  part parts 1 = str "TCP4" \/ part parts 1 = str "TCP6" ->
  parseHeader line q =
  match ParseIP (part parts 2) with
  | None => fail (fmt_Errorf (str "Invalid source ip: " ++ part parts 2)) q
  | Some ip1 =>
      match Atoi (part parts 4) with
      | None => fail (fmt_Errorf (str "Invalid source port: " ++ part parts 4)) q
      | Some p1 =>
          let q1 := set_srcAddr (Some (mkTCPAddr ip1 p1)) q in
          match ParseIP (part parts 3) with
          | None =>
              fail (fmt_Errorf (str "Invalid destination ip: " ++ part parts 3)) q1
          | Some ip2 =>
              match Atoi (part parts 5) with
              | None =>
                  fail (fmt_Errorf (str "Invalid destination port: " ++ part parts 5)) q1
              | Some p2 => (None, set_dstAddr (Some (mkTCPAddr ip2 p2)) q1)
              end
          end
      end
  end.
Proof.
  intros parts Hlen Hfam. unfold parseHeader. fold parts. rewrite Hlen.
  change (6 <? 2) with false. change (6 =? 6) with true.
  destruct Hfam as [-> | ->]; reflexivity.
Qed.

(** C5: on a stream that begins with the whole signature, a failed read
    before the end of the line is an error; once the line is read, fewer
    than two fields is an error, UNKNOWN is accepted exactly when the flag
    is set and there are two fields, TCP4 and TCP6 with a number of fields
    other than six are errors, and any other family is an error; every one
    of these errors is returned, stored, and closes the underlying
    connection. *)
Theorem header_structure (c : NetConn) (t : Z) (use unk : bool) :
  closed c = false ->
  let p := wrapped c t use unk in
  let s := lead (incoming c) in
  firstn prefixLen s = prefix ->
  (~ In "010"%char s ->
   fst (checkPrefix p) = Some (nextErr (incoming c)) /\
   proxyErr (snd (checkPrefix p)) = Some (errLine (nextErr (incoming c))) /\
   closed (conn (snd (checkPrefix p))) = true) /\
  (forall i, IndexByte s "010"%char = Some i ->
     let header := stripEnd (firstn (S i) s) in
     let parts := Split header " "%char in
     (length parts < 2 ->
      rejected (checkPrefix p) (fmt_Errorf (str "invalid header line: " ++ header))) /\
     (2 <= length parts -> part parts 1 = str "UNKNOWN" ->
      (unk = true -> length parts = 2 ->
       fst (checkPrefix p) = None /\
       outcome (snd (checkPrefix p)) = (None, None, None, true) /\
       closed (conn (snd (checkPrefix p))) = false) /\
      (unk = false \/ length parts <> 2 ->
       rejected (checkPrefix p)
         (fmt_Errorf (str "invalid UNKNOWN header line: " ++ header)))) /\
     (2 <= length parts ->
      part parts 1 = str "TCP4" \/ part parts 1 = str "TCP6" ->
      length parts <> 6 ->
      rejected (checkPrefix p)
        (fmt_Errorf (str "Invalid header line (should have 6 parts): " ++ header))) /\
     (2 <= length parts ->
      part parts 1 <> str "UNKNOWN" -> part parts 1 <> str "TCP4" ->
      part parts 1 <> str "TCP6" ->
      rejected (checkPrefix p)
        (fmt_Errorf (str "Unhandled address type: " ++ part parts 1)))).
Proof.
  intros Hopen p s Hpre.
  pose proof (@wrapped_readable c t use unk Hopen) as Hr. fold p s in Hr.
  assert (Hagree : agree prefix s = Same) by now apply firstn_prefix_agree.
  split.
  - intros Hnl.
    assert (Hidx : IndexByte s "010"%char = None) by now apply IndexByte_None.
    destruct (@checkPrefix_noline p s _ Hr Hagree Hidx) as (q & Hq & Hcl & Ho).
    rewrite Hq. cbn [fst snd]. rewrite nextErr_errOf.
    unfold outcome in Ho. injection Ho as _ _ Ee _.
    repeat split; assumption.
  - intros i Hidx header parts.
    destruct (@checkPrefix_line p s _ i Hr Hagree Hidx) as (q & Hq & Hrq & Ho & Hu).
    assert (Hunk : unknownOK q = unk) by (destruct Hu as (_ & _ & Hk & _); exact Hk).
    assert (Hrej : forall e, parseHeader (firstn (S i) s) q = fail e q ->
                             rejected (checkPrefix p) e).
    { intros e He. rewrite Hq, He. apply disarm_rejected, fail_rejected. }
    split; [|split; [|split]].
    + intros Hlen. apply Hrej. now apply parseHeader_few.
    + intros Hlen Hfam.
      pose proof (@parseHeader_UNKNOWN (firstn (S i) s) q Hlen Hfam) as Hph.
      fold header parts in Hph. rewrite Hunk in Hph.
      split.
      * intros -> H2. rewrite H2 in Hph. cbn [andb Nat.eqb] in Hph.
        rewrite Hq, Hph. cbn [fst snd].
        split; [reflexivity|]. split.
        -- rewrite disarm_outcome. unfold outcome in *.
           cbn [srcAddr dstAddr proxyErr useConnAddr set_useConnAddr].
           injection Ho as Es Ed Ee _. rewrite Es, Ed, Ee. reflexivity.
        -- rewrite disarm_closed. apply Hrq.
      * intros Hbad. apply Hrej. rewrite Hph.
        destruct Hbad as [-> | Hne]; [reflexivity|].
        apply Nat.eqb_neq in Hne. rewrite Hne. now rewrite andb_false_r.
    + intros Hlen Hfam H6. apply Hrej. now apply parseHeader_count.
    + intros Hlen Hu' H4 H6. apply Hrej. now apply parseHeader_other.
Qed.

Lemma header_structure_witness :
  let c := exampleConn (segment (str "PROXY TCP4 1.2.3.4 5.6.7.8 80" ++ CRLF)) in
  rejected (checkPrefix (wrapped c 0 false false))
    (fmt_Errorf (str "Invalid header line (should have 6 parts): "
                   ++ str "PROXY TCP4 1.2.3.4 5.6.7.8 80")).
Proof.
  intros c.
  refine (proj1 (proj2 (proj2
    (proj2 (@header_structure c 0 false false _ _) 30 _))) _ _ _).
  - reflexivity.
  - reflexivity.
  - reflexivity.
  - cbn. lia.
  - left. reflexivity.
  - cbn. lia.
Defined.

(** ** The address fields *)

(** C4, as the code has it: with six fields and family TCP4 or TCP6, the
    source IP and the destination IP must be accepted by [net.ParseIP] and
    the two ports by [strconv.Atoi], whatever the declared family; the
    first field that fails, in the order source IP, source port, destination
    IP, destination port, closes the connection and gives the error naming
    it; when all four pass the parser returns nil with both addresses
    stored and the connection open. *)
Theorem address_fields_parsed_in_order
    (c : NetConn) (t : Z) (use unk : bool) (i : nat) :
  closed c = false ->
  let p := wrapped c t use unk in
  let s := lead (incoming c) in
  firstn prefixLen s = prefix ->
  IndexByte s "010"%char = Some i ->
  let parts := Split (stripEnd (firstn (S i) s)) " "%char in
  length parts = 6 ->
  part parts 1 = str "TCP4" \/ part parts 1 = str "TCP6" ->
  match ParseIP (part parts 2) with
  | None =>
      rejected (checkPrefix p) (fmt_Errorf (str "Invalid source ip: " ++ part parts 2))
  | Some ip1 =>
      match Atoi (part parts 4) with
      | None =>
          rejected (checkPrefix p)
            (fmt_Errorf (str "Invalid source port: " ++ part parts 4))
      | Some p1 =>
          match ParseIP (part parts 3) with
          | None =>
              rejected (checkPrefix p)
                (fmt_Errorf (str "Invalid destination ip: " ++ part parts 3))
          | Some ip2 =>
              match Atoi (part parts 5) with
              | None =>
                  rejected (checkPrefix p)
                    (fmt_Errorf (str "Invalid destination port: " ++ part parts 5))
              | Some p2 =>
                  fst (checkPrefix p) = None /\
                  outcome (snd (checkPrefix p)) =
                    (Some (mkTCPAddr ip1 p1), Some (mkTCPAddr ip2 p2), None, use) /\
                  closed (conn (snd (checkPrefix p))) = false
              end
          end
      end
  end.
Proof.
  intros Hopen p s Hpre Hidx parts Hlen Hfam.
  pose proof (@wrapped_readable c t use unk Hopen) as Hr. fold p s in Hr.
  assert (Hagree : agree prefix s = Same) by now apply firstn_prefix_agree.
  destruct (@checkPrefix_line p s _ i Hr Hagree Hidx) as (q & Hq & Hrq & Ho & Hu).
  pose proof (@parseHeader_fields (firstn (S i) s) q Hlen Hfam) as Hph.
  fold parts in Hph.
  assert (Hrej : forall e q1, parseHeader (firstn (S i) s) q = fail e q1 ->
                              rejected (checkPrefix p) e).
  { intros e q1 He. rewrite Hq, He. apply disarm_rejected, fail_rejected. }
  destruct (ParseIP (part parts 2)) as [ip1|]; [|now apply (Hrej _ q)].
  destruct (Atoi (part parts 4)) as [p1|]; [|now apply (Hrej _ q)].
  cbv zeta in Hph.
  destruct (ParseIP (part parts 3)) as [ip2|]; [|now apply (Hrej _ _ Hph)].
  destruct (Atoi (part parts 5)) as [p2|]; [|now apply (Hrej _ _ Hph)].
  rewrite Hq, Hph. cbn [fst snd].
  split; [reflexivity|]. split.
  - rewrite disarm_outcome. unfold outcome in *.
    cbn [srcAddr dstAddr proxyErr useConnAddr set_srcAddr set_dstAddr].
    injection Ho as _ _ Ee Eu. rewrite Ee, Eu. reflexivity.
  - rewrite disarm_closed. apply Hrq.
Qed.

Lemma address_fields_parsed_in_order_witness :
  let c := exampleConn (segment (str "PROXY TCP6 2001:db8::1 bad 80 443" ++ CRLF)) in
  rejected (checkPrefix (wrapped c 0 false false))
    (fmt_Errorf (str "Invalid destination ip: bad")).
Proof.
  intros c.
  exact (@address_fields_parsed_in_order c 0 false false 34
           eq_refl eq_refl eq_refl eq_refl (or_intror eq_refl)).
Defined.

(** C4 as the specification words it does not hold: under TCP4 a header
    whose addresses are IPv6 literals and whose source port is negative is
    accepted, the connection stays open and the addresses are stored. *)
Lemma family_and_sign_are_not_checked :
  let c := exampleConn (segment (str "PROXY TCP4 ::1 ::1 -1 443" ++ CRLF)) in
  let parts := Split (str "PROXY TCP4 ::1 ::1 -1 443") " "%char in
  let res := checkPrefix (wrapped c 0 false false) in
  length parts = 6 /\ part parts 1 = str "TCP4" /\
  literal_of_family (part parts 1) (part parts 2) = false /\
  literal_of_family (part parts 1) (part parts 3) = false /\
  nonneg_decimal (part parts 4) = false /\
  fst res = None /\ closed (conn (snd res)) = false /\
  outcome (snd res) =
    (Some (mkTCPAddr [0;0;0;0;0;0;0;0;0;0;0;0;0;0;0;1]%N (-1)),
     Some (mkTCPAddr [0;0;0;0;0;0;0;0;0;0;0;0;0;0;0;1]%N 443), None, false).
Proof. vm_compute. repeat split. Qed.

(** ** Well-formed fields *)

Lemma digit_plain (c : byte) :
  digit c <> None ->
  c <> " "%char /\ c <> "010"%char /\ c <> "."%char /\ c <> ":"%char /\
  c <> "-"%char /\ c <> "+"%char.
Proof. intros H. repeat split; intros ->; apply H; reflexivity. Qed.

Lemma decimal_digits : forall (s : gostring) (acc v : Z),
  decimal acc s = Some v -> Forall (fun c => digit c <> None) s.
Proof.
  induction s as [|c s IH]; intros acc v H; [constructor|].
  cbn [decimal] in H. destruct (digit c) as [d|] eqn:E; [|discriminate].
  constructor; [congruence | eapply IH; exact H].
Qed.

Lemma decimal_nonneg : forall (s : gostring) (acc v : Z),
  (0 <= acc)%Z -> decimal acc s = Some v -> (0 <= v)%Z.
Proof.
  induction s as [|c s IH]; intros acc v Hacc H; cbn [decimal] in H.
  - injection H as <-. exact Hacc.
  - destruct (digit c) as [d|]; [|discriminate].
    pose proof (N2Z.is_nonneg d) as Hd.
    apply (IH (acc * 10 + Z.of_N d)%Z v); [lia | exact H].
Qed.

Lemma Atoi_validPort (s : gostring) (port : Z) :
  validPort s port -> Atoi s = Some port.
Proof.
  intros (Hne & Hdec & Hmax).
  pose proof (@decimal_nonneg s 0 port ltac:(lia) Hdec) as Hpos.
  pose proof (@decimal_digits s 0 port Hdec) as Hdig.
  destruct s as [|c t]; [congruence|].
  inversion Hdig as [|? ? Hc _]; subst.
  destruct (@digit_plain c Hc) as (_ & _ & _ & _ & Hminus & Hplus).
  apply Ascii.eqb_neq in Hminus, Hplus.
  unfold Atoi. rewrite Hminus, Hplus, Hdec.
  replace ((intMin <=? port) && (port <=? intMax))%Z with true; [reflexivity|].
  symmetry. apply andb_true_iff. split; apply Z.leb_le.
  - unfold intMin. lia.
  - unfold intMax. lia.
Qed.

Lemma validPort_plain (s : gostring) (port : Z) :
  validPort s port -> ~ In " "%char s /\ ~ In "010"%char s.
Proof.
  intros (_ & Hdec & _). pose proof (@decimal_digits s 0 port Hdec) as Hdig.
  rewrite Forall_forall in Hdig.
  split; intros Hin; apply Hdig in Hin; now apply Hin.
Qed.

Lemma dtoi_loop_digits : forall (s : gostring) (n : N) (i : nat) (n' : N) (c : nat),
  dtoi_loop n i s = (n', c, true) ->
  i <= c /\ c - i <= length s /\ Forall (fun x => digit x <> None) (firstn (c - i) s).
Proof.
  induction s as [|x s IH]; intros n i n' c H; cbn [dtoi_loop] in H.
  - destruct (i =? 0); [discriminate|]. injection H as _ <-.
    rewrite Nat.sub_diag. repeat split; [lia | cbn; lia | constructor].
  - destruct (digit x) as [d|] eqn:E.
    + destruct (big <=? n * 10 + d)%N; [discriminate|].
      destruct (IH _ _ _ _ H) as (H1 & H2 & H3).
      replace (c - i) with (S (c - S i)) by lia.
      repeat split; [lia | cbn; lia |].
      cbn [firstn]. constructor; [congruence | exact H3].
    + destruct (i =? 0); [discriminate|]. injection H as _ <-.
      rewrite Nat.sub_diag. repeat split; [lia | cbn; lia | constructor].
Qed.

Lemma parseIPv4_field_step (k i : nat) (s1 : gostring) (p : list N)
    (rest : gostring) :
  (let '(n, c, ok) := dtoi s1 in
   if negb ok || (0xFF <? n)%N then None
   else if (1 <? c)
           && match s1 with x :: _ => Ascii.eqb x "0" | [] => false end
   then None
   else match parseIPv4_fields k (S i) (skipn c s1) with
        | Some (p1, rest1) => Some (n :: p1, rest1)
        | None => None
        end) = Some (p, rest) ->
  exists c p',
    Forall (fun x => digit x <> None) (firstn c s1) /\
    parseIPv4_fields k (S i) (skipn c s1) = Some (p', rest).
Proof.
  destruct (dtoi s1) as [[n c] ok] eqn:Edt.
  destruct ok; cbn [negb orb]; [|discriminate].
  destruct (0xFF <? n)%N; [discriminate|].
  destruct ((1 <? c) && _); [discriminate|].
  destruct (parseIPv4_fields k (S i) (skipn c s1)) as [[p' rest']|] eqn:Erec;
    [|discriminate].
  intros H. injection H as _ <-.
  unfold dtoi in Edt.
  destruct (@dtoi_loop_digits s1 0 0 n c Edt) as (_ & _ & Hdig).
  rewrite Nat.sub_0_r in Hdig.
  now exists c, p'.
Qed.

Lemma parseIPv4_fields_chars : forall (k i : nat) (s : gostring) (p : list N)
    (rest : gostring),
  parseIPv4_fields k i s = Some (p, rest) ->
  exists used,
    s = used ++ rest /\
    Forall (fun c => digit c <> None \/ c = "."%char) used /\
    (2 <= k \/ (0 < k /\ 0 < i) -> In "."%char used).
Proof.
  induction k as [|k IH]; intros i s p rest H; cbn [parseIPv4_fields] in H.
  - injection H as _ <-. exists []. repeat split; [constructor | lia].
  - destruct s as [|c0 t0]; [discriminate|].
    destruct (0 <? i) eqn:Ei.
    + destruct (Ascii.eqb c0 ".") eqn:Ec0; [|discriminate].
      apply Ascii.eqb_eq in Ec0. subst c0.
      destruct (@parseIPv4_field_step k i t0 p rest H) as (c & p' & Hdig & Erec).
      destruct (IH _ _ _ _ Erec) as (used' & Hskip & Hused' & Hdot').
      exists ("."%char :: firstn c t0 ++ used').
      split; [|split].
      * cbn [app]. f_equal. rewrite <- app_assoc, <- Hskip.
        symmetry. apply firstn_skipn.
      * constructor; [now right|]. apply Forall_app. split; [|exact Hused'].
        eapply Forall_impl; [|exact Hdig]. cbn. tauto.
      * intros _. now left.
    + destruct (@parseIPv4_field_step k i (c0 :: t0) p rest H)
        as (c & p' & Hdig & Erec).
      destruct (IH _ _ _ _ Erec) as (used' & Hskip & Hused' & Hdot').
      exists (firstn c (c0 :: t0) ++ used').
      split; [|split].
      * rewrite <- app_assoc, <- Hskip. symmetry. apply firstn_skipn.
      * apply Forall_app. split; [|exact Hused'].
        eapply Forall_impl; [|exact Hdig]. cbn. tauto.
      * intros Hk. apply in_or_app. right. apply Hdot'.
        apply Nat.ltb_ge in Ei. right. lia.
Qed.

Lemma parseIPv4_plain (s : gostring) (ip : IP) :
  parseIPv4 s = Some ip ->
  Forall (fun c => digit c <> None \/ c = "."%char) s /\ In "."%char s.
Proof.
  unfold parseIPv4. intros H.
  destruct (parseIPv4_fields IPv4len 0 s) as [[p rest]|] eqn:E; [|discriminate].
  destruct (@parseIPv4_fields_chars _ _ _ _ _ E) as (used & Hs & Hu & Hdot).
  destruct p as [|a [|b [|c [|d [|? ?]]]]]; try discriminate.
  destruct rest; [|discriminate].
  rewrite app_nil_r in Hs. subst used.
  split; [exact Hu|]. apply Hdot. left. unfold IPv4len. lia.
Qed.

Lemma ParseIP_scan_IPv4 (s : gostring) : forall rest : gostring,
  Forall (fun c => digit c <> None \/ c = "."%char) rest -> In "."%char rest ->
  ParseIP_scan s rest = parseIPv4 s.
Proof.
  induction rest as [|c rest IH]; intros Hall Hin; [contradiction|].
  cbn [ParseIP_scan]. inversion Hall as [|? ? Hc Hrest]; subst.
  destruct (Ascii.eqb c ".") eqn:Edot; [reflexivity|].
  apply Ascii.eqb_neq in Edot.
  destruct Hc as [Hc|Hc]; [|contradiction].
  destruct (@digit_plain c Hc) as (_ & _ & _ & Hcolon & _).
  apply Ascii.eqb_neq in Hcolon. rewrite Hcolon.
  apply IH; [exact Hrest|]. destruct Hin as [Hin|Hin]; [congruence | exact Hin].
Qed.

Lemma ParseIP_IPv4 (s : gostring) (ip : IP) :
  parseIPv4 s = Some ip -> ParseIP s = Some ip.
Proof.
  intros H. destruct (@parseIPv4_plain s ip H) as (Hall & Hdot).
  unfold ParseIP. now rewrite ParseIP_scan_IPv4.
Qed.

Lemma IPv4_plain (s : gostring) (ip : IP) :
  parseIPv4 s = Some ip -> ~ In " "%char s /\ ~ In "010"%char s.
Proof.
  intros H. destruct (@parseIPv4_plain s ip H) as (Hall & _).
  rewrite Forall_forall in Hall.
  split; intros Hin; apply Hall in Hin; destruct Hin as [Hd|Hd];
    try discriminate; now apply digit_plain in Hd.
Qed.

(** ** A header line in the stream *)

Lemma line_in_stream (body payload : list byte) :
  ~ In "010"%char body ->
  let s := body ++ CRLF ++ payload in
  IndexByte s "010"%char = Some (S (length body)) /\
  firstn (S (S (length body))) s = body ++ CRLF /\
  skipn (S (S (length body))) s = payload /\
  stripEnd (body ++ CRLF) = body.
Proof.
  intros Hnl s.
  assert (Hidx : IndexByte body "010"%char = None) by now apply IndexByte_None.
  assert (Hlen : S (S (length body)) = length (body ++ CRLF) + 0)
    by (rewrite length_app; cbn; lia).
  split; [|split; [|split]].
  - unfold s. rewrite (@IndexByte_app_r body (CRLF ++ payload) "010"%char Hidx).
    cbn. f_equal. lia.
  - unfold s. rewrite Hlen, app_assoc, firstn_app_exact. cbn [firstn].
    now rewrite app_nil_r.
  - unfold s. rewrite Hlen, app_assoc, skipn_app_exact. reflexivity.
  - unfold stripEnd. rewrite length_app. cbn [length CRLF].
    replace (length body + 2 - 2) with (length body + 0) by lia.
    rewrite firstn_app_exact. cbn [firstn]. now rewrite app_nil_r.
Qed.

(** ** A well-formed TCP4 header *)

Lemma Split_TCP4_header (s1 s2 sp1 sp2 : gostring) :
  ~ In " "%char s1 -> ~ In " "%char s2 -> ~ In " "%char sp1 -> ~ In " "%char sp2 ->
  Split (str "PROXY TCP4 " ++ s1 ++ " "%char :: s2 ++ " "%char :: sp1
           ++ " "%char :: sp2) " "%char =
  [str "PROXY"; str "TCP4"; s1; s2; sp1; sp2].
Proof.
  intros H1 H2 H3 H4.
  change (str "PROXY TCP4 " ++ s1 ++ " "%char :: s2 ++ " "%char :: sp1
            ++ " "%char :: sp2)
    with (str "PROXY" ++ " "%char :: str "TCP4" ++ " "%char :: s1
            ++ " "%char :: s2 ++ " "%char :: sp1 ++ " "%char :: sp2).
  rewrite Split_app_sep.
  2:{ cbn. intros H. repeat (destruct H as [H|H]; [discriminate|]). exact H. }
  rewrite Split_app_sep.
  2:{ cbn. intros H. repeat (destruct H as [H|H]; [discriminate|]). exact H. }
  rewrite !Split_app_sep by assumption.
  now rewrite Split_nosep.
Qed.

Lemma notin_app (x : byte) (a b : list byte) :
  ~ In x a -> ~ In x b -> ~ In x (a ++ b).
Proof. intros Ha Hb H. apply in_app_or in H. tauto. Qed.

Lemma notin_cons (x y : byte) (b : list byte) :
  x <> y -> ~ In x b -> ~ In x (y :: b).
Proof. intros Hy Hb [H|H]; [congruence | contradiction]. Qed.

(** C1: on a stream made of a TCP4 header line with valid IPv4 literals and
    ports, then the payload, a connection wrapped with the header trusted
    answers [RemoteAddr] with the source address and port of the header
    and [LocalAddr] with its destination address and port, in either
    order, and reading to the first failure returns the payload, all of it
    and nothing else, whether the first [Read] or an earlier accessor ran
    the parser. *)
Theorem tcp4_header_resolves
    (c : NetConn) (t : Z) (unk : bool) (s1 s2 sp1 sp2 : gostring)
    (ip1 ip2 : IP) (p1 p2 : Z) (payload : list byte) :
  closed c = false ->
  parseIPv4 s1 = Some ip1 -> parseIPv4 s2 = Some ip2 ->
  validPort sp1 p1 -> validPort sp2 p2 ->
  lead (incoming c) =
    (str "PROXY TCP4 " ++ s1 ++ " "%char :: s2 ++ " "%char :: sp1
       ++ " "%char :: sp2) ++ CRLF ++ payload ->
  let p := wrapped c t false unk in
  let src := AddrTCP (mkTCPAddr ip1 p1) in
  let dst := AddrTCP (mkTCPAddr ip2 p2) in
  fst (RemoteAddr p) = src /\
  fst (LocalAddr p) = dst /\
  fst (LocalAddr (snd (RemoteAddr p))) = dst /\
  fst (RemoteAddr (snd (LocalAddr p))) = src /\
  (forall n fuel, 0 < n -> length payload < fuel ->
     fst (drain fuel n p) = (payload, Some (nextErr (incoming c))) /\
     fst (drain fuel n (snd (LocalAddr (snd (RemoteAddr p))))) =
       (payload, Some (nextErr (incoming c)))).
Proof.
  intros Hopen Hip1 Hip2 Hp1 Hp2 Hs p src dst.
  set (body := str "PROXY TCP4 " ++ s1 ++ " "%char :: s2 ++ " "%char :: sp1
                 ++ " "%char :: sp2) in *.
  destruct (@IPv4_plain s1 ip1 Hip1) as (Hsp1 & Hnl1).
  destruct (@IPv4_plain s2 ip2 Hip2) as (Hsp2 & Hnl2).
  destruct (@validPort_plain sp1 p1 Hp1) as (Hsp3 & Hnl3).
  destruct (@validPort_plain sp2 p2 Hp2) as (Hsp4 & Hnl4).
  assert (Hbody : ~ In "010"%char body).
  { unfold body. apply notin_app.
    { cbn. intros H. repeat (destruct H as [H|H]; [discriminate|]). exact H. }
    apply notin_app; [exact Hnl1|]. apply notin_cons; [discriminate|].
    apply notin_app; [exact Hnl2|]. apply notin_cons; [discriminate|].
    apply notin_app; [exact Hnl3|]. apply notin_cons; [discriminate|].
    exact Hnl4. }
  destruct (@line_in_stream body payload Hbody) as (Hidx & Hline & Hrest & Hstrip).
  pose proof (@wrapped_readable c t false unk Hopen) as Hr. fold p in Hr.
  rewrite Hs in Hr.
  assert (Hagree : agree prefix (body ++ CRLF ++ payload) = Same) by reflexivity.
  destruct (@checkPrefix_line p _ _ _ Hr Hagree Hidx) as (q & Hq & Hrq & Ho & Hu).
  rewrite Hrest in Hrq.
  assert (Hparts : Split (stripEnd (body ++ CRLF)) " "%char =
                   [str "PROXY"; str "TCP4"; s1; s2; sp1; sp2]).
  { rewrite Hstrip. now apply Split_TCP4_header. }
  pose proof (@parseHeader_fields (body ++ CRLF) q) as Hph.
  rewrite Hparts in Hph. specialize (Hph eq_refl (or_introl eq_refl)).
  cbn [part nth] in Hph.
  rewrite (@ParseIP_IPv4 s1 ip1 Hip1), (@ParseIP_IPv4 s2 ip2 Hip2) in Hph.
  rewrite (@Atoi_validPort sp1 p1 Hp1), (@Atoi_validPort sp2 p2 Hp2) in Hph.
  cbv zeta in Hph.
  set (q' := set_dstAddr (Some (mkTCPAddr ip2 p2))
               (set_srcAddr (Some (mkTCPAddr ip1 p1)) q)) in Hph.
  set (q'' := disarm (proxyHeaderTimeout p) q').
  assert (Hcp : checkPrefix p = (None, q'')).
  { rewrite Hq.
    exact (f_equal (fun r : option error * Conn =>
                      let '(ret, x) := r in (ret, disarm (proxyHeaderTimeout p) x))
                   (eq_trans (f_equal (fun l => parseHeader l q) Hline) Hph)). }
  assert (Hrq'' : readable q'' payload (afterLead (incoming c))).
  { apply disarm_readable. exact Hrq. }
  assert (Hsrc : srcAddr q'' = Some (mkTCPAddr ip1 p1)).
  { destruct (@outcome_fields q'' q' (disarm_outcome _ _)) as (E & _). exact E. }
  assert (Hdst : dstAddr q'' = Some (mkTCPAddr ip2 p2)).
  { destruct (@outcome_fields q'' q' (disarm_outcome _ _)) as (_ & E & _). exact E. }
  assert (Huse : useConnAddr q'' = false).
  { destruct (@outcome_fields q'' q' (disarm_outcome _ _)) as (_ & _ & _ & E).
    rewrite E. unfold q'. cbn [useConnAddr set_dstAddr set_srcAddr].
    destruct (@outcome_fields q p Ho) as (_ & _ & _ & E'). exact E'. }
  assert (Hcpo : checkPrefixOnce p = set_once true q'')
    by now apply checkPrefixOnce_after_parse.
  assert (HR : fst (RemoteAddr p) = src).
  { rewrite RemoteAddr_fresh by reflexivity. rewrite Hcp. cbn [snd].
    now rewrite Hsrc, Huse. }
  assert (HL : fst (LocalAddr p) = dst).
  { rewrite LocalAddr_fresh by reflexivity. rewrite Hcp. cbn [snd].
    now rewrite Hdst, Huse. }
  split; [exact HR|]. split; [exact HL|]. split; [|split].
  - rewrite RemoteAddr_state, Hcpo. rewrite LocalAddr_settled by reflexivity.
    cbn [dstAddr useConnAddr set_once]. now rewrite Hdst, Huse.
  - rewrite LocalAddr_state, Hcpo. rewrite RemoteAddr_settled by reflexivity.
    cbn [srcAddr useConnAddr set_once]. now rewrite Hsrc, Huse.
  - intros n fuel Hn Hfuel.
    destruct (@drain_after_parse n fuel p q'' payload (afterLead (incoming c))
                Hn eq_refl Hcp Hrq'' Hfuel) as (D1 & D2).
    rewrite nextErr_errOf. split; [exact D1|].
    rewrite RemoteAddr_state, Hcpo.
    rewrite LocalAddr_state, checkPrefixOnce_settled by reflexivity.
    rewrite <- Hcpo. exact D2.
Qed.

Lemma tcp4_header_resolves_witness :
  let c := exampleConn
             (segment (str "PROXY TCP4 192.0.2.7 10.0.0.2 " ++ str "51234 443")
              ++ segment (CRLF ++ str "GET / HTTP/1.1")) in
  fst (RemoteAddr (NewConn c 0)) =
    AddrTCP (mkTCPAddr (IPv4 192 0 2 7) 51234).
Proof.
  intros c.
  refine (proj1 (@tcp4_header_resolves c 0 false
                   (str "192.0.2.7") (str "10.0.0.2") (str "51234") (str "443")
                   (IPv4 192 0 2 7) (IPv4 10 0 0 2) 51234 443
                   (str "GET / HTTP/1.1") _ _ _ _ _ _)).
  - reflexivity.
  - reflexivity.
  - reflexivity.
  - repeat split; [discriminate | lia].
  - repeat split; [discriminate | lia].
  - reflexivity.
Defined.

(** ** Errors returned and errors stored *)

Lemma disarm_proxyErr (t : Z) (p : Conn) : proxyErr (disarm t p) = proxyErr p.
Proof. unfold disarm. now destruct (t =? 0)%Z. Qed.

Lemma scanPrefix_error_stored (k : nat) : forall (i : nat) (p p' : Conn) (e : error),
  scanPrefix k i p = (Return (Some e), p') -> proxyErr p' = Some (errPeek e).
Proof.
  induction k as [|k IH]; intros i p p' e H; cbn [scanPrefix] in H; [discriminate|].
  destruct (Peek i (bufReader p) (conn p)) as [[inp err] [r c]].
  destruct err as [e0|].
  - destruct (is_net_timeout e0); [discriminate|].
    injection H as <- <-. reflexivity.
  - destruct (negb _); [discriminate|]. eapply IH; exact H.
Qed.

Lemma parseHeader_error_stored (line : gostring) (q : Conn) (e : error) :
  fst (parseHeader line q) = Some e ->
  proxyErr (snd (parseHeader line q)) = Some e.
Proof.
  unfold parseHeader.
  repeat match goal with
         | |- fst (if ?b then _ else _) = _ -> _ => destruct b
         | |- fst (match ?x with Some _ => _ | None => _ end) = _ -> _ => destruct x
         end;
    cbn [fst snd fail]; try discriminate; intros H; exact H.
Qed.

(** The error [checkPrefix] returns is the one it stored, bare or wrapped
    in the message of the read that failed. *)
Lemma checkPrefix_error_stored (p : Conn) (e : error) :
  fst (checkPrefix p) = Some e ->
  proxyErr (snd (checkPrefix p)) = Some e \/
  proxyErr (snd (checkPrefix p)) = Some (errPeek e) \/
  proxyErr (snd (checkPrefix p)) = Some (errLine e).
Proof.
  rewrite checkPrefix_arm. unfold checkPrefixBody.
  destruct (scanPrefix prefixLen 1 (arm p)) as [[|ret] p1] eqn:Escan.
  - destruct (ReadString "010"%char (bufReader p1) (conn p1))
      as [[header err] [r c]].
    destruct err as [e0|].
    + cbn [fst snd]. intros H. injection H as ->.
      right. right. rewrite disarm_proxyErr. reflexivity.
    + pose proof (@parseHeader_error_stored header (set_reader r c p1) e) as Hph.
      destruct (parseHeader header (set_reader r c p1)) as [ret q].
      cbn [fst snd] in *. intros H. left.
      rewrite disarm_proxyErr. now apply Hph.
  - cbn [fst snd]. intros ->. right. left.
    rewrite disarm_proxyErr. eapply scanPrefix_error_stored. exact Escan.
Qed.

(** C6, as the code has it: when the header parser returns an error, the
    error is stored (bare, or wrapped in the message of the read that
    failed) by the single run of the parser; [ProxySourceAddr] returns the
    stored error as the first call and after any other calls; the [Read]
    that runs the parser returns the parser's error and no data; a [Read]
    after the parser has run goes to the buffered reader without looking at
    the stored error. *)
Theorem parse_error_stored_once
    (c : NetConn) (t : Z) (use unk : bool) (e : error) :
  let p := wrapped c t use unk in
  fst (checkPrefix p) = Some e ->
  exists stored,
    (stored = e \/ stored = errPeek e \/ stored = errLine e) /\
    snd (fst (ProxySourceAddr p)) = Some stored /\
    (forall n, fst (Read n p) = ([], Some e)) /\
    (forall o os,
       let p' := afterAll (o :: os) p in
       parseRuns p' = 1 /\ proxyErr p' = Some stored /\
       snd (fst (ProxySourceAddr p')) = Some stored /\
       forall n,
         Read n p' =
         let '(res, (r, c')) := Reader_Read n (bufReader p') (conn p') in
         (res, set_reader r c' p')).
Proof.
  intros p He.
  destruct (checkPrefix p) as [ret q] eqn:Hq. cbn [fst] in He. subst ret.
  assert (Hst : exists stored,
             (stored = e \/ stored = errPeek e \/ stored = errLine e) /\
             proxyErr q = Some stored).
  { pose proof (@checkPrefix_error_stored p e) as H. rewrite Hq in H.
    cbn [fst snd] in H.
    destruct (H eq_refl) as [E|[E|E]]; eexists; (split; [|exact E]); tauto. }
  destruct Hst as (stored & Hcases & Hstored).
  exists stored. split; [exact Hcases|]. split; [|split].
  - rewrite ProxySourceAddr_fresh by reflexivity. rewrite Hq. exact Hstored.
  - intros n. now rewrite (@Read_fresh_error n p q e eq_refl Hq).
  - intros o os p'.
    destruct (@after_fresh o p eq_refl) as (H1 & H2 & H3 & _).
    destruct (@afterAll_settled os (after o p) H1) as (K1 & K2 & K3 & _).
    change (afterAll os (after o p)) with p' in *.
    rewrite Hq in H2, H3. cbn [snd] in H2, H3.
    destruct (checkPrefix_untouched p) as (_ & _ & _ & _ & Hruns & _).
    rewrite Hq in Hruns. cbn [snd] in Hruns.
    assert (Hout : outcome p' = outcome q) by congruence.
    destruct (@outcome_fields p' q Hout) as (_ & _ & Ee & _).
    split; [rewrite K2, H2; exact Hruns|].
    split; [congruence|].
    split.
    + rewrite ProxySourceAddr_settled by assumption. cbn [snd]. congruence.
    + intros n. now apply Read_settled.
Qed.

Lemma parse_error_stored_once_witness :
  let c := exampleConn (segment (str "PROXY FOO" ++ CRLF ++ str "hello")) in
  exists stored,
    snd (fst (ProxySourceAddr (wrapped c 0 false false))) = Some stored.
Proof.
  intros c.
  destruct (@parse_error_stored_once c 0 false false
              (fmt_Errorf (str "Unhandled address type: FOO")) eq_refl)
    as (stored & _ & H & _).
  exists stored. exact H.
Defined.

(** C6 as the specification words it does not hold: after a malformed
    header the first [Read] returns the parse error, but the next [Read]
    returns the bytes that followed the header line, without error; and
    when [RemoteAddr] ran the parser, [Read] returns the error of a read on
    the closed connection, not the stored one. *)
Lemma later_Read_ignores_stored_error :
  let c := exampleConn (segment (str "PROXY FOO" ++ CRLF ++ str "hello")) in
  let p := NewConn c 0 in
  let e := fmt_Errorf (str "Unhandled address type: FOO") in
  fst (Read 100 p) = ([], Some e) /\
  proxyErr (snd (Read 100 p)) = Some e /\
  fst (Read 100 (snd (Read 100 p))) = (str "hello", None) /\
  proxyErr (snd (RemoteAddr p)) = Some e /\
  fst (Read 100 (snd (RemoteAddr p))) = ([], Some net_ErrClosed).
Proof. vm_compute. repeat split. Qed.

(** C2 fails on the code: a header whose source fields parse and whose
    destination IP does not is an error that closes the connection, yet
    [RemoteAddr] answers with the source address taken from the header, not
    with the address of the underlying connection. *)
Lemma RemoteAddr_after_destination_error :
  let c := exampleConn (segment (str "PROXY TCP4 192.0.2.7 bad 51234 443" ++ CRLF)) in
  let p := NewConn c 0 in
  fst (checkPrefix p) = Some (fmt_Errorf (str "Invalid destination ip: bad")) /\
  snd (fst (ProxySourceAddr p)) = Some (fmt_Errorf (str "Invalid destination ip: bad")) /\
  closed (conn (snd (RemoteAddr p))) = true /\
  fst (RemoteAddr p) = AddrTCP (mkTCPAddr (IPv4 192 0 2 7) 51234) /\
  fst (RemoteAddr p) <> connRemote c /\
  fst (LocalAddr p) = connLocal c.
Proof. vm_compute. repeat split. discriminate. Qed.

(** ** The loops end on their own, the slice is in range, the constructors *)

(** After the [n] rounds [Peek] allows, the condition of its loop is
    false: the loop has ended as in the source, not for lack of rounds. *)
Lemma peekFill_exits (n : nat) (r : Reader) (c : NetConn) :
  n <= defaultBufSize -> peekMore n (fst (peekFill n n r c)) = false.
Proof.
  intros Hn. unfold peekMore.
  destruct (rerr r) as [e|] eqn:Herr.
  { rewrite (@peekFill_err n n r c e Herr). cbn [fst]. rewrite Herr.
    apply andb_false_r. }
  destruct (closed c) eqn:Hc.
  - destruct n as [|m]; [reflexivity|].
    cbn [peekFill]. rewrite Herr.
    destruct ((length (buf r) <? S m) && (length (buf r) <? defaultBufSize)) eqn:E.
    + cbn [andb]. rewrite fill_closed by assumption.
      rewrite peekFill_err with (e := net_ErrClosed) by reflexivity.
      cbn [fst rerr]. apply andb_false_r.
    + cbn [andb fst]. rewrite E. reflexivity.
  - destruct (@peekFill_spec n n r c Hc Herr Hn ltac:(lia)) as (r' & evs' & Hrun & Hcase).
    rewrite Hrun. cbn [fst].
    destruct Hcase as [(_ & Hlen & _)|(_ & _ & He & _)].
    + replace (length (buf r') <? n) with false by (symmetry; apply Nat.ltb_ge; lia).
      reflexivity.
    + rewrite He. apply andb_false_r.
Qed.

(** [budget] rounds are enough for [ReadString] in every state of the
    reader and the connection: the loop returns. *)
Lemma ReadString_returns (delim : byte) (r : Reader) (c : NetConn) :
  exists res, readStringLoop (budget c) delim [] r c = Some res.
Proof.
  unfold budget.
  destruct (rerr r) as [e|] eqn:Herr.
  { replace (2 * weight (incoming c) + 4) with (S (2 * weight (incoming c) + 3)) by lia.
    cbn [readStringLoop]. rewrite Herr.
    destruct (IndexByte (buf r) delim); eexists; reflexivity. }
  destruct (closed c) eqn:Hc.
  - replace (2 * weight (incoming c) + 4)
      with (S (S (S (2 * weight (incoming c) + 1)))) by lia.
    cbn [readStringLoop]. rewrite Herr.
    destruct (IndexByte (buf r) delim) eqn:Ei; [eexists; reflexivity|].
    destruct (defaultBufSize <=? length (buf r)).
    + cbn [buf rerr IndexByte].
      replace (defaultBufSize <=? @length byte []) with false
        by (symmetry; apply Nat.leb_gt; cbn; apply defaultBufSize_pos).
      rewrite fill_closed by assumption. cbn [buf rerr IndexByte].
      eexists; reflexivity.
    + rewrite fill_closed by assumption. cbn [buf rerr]. rewrite Ei.
      eexists; reflexivity.
  - pose proof (@readStringLoop_spec delim (2 * weight (incoming c) + 4) [] r c
                  Hc Herr) as H.
    assert (Hb : 2 * weight (incoming c)
                 + (if defaultBufSize <=? length (buf r) then 1 else 0) + 2
                 <= 2 * weight (incoming c) + 4)
      by (destruct (defaultBufSize <=? length (buf r)); lia).
    specialize (H Hb).
    destruct (IndexByte (pending r c) delim).
    + destruct H as (r' & evs' & Hrun & _). eexists; exact Hrun.
    + eexists; exact H.
Qed.

(** The line [checkPrefix] strips has seven bytes or more, so
    [header[:len(header)-2]] is in range. *)
Lemma header_line_length (s : list byte) (i : nat) :
  agree prefix s = Same -> IndexByte s "010"%char = Some i ->
  7 <= length (firstn (S i) s).
Proof.
  intros Hagree Hidx.
  apply agree_same_inv in Hagree as (t & ->).
  apply IndexByte_Some in Hidx as (Hi & _ & Hskip).
  rewrite length_firstn.
  assert (6 <= i); [|lia].
  do 6 (destruct i as [|i]; [cbn in Hskip; discriminate|]). lia.
Qed.

(** [NewConn] and [Accept] build wrapped connections. *)
Lemma NewConn_wrapped (c : NetConn) (t : Z) : NewConn c t = wrapped c t false false.
Proof. reflexivity. Qed.

Lemma Accept_wrapped (l : Listener) (c : NetConn) :
  Accept l (inl c) =
  match SourceCheck l with
  | None => inl (wrapped c (ProxyHeaderTimeout l) false (UnknownOK l))
  | Some check =>
      match check (connRemote c) with
      | (_, Some err) => inr err
      | (allowed, None) =>
          inl (wrapped c (ProxyHeaderTimeout l) (negb allowed) (UnknownOK l))
      end
  end.
Proof.
  unfold Accept. destruct (SourceCheck l) as [check|]; [|reflexivity].
  destruct (check (connRemote c)) as [allowed [err|]]; reflexivity.
Qed.

(** * Further properties of the wrapper *)

(** ** What the prefix loop and the header parser keep *)

Lemma scanPrefix_keeps (k : nat) : forall (i : nat) (p : Conn),
  srcAddr (snd (scanPrefix k i p)) = srcAddr p /\
  dstAddr (snd (scanPrefix k i p)) = dstAddr p /\
  useConnAddr (snd (scanPrefix k i p)) = useConnAddr p.
Proof.
  induction k as [|k IH]; intros i p; [now repeat split|].
  cbn [scanPrefix].
  destruct (Peek i (bufReader p) (conn p)) as [[inp err] [r c]].
  destruct err as [e|].
  - destruct (is_net_timeout e); now repeat split.
  - destruct (negb _); [now repeat split|].
    destruct (IH (S i) (set_reader r c p)) as (H1 & H2 & H3).
    now repeat split.
Qed.

Lemma parseHeader_keeps_flag (line : gostring) (q : Conn) :
  useConnAddr q = true -> useConnAddr (snd (parseHeader line q)) = true.
Proof.
  intros H. unfold parseHeader.
  repeat match goal with
         | |- useConnAddr (snd (if ?b then _ else _)) = _ => destruct b
         | |- useConnAddr (snd (match ?x with Some _ => _ | None => _ end)) = _ =>
             destruct x
         end; cbn [snd fail]; try reflexivity; exact H.
Qed.

(** The flag that makes the wrapper prefer the connection's own addresses
    is never cleared by the parser. *)
Lemma checkPrefix_keeps_flag (p : Conn) :
  useConnAddr p = true -> useConnAddr (snd (checkPrefix p)) = true.
Proof.
  intros H. rewrite checkPrefix_arm.
  assert (Ha : useConnAddr (arm p) = true).
  { destruct (@outcome_fields (arm p) p (arm_outcome p)) as (_ & _ & _ & E).
    now rewrite E. }
  assert (Hb : useConnAddr (snd (checkPrefixBody (arm p))) = true).
  { unfold checkPrefixBody.
    destruct (scanPrefix_keeps prefixLen 1 (arm p)) as (_ & _ & Hs).
    destruct (scanPrefix prefixLen 1 (arm p)) as [[|ret] p1]; cbn [snd] in Hs.
    - destruct (ReadString "010"%char (bufReader p1) (conn p1))
        as [[header err] [r c]].
      destruct err as [e|]; cbn [snd].
      + rewrite <- Ha, <- Hs. reflexivity.
      + apply parseHeader_keeps_flag. cbn [useConnAddr set_reader]. congruence.
    - cbn [snd]. congruence. }
  destruct (checkPrefixBody (arm p)) as [ret q]. cbn [snd] in *.
  destruct (@outcome_fields (disarm (proxyHeaderTimeout p) q) q
              (disarm_outcome _ _)) as (_ & _ & _ & E).
  now rewrite E.
Qed.

(** The addresses after any calls, from what the single run of the parser
    left. *)
Lemma addresses_afterAll (c : NetConn) (t : Z) (use unk : bool) (os : list call) :
  let p := wrapped c t use unk in
  let q := snd (checkPrefix p) in
  fst (RemoteAddr (afterAll os p)) =
    match srcAddr q with
    | Some a => if negb (useConnAddr q) then AddrTCP a else connRemote c
    | None => connRemote c
    end /\
  fst (LocalAddr (afterAll os p)) =
    match dstAddr q with
    | Some a => if negb (useConnAddr q) then AddrTCP a else connLocal c
    | None => connLocal c
    end /\
  fst (ProxySourceAddr (afterAll os p)) = (option_map AddrTCP (srcAddr q), proxyErr q).
Proof.
  intros p q. destruct os as [|o os].
  - cbn [afterAll fold_left].
    rewrite RemoteAddr_fresh, LocalAddr_fresh, ProxySourceAddr_fresh by reflexivity.
    now repeat split.
  - destruct (@after_fresh o p eq_refl) as (H1 & _ & H3 & H4).
    destruct (@afterAll_settled os (after o p) H1) as (K1 & _ & K3 & K4).
    change (afterAll os (after o p)) with (afterAll (o :: os) p) in *.
    set (p' := afterAll (o :: os) p) in *. fold q in H3, H4.
    destruct (checkPrefix_wrapped_conn c t use unk) as (_ & Hloc & Hrem).
    fold p q in Hloc, Hrem.
    assert (Hout : outcome p' = outcome q) by congruence.
    destruct (@outcome_fields p' q Hout) as (Es & Ed & Ee & Eu).
    assert (Hconn : sameConn (conn q) (conn p')) by (eapply sameConn_trans; eassumption).
    destruct Hconn as (Cl & Cr & _).
    rewrite RemoteAddr_settled, LocalAddr_settled, ProxySourceAddr_settled
      by assumption.
    rewrite Es, Ed, Ee, Eu, Cl, Cr, Hloc, Hrem. now repeat split.
Qed.

(** X1: when the source checker of the listener answers that the peer is
    not allowed, without error, [Accept] returns a wrapper whose
    [RemoteAddr] and [LocalAddr] are the underlying connection's own
    addresses, whatever the peer sends and whatever calls were made
    before. *)
Theorem untrusted_source_keeps_raw_addresses
    (l : Listener) (c : NetConn) (check : SourceChecker) (os : list call) :
  SourceCheck l = Some check ->
  check (connRemote c) = (false, None) ->
  exists p,
    Accept l (inl c) = inl p /\
    fst (RemoteAddr (afterAll os p)) = connRemote c /\
    fst (LocalAddr (afterAll os p)) = connLocal c.
Proof.
  intros Hl Hc.
  exists (wrapped c (ProxyHeaderTimeout l) true (UnknownOK l)).
  split.
  - rewrite Accept_wrapped, Hl, Hc. reflexivity.
  - destruct (addresses_afterAll c (ProxyHeaderTimeout l) true (UnknownOK l) os)
      as (HR & HL & _).
    rewrite HR, HL.
    rewrite (@checkPrefix_keeps_flag
               (wrapped c (ProxyHeaderTimeout l) true (UnknownOK l)) eq_refl).
    cbn [negb].
    split; [now destruct (srcAddr _) | now destruct (dstAddr _)].
Qed.

Lemma untrusted_source_keeps_raw_addresses_witness :
  let c := exampleConn (segment (str "PROXY TCP4 192.0.2.7 10.0.0.2 51234 443" ++ CRLF)) in
  exists p,
    Accept suspiciousListener (inl c) = inl p /\
    fst (RemoteAddr (afterAll [CallRead 16] p)) = connRemote c /\
    fst (LocalAddr (afterAll [CallRead 16] p)) = connLocal c.
Proof.
  intros c.
  exact (@untrusted_source_keeps_raw_addresses suspiciousListener c
           (fun _ => (false, None)) [CallRead 16] eq_refl eq_refl).
Defined.

(** ** The bytes of the fields the two parsers accept *)

Lemma digit_hexdigit (c : byte) : digit c <> None -> hexdigit c <> None.
Proof.
  unfold digit, hexdigit.
  destruct ((48 <=? N_of_ascii c) && (N_of_ascii c <=? 57))%N; [discriminate|].
  intros H. now exfalso.
Qed.

Lemma ipChar_plain (c : byte) :
  ipChar c -> c <> " "%char /\ c <> "010"%char.
Proof.
  intros [H|[-> | ->]]; split; try discriminate; intros ->; apply H; reflexivity.
Qed.

Lemma hexGroup_loop_digits : forall (s : gostring) (acc : N) (off : nat) (n : N) (c : nat),
  hexGroup_loop acc off s = Some (n, c) ->
  off <= c /\ c - off <= length s /\
  Forall (fun x => hexdigit x <> None) (firstn (c - off) s).
Proof.
  induction s as [|x s IH]; intros acc off n c H; cbn [hexGroup_loop] in H.
  - injection H as _ <-.
    rewrite Nat.sub_diag. repeat split; [lia | cbn; lia | constructor].
  - destruct (hexdigit x) as [d|] eqn:E.
    + destruct (3 <? off); [discriminate|].
      destruct (0xFFFF <? N.shiftl acc 4 + d)%N; [discriminate|].
      destruct (IH _ _ _ _ H) as (H1 & H2 & H3).
      replace (c - off) with (S (c - S off)) by lia.
      repeat split; [lia | cbn; lia |].
      cbn [firstn]. constructor; [congruence | exact H3].
    + injection H as _ <-.
      rewrite Nat.sub_diag. repeat split; [lia | cbn; lia | constructor].
Qed.

Lemma hexGroup_digits (s : gostring) (n : N) (c : nat) :
  hexGroup s = Some (n, c) -> Forall ipChar (firstn c s).
Proof.
  unfold hexGroup. intros H.
  destruct (hexGroup_loop 0 0 s) as [[acc off]|] eqn:E; [|discriminate].
  destruct (off =? 0); [discriminate|]. injection H as <- <-.
  destruct (@hexGroup_loop_digits s 0%N 0 acc off E) as (_ & _ & Hd).
  rewrite Nat.sub_0_r in Hd.
  eapply Forall_impl; [|exact Hd]. intros a Ha. now left.
Qed.

(** A group has one to four digits and its value fits 16 bits. *)
Lemma hexGroup_loop_bound : forall (s : gostring) (acc : N) (off : nat) (n : N) (c : nat),
  hexGroup_loop acc off s = Some (n, c) ->
  off <= 4 -> (acc <= 0xFFFF)%N -> c <= 4 /\ (n <= 0xFFFF)%N.
Proof.
  induction s as [|x s IH]; intros acc off n c H Hoff Hacc; cbn [hexGroup_loop] in H.
  - injection H as <- <-. now split.
  - destruct (hexdigit x) as [d|].
    + destruct (3 <? off) eqn:E3; [discriminate|]. apply Nat.ltb_ge in E3.
      destruct (0xFFFF <? N.shiftl acc 4 + d)%N eqn:Ev; [discriminate|].
      apply N.ltb_ge in Ev.
      apply (IH _ _ _ _ H); [lia | exact Ev].
    + injection H as <- <-. now split.
Qed.

Lemma hexGroup_bound (s : gostring) (n : N) (c : nat) :
  hexGroup s = Some (n, c) -> 1 <= c <= 4 /\ (n <= 0xFFFF)%N.
Proof.
  unfold hexGroup. intros H.
  destruct (hexGroup_loop 0 0 s) as [[acc off]|] eqn:E; [|discriminate].
  destruct (off =? 0) eqn:E0; [discriminate|]. injection H as <- <-.
  apply Nat.eqb_neq in E0.
  destruct (@hexGroup_loop_bound s 0%N 0 acc off E ltac:(lia) ltac:(lia)) as (H1 & H2).
  repeat split; [lia | exact H1 | exact H2].
Qed.

(** A group of five hexadecimal digits makes the literal invalid, zeros
    included. *)
Lemma ParseIP_long_group :
  ParseIP (str "2001:0db8:00000::7") = None /\
  ParseIP (str "::00001") = None /\
  ParseIP (str "00000::") = None /\
  ParseIP (str "2001:0db8:0000::7") <> None.
Proof. vm_compute. repeat split; discriminate. Qed.

(** A header that carries such a literal is rejected at the source address. *)
Lemma long_hex_group_header_rejected :
  let c := exampleConn
             (segment (str "PROXY TCP6 2001:0db8:00000::7 ::1 51234 443" ++ CRLF)) in
  rejected (checkPrefix (wrapped c 0 false false))
    (fmt_Errorf (str "Invalid source ip: 2001:0db8:00000::7")).
Proof. vm_compute. repeat split. Qed.

Lemma parseIPv4_ipChars (s : gostring) (ip : IP) :
  parseIPv4 s = Some ip -> Forall ipChar s.
Proof.
  intros H. destruct (@parseIPv4_plain s ip H) as (Hall & _).
  eapply Forall_impl; [|exact Hall].
  intros a [Ha| ->]; [left; now apply digit_hexdigit | right; now left].
Qed.

Lemma parseIPv6_loop_chars (fuel : nat) :
  forall (s : gostring) (ip : list N) (ell : option nat)
         (rest : gostring) (ip' : list N) (ell' : option nat),
  parseIPv6_loop fuel s ip ell = Some (rest, ip', ell') ->
  exists used, s = used ++ rest /\ Forall ipChar used.
Proof.
  induction fuel as [|f IH]; intros s ip ell rest ip' ell' H;
    cbn [parseIPv6_loop] in H.
  { injection H as <- _ _. exists []. split; [reflexivity | constructor]. }
  destruct (negb (length ip <? IPv6len)).
  { injection H as <- _ _. exists []. split; [reflexivity | constructor]. }
  destruct (hexGroup s) as [[n c]|] eqn:Ex; [|discriminate].
  pose proof (@hexGroup_digits s n c Ex) as Hhex.
  destruct ((c <? length s) && _).
  - (* a trailing IPv4 address *)
    match type of H with
    | (if ?b then _ else _) = _ => destruct b; [discriminate|]
    end.
    match type of H with
    | (if ?b then _ else _) = _ => destruct b; [discriminate|]
    end.
    destruct (parseIPv4 s) as [ip4|] eqn:E4; [|discriminate].
    injection H as <- _ _. exists s. rewrite app_nil_r.
    split; [reflexivity | eapply parseIPv4_ipChars; exact E4].
  - assert (Hs : s = firstn c s ++ skipn c s) by (symmetry; apply firstn_skipn).
    destruct (skipn c s) as [|x t] eqn:Esk.
    + injection H as <- _ _. exists (firstn c s).
      split; [exact Hs | exact Hhex].
    + destruct (Ascii.eqb x ":") eqn:Ecolon; cbn [negb orb] in H; [|discriminate].
      apply Ascii.eqb_eq in Ecolon. subst x.
      match type of H with
      | (if ?b then _ else _) = _ => destruct b; [discriminate|]
      end.
      destruct t as [|y t']; [discriminate|].
      destruct (Ascii.eqb y ":") eqn:Ey.
      * apply Ascii.eqb_eq in Ey. subst y.
        destruct ell; [discriminate|].
        destruct t' as [|z t''].
        -- injection H as <- _ _.
           exists (firstn c s ++ [":"%char; ":"%char]).
           rewrite app_nil_r. split; [exact Hs|].
           apply Forall_app. split; [exact Hhex|].
           repeat constructor; right; now right.
        -- destruct (IH _ _ _ _ _ _ H) as (used & Hu & Hall).
           exists (firstn c s ++ ":"%char :: ":"%char :: used).
           split.
           ++ rewrite Hs at 1. rewrite <- app_assoc. cbn [app]. now rewrite <- Hu.
           ++ apply Forall_app. split; [exact Hhex|].
              constructor; [right; now right|].
              constructor; [right; now right | exact Hall].
      * destruct (IH _ _ _ _ _ _ H) as (used & Hu & Hall).
        exists (firstn c s ++ ":"%char :: used).
        split.
        -- rewrite Hs at 1. rewrite <- app_assoc. cbn [app]. now rewrite <- Hu.
        -- apply Forall_app. split; [exact Hhex|].
           constructor; [right; now right | exact Hall].
Qed.

Lemma parseIPv6_ipChars (s : gostring) (ip : IP) :
  parseIPv6 s = Some ip -> Forall ipChar s.
Proof.
  unfold parseIPv6.
  assert (Hloop : forall s0 e0,
            match parseIPv6_loop (S IPv6len) s0 [] e0 with
            | None => None
            | Some (rest, ip1, ellipsis) =>
                match rest with
                | _ :: _ => None
                | [] =>
                    if length ip1 <? IPv6len
                    then match ellipsis with
                         | None => None
                         | Some e =>
                             Some (firstn e ip1 ++ repeat 0%N (IPv6len - length ip1)
                                     ++ skipn e ip1)
                         end
                    else match ellipsis with
                         | Some _ => None
                         | None => Some ip1
                         end
                end
            end = Some ip -> Forall ipChar s0).
  { intros s0 e0 H.
    destruct (parseIPv6_loop (S IPv6len) s0 [] e0) as [[[rest ip1] ell]|] eqn:E;
      [|discriminate].
    destruct rest; [|discriminate].
    destruct (@parseIPv6_loop_chars _ _ _ _ _ _ _ E) as (used & Hu & Hall).
    rewrite app_nil_r in Hu. now subst used. }
  destruct s as [|x [|y t]].
  - intros H. constructor.
  - intros H. now apply (Hloop [x] None).
  - destruct (Ascii.eqb x ":" && Ascii.eqb y ":") eqn:E.
    + apply andb_true_iff in E as (Ex & Ey).
      apply Ascii.eqb_eq in Ex, Ey. subst x y.
      intros H.
      assert (Ht : Forall ipChar t).
      { destruct t as [|z t']; [constructor|]. now apply (Hloop (z :: t') (Some 0)). }
      constructor; [right; now right|]. constructor; [right; now right | exact Ht].
    + intros H. now apply (Hloop (x :: y :: t) None).
Qed.

Lemma ParseIP_scan_cases (s : gostring) (ip : IP) : forall rest : gostring,
  ParseIP_scan s rest = Some ip -> parseIPv4 s = Some ip \/ parseIPv6 s = Some ip.
Proof.
  induction rest as [|c rest IH]; intros H; cbn [ParseIP_scan] in H; [discriminate|].
  destruct (Ascii.eqb c "."); [now left|].
  destruct (Ascii.eqb c ":"); [now right | now apply IH].
Qed.

(** A string [net.ParseIP] accepts holds neither a space nor a newline. *)
Lemma ParseIP_plain (s : gostring) (ip : IP) :
  ParseIP s = Some ip -> ~ In " "%char s /\ ~ In "010"%char s.
Proof.
  intros H. apply ParseIP_scan_cases in H.
  assert (Hall : Forall ipChar s).
  { destruct H as [H|H]; [eapply parseIPv4_ipChars | eapply parseIPv6_ipChars];
      exact H. }
  rewrite Forall_forall in Hall.
  split; intros Hin; apply Hall, ipChar_plain in Hin; destruct Hin; congruence.
Qed.

(** A literal with a zone is refused. *)
Lemma ParseIP_zone (s : gostring) : In "%"%char s -> ParseIP s = None.
Proof.
  intros Hin. destruct (ParseIP s) as [ip|] eqn:E; [|reflexivity].
  apply ParseIP_scan_cases in E.
  assert (Hall : Forall ipChar s).
  { destruct E as [H|H]; [eapply parseIPv4_ipChars | eapply parseIPv6_ipChars];
      exact H. }
  rewrite Forall_forall in Hall. apply Hall in Hin.
  destruct Hin as [H|[H|H]]; [now exfalso; apply H | discriminate | discriminate].
Qed.

(** A string [strconv.Atoi] accepts holds neither a space nor a newline. *)
Lemma Atoi_plain (s : gostring) (v : Z) :
  Atoi s = Some v -> ~ In " "%char s /\ ~ In "010"%char s.
Proof.
  unfold Atoi. intros H.
  assert (Hd : forall ds, (match ds with
                           | [] => None
                           | _ :: _ => match decimal 0 ds with
                                       | None => None
                                       | Some n => Some n
                                       end
                           end <> None) ->
                          ~ In " "%char ds /\ ~ In "010"%char ds).
  { intros ds Hds. destruct ds as [|a ds']; [now exfalso|].
    destruct (decimal 0 (a :: ds')) as [n|] eqn:E; [|now exfalso].
    pose proof (@decimal_digits _ _ _ E) as Hdig. rewrite Forall_forall in Hdig.
    split; intros Hin; apply Hdig in Hin; now apply digit_plain in Hin. }
  destruct s as [|c t]; [discriminate|].
  destruct (Ascii.eqb c "-") eqn:Em; [|destruct (Ascii.eqb c "+") eqn:Ep].
  - apply Ascii.eqb_eq in Em. subst c.
    destruct t as [|a t']; [discriminate|].
    destruct (decimal 0 (a :: t')) as [n|] eqn:E; [|discriminate].
    destruct (Hd (a :: t')) as (H1 & H2); [now rewrite E|].
    split; intros [Hc|Hin]; try discriminate; contradiction.
  - apply Ascii.eqb_eq in Ep. subst c.
    destruct t as [|a t']; [discriminate|].
    destruct (decimal 0 (a :: t')) as [n|] eqn:E; [|discriminate].
    destruct (Hd (a :: t')) as (H1 & H2); [now rewrite E|].
    split; intros [Hc|Hin]; try discriminate; contradiction.
  - destruct (decimal 0 (c :: t)) as [n|] eqn:E; [|discriminate].
    apply Hd. now rewrite E.
Qed.

(** ** Any header the two parsers accept *)

Lemma Split_header (family s1 s2 sp1 sp2 : gostring) :
  ~ In " "%char family ->
  ~ In " "%char s1 -> ~ In " "%char s2 -> ~ In " "%char sp1 -> ~ In " "%char sp2 ->
  Split (str "PROXY " ++ family ++ " "%char :: s1 ++ " "%char :: s2
           ++ " "%char :: sp1 ++ " "%char :: sp2) " "%char =
  [str "PROXY"; family; s1; s2; sp1; sp2].
Proof.
  intros H0 H1 H2 H3 H4.
  change (str "PROXY " ++ family ++ " "%char :: s1 ++ " "%char :: s2
            ++ " "%char :: sp1 ++ " "%char :: sp2)
    with (str "PROXY" ++ " "%char :: family ++ " "%char :: s1
            ++ " "%char :: s2 ++ " "%char :: sp1 ++ " "%char :: sp2).
  rewrite Split_app_sep.
  2:{ cbn. intros H. repeat (destruct H as [H|H]; [discriminate|]). exact H. }
  rewrite !Split_app_sep by assumption.
  now rewrite Split_nosep.
Qed.

Lemma family_plain (family : gostring) :
  family = str "TCP4" \/ family = str "TCP6" ->
  ~ In " "%char family /\ ~ In "010"%char family.
Proof.
  intros [-> | ->]; split; cbn; intros H;
    repeat (destruct H as [H|H]; [discriminate|]); exact H.
Qed.

(** X2: on a stream made of a TCP4 or TCP6 header line whose two
    addresses [net.ParseIP] accepts (IPv4 or IPv6 literals) and whose two
    ports [strconv.Atoi] accepts, then the payload, the parser returns nil;
    [ProxySourceAddr] reports the source of the header without error whether
    or not the header is trusted; [RemoteAddr] and [LocalAddr] answer with
    the addresses of the header when it is trusted and with the underlying
    connection's when it is not; and reading to the first failure returns
    exactly the payload. *)
Theorem accepted_header_resolves
    (c : NetConn) (t : Z) (use unk : bool) (family s1 s2 sp1 sp2 : gostring)
    (ip1 ip2 : IP) (p1 p2 : Z) (payload : list byte) :
  closed c = false ->
  family = str "TCP4" \/ family = str "TCP6" ->
  ParseIP s1 = Some ip1 -> ParseIP s2 = Some ip2 ->
  Atoi sp1 = Some p1 -> Atoi sp2 = Some p2 ->
  lead (incoming c) =
    (str "PROXY " ++ family ++ " "%char :: s1 ++ " "%char :: s2
       ++ " "%char :: sp1 ++ " "%char :: sp2) ++ CRLF ++ payload ->
  let p := wrapped c t use unk in
  let src := AddrTCP (mkTCPAddr ip1 p1) in
  let dst := AddrTCP (mkTCPAddr ip2 p2) in
  fst (checkPrefix p) = None /\
  closed (conn (snd (checkPrefix p))) = false /\
  fst (ProxySourceAddr p) = (Some src, None) /\
  fst (RemoteAddr p) = (if use then connRemote c else src) /\
  fst (LocalAddr p) = (if use then connLocal c else dst) /\
  (forall n fuel, 0 < n -> length payload < fuel ->
     fst (drain fuel n p) = (payload, Some (nextErr (incoming c))) /\
     fst (drain fuel n (snd (ProxySourceAddr p))) =
       (payload, Some (nextErr (incoming c)))).
Proof.
  intros Hopen Hfam Hip1 Hip2 Hp1 Hp2 Hs p src dst.
  set (body := str "PROXY " ++ family ++ " "%char :: s1 ++ " "%char :: s2
                 ++ " "%char :: sp1 ++ " "%char :: sp2) in *.
  destruct (@family_plain family Hfam) as (Hsp0 & Hnl0).
  destruct (@ParseIP_plain s1 ip1 Hip1) as (Hsp1 & Hnl1).
  destruct (@ParseIP_plain s2 ip2 Hip2) as (Hsp2 & Hnl2).
  destruct (@Atoi_plain sp1 p1 Hp1) as (Hsp3 & Hnl3).
  destruct (@Atoi_plain sp2 p2 Hp2) as (Hsp4 & Hnl4).
  assert (Hbody : ~ In "010"%char body).
  { unfold body. apply notin_app.
    { cbn. intros H. repeat (destruct H as [H|H]; [discriminate|]). exact H. }
    apply notin_app; [exact Hnl0|]. apply notin_cons; [discriminate|].
    apply notin_app; [exact Hnl1|]. apply notin_cons; [discriminate|].
    apply notin_app; [exact Hnl2|]. apply notin_cons; [discriminate|].
    apply notin_app; [exact Hnl3|]. apply notin_cons; [discriminate|].
    exact Hnl4. }
  destruct (@line_in_stream body payload Hbody) as (Hidx & Hline & Hrest & Hstrip).
  pose proof (@wrapped_readable c t use unk Hopen) as Hr. fold p in Hr.
  rewrite Hs in Hr.
  assert (Hagree : agree prefix (body ++ CRLF ++ payload) = Same) by reflexivity.
  destruct (@checkPrefix_line p _ _ _ Hr Hagree Hidx) as (q & Hq & Hrq & Ho & Hu).
  rewrite Hrest in Hrq.
  assert (Hparts : Split (stripEnd (body ++ CRLF)) " "%char =
                   [str "PROXY"; family; s1; s2; sp1; sp2]).
  { rewrite Hstrip. now apply Split_header. }
  pose proof (@parseHeader_fields (body ++ CRLF) q) as Hph.
  rewrite Hparts in Hph. specialize (Hph eq_refl Hfam).
  cbn [part nth] in Hph.
  rewrite Hip1, Hip2, Hp1, Hp2 in Hph. cbv zeta in Hph.
  set (q' := set_dstAddr (Some (mkTCPAddr ip2 p2))
               (set_srcAddr (Some (mkTCPAddr ip1 p1)) q)) in Hph.
  set (q'' := disarm (proxyHeaderTimeout p) q').
  assert (Hcp : checkPrefix p = (None, q'')).
  { rewrite Hq.
    exact (f_equal (fun r : option error * Conn =>
                      let '(ret, x) := r in (ret, disarm (proxyHeaderTimeout p) x))
                   (eq_trans (f_equal (fun l => parseHeader l q) Hline) Hph)). }
  assert (Hrq'' : readable q'' payload (afterLead (incoming c))).
  { apply disarm_readable. exact Hrq. }
  destruct (@outcome_fields q'' q' (disarm_outcome _ _)) as (Hsrc & Hdst & Herr & Huse).
  destruct (@outcome_fields q p Ho) as (_ & _ & Ee' & Eu').
  cbn [srcAddr dstAddr proxyErr useConnAddr set_dstAddr set_srcAddr q'] in
    Hsrc, Hdst, Herr, Huse.
  rewrite Ee' in Herr. rewrite Eu' in Huse.
  cbn [proxyErr useConnAddr wrapped set_unknownOK set_useConnAddr NewConn p] in Herr, Huse.
  assert (Hcpo : checkPrefixOnce p = set_once true q'')
    by now apply checkPrefixOnce_after_parse.
  rewrite Hcp. cbn [fst snd].
  split; [reflexivity|]. split; [apply Hrq''|]. split; [|split; [|split]].
  - rewrite ProxySourceAddr_fresh by reflexivity. rewrite Hcp. cbn [snd].
    now rewrite Hsrc, Herr.
  - rewrite RemoteAddr_fresh by reflexivity. rewrite Hcp. cbn [snd].
    rewrite Hsrc, Huse. now destruct use.
  - rewrite LocalAddr_fresh by reflexivity. rewrite Hcp. cbn [snd].
    rewrite Hdst, Huse. now destruct use.
  - intros n fuel Hn Hfuel.
    destruct (@drain_after_parse n fuel p q'' payload (afterLead (incoming c))
                Hn eq_refl Hcp Hrq'' Hfuel) as (D1 & D2).
    rewrite nextErr_errOf. split; [exact D1|].
    rewrite ProxySourceAddr_state. exact D2.
Qed.

Lemma accepted_header_resolves_witness :
  let c := exampleConn
             (segment (str "PROXY TCP6 2001:db8::7 ::ffff:10.0.0.2 51234 443" ++ CRLF)
              ++ segment (str "GET / HTTP/1.1")) in
  fst (ProxySourceAddr (wrapped c 0 true false)) =
    (Some (AddrTCP (mkTCPAddr [0x20; 0x01; 0x0d; 0xb8; 0; 0; 0; 0;
                               0; 0; 0; 0; 0; 0; 0; 7]%N 51234)), None).
Proof.
  intros c.
  refine (proj1 (proj2 (proj2
    (@accepted_header_resolves c 0 true false (str "TCP6")
       (str "2001:db8::7") (str "::ffff:10.0.0.2") (str "51234") (str "443")
       _ (IPv4 10 0 0 2) 51234 443 (str "GET / HTTP/1.1") _ _ _ _ _ _ _)))).
  - reflexivity.
  - right. reflexivity.
  - reflexivity.
  - reflexivity.
  - reflexivity.
  - reflexivity.
  - reflexivity.
Defined.

(** ** An UNKNOWN header *)

(** X3: on a stream made of the line [PROXY UNKNOWN], any byte but a
    newline, a newline, and then the payload: when the wrapper accepts
    UNKNOWN the parser returns nil, the addresses are the underlying
    connection's own and reading to the first failure returns exactly the
    payload; when it does not, the parser closes the connection and the
    [Read] that ran it returns the error naming the line, with no data. *)
Theorem unknown_header_passes_payload
    (c : NetConn) (t : Z) (use unk : bool) (x : byte) (payload : list byte) :
  closed c = false ->
  x <> "010"%char ->
  lead (incoming c) = str "PROXY UNKNOWN" ++ x :: "010"%char :: payload ->
  let p := wrapped c t use unk in
  (unk = true ->
   fst (checkPrefix p) = None /\
   fst (RemoteAddr p) = connRemote c /\
   fst (LocalAddr p) = connLocal c /\
   forall n fuel, 0 < n -> length payload < fuel ->
     fst (drain fuel n p) = (payload, Some (nextErr (incoming c))) /\
     fst (drain fuel n (snd (RemoteAddr p))) = (payload, Some (nextErr (incoming c))))
  /\
  (unk = false ->
   rejected (checkPrefix p)
     (fmt_Errorf (str "invalid UNKNOWN header line: PROXY UNKNOWN")) /\
   forall n,
     fst (Read n p) =
       ([], Some (fmt_Errorf (str "invalid UNKNOWN header line: PROXY UNKNOWN")))).
Proof.
  intros Hopen Hx Hs p.
  pose proof (@wrapped_readable c t use unk Hopen) as Hr. fold p in Hr.
  rewrite Hs in Hr.
  assert (Hagree : agree prefix (str "PROXY UNKNOWN" ++ x :: "010"%char :: payload)
                   = Same) by reflexivity.
  assert (Hidx : IndexByte (str "PROXY UNKNOWN" ++ x :: "010"%char :: payload)
                   "010"%char = Some 14).
  { rewrite (@IndexByte_app_r (str "PROXY UNKNOWN") (x :: "010"%char :: payload)
               "010"%char eq_refl).
    cbn [IndexByte]. apply Ascii.eqb_neq in Hx. rewrite Hx. reflexivity. }
  destruct (@checkPrefix_line p _ _ 14 Hr Hagree Hidx) as (q & Hq & Hrq & Ho & Hu).
  change (firstn 15 (str "PROXY UNKNOWN" ++ x :: "010"%char :: payload))
    with (str "PROXY UNKNOWN" ++ [x; "010"%char]) in Hq.
  change (skipn 15 (str "PROXY UNKNOWN" ++ x :: "010"%char :: payload))
    with payload in Hrq.
  assert (Hunk : unknownOK q = unk) by (destruct Hu as (_ & _ & Hk & _); exact Hk).
  split.
  - intros ->.
    assert (Hcp : checkPrefix p =
                  (None, disarm (proxyHeaderTimeout p) (set_useConnAddr true q))).
    { exact (eq_trans Hq
               (f_equal (fun r : option error * Conn =>
                           let '(ret, q') := r in
                           (ret, disarm (proxyHeaderTimeout p) q'))
                        (@parseHeader_unknown x q Hunk))). }
    set (q' := disarm (proxyHeaderTimeout p) (set_useConnAddr true q)) in *.
    assert (Hrq' : readable q' payload (afterLead (incoming c)))
      by (apply disarm_readable; exact Hrq).
    destruct (@outcome_fields q' (set_useConnAddr true q) (disarm_outcome _ _))
      as (_ & _ & _ & Huse).
    cbn [useConnAddr set_useConnAddr] in Huse.
    rewrite Hcp. cbn [fst]. split; [reflexivity|].
    split; [|split].
    + rewrite RemoteAddr_fresh by reflexivity. rewrite Hcp. cbn [snd].
      rewrite Huse. now destruct (srcAddr q').
    + rewrite LocalAddr_fresh by reflexivity. rewrite Hcp. cbn [snd].
      rewrite Huse. now destruct (dstAddr q').
    + intros n fuel Hn Hfuel.
      destruct (@drain_after_parse n fuel p q' payload (afterLead (incoming c))
                  Hn eq_refl Hcp Hrq' Hfuel) as (D1 & D2).
      rewrite nextErr_errOf. split; [exact D1|].
      rewrite RemoteAddr_state. exact D2.
  - intros ->.
    assert (Hph : parseHeader (str "PROXY UNKNOWN" ++ [x; "010"%char]) q =
                  fail (fmt_Errorf (str "invalid UNKNOWN header line: PROXY UNKNOWN")) q).
    { pose proof (@parseHeader_UNKNOWN (str "PROXY UNKNOWN" ++ [x; "010"%char]) q) as H.
      cbv zeta in H.
      change (stripEnd (str "PROXY UNKNOWN" ++ [x; "010"%char]))
        with (str "PROXY UNKNOWN") in H.
      change (Split (str "PROXY UNKNOWN") " "%char)
        with [str "PROXY"; str "UNKNOWN"] in H.
      specialize (H ltac:(cbn; lia) eq_refl). rewrite Hunk in H. exact H. }
    assert (Hrej : rejected (checkPrefix p)
                     (fmt_Errorf (str "invalid UNKNOWN header line: PROXY UNKNOWN"))).
    { assert (Hcp : checkPrefix p =
                    (let '(ret, q') :=
                       fail (fmt_Errorf
                               (str "invalid UNKNOWN header line: PROXY UNKNOWN")) q in
                     (ret, disarm (proxyHeaderTimeout p) q'))).
      { exact (eq_trans Hq
                 (f_equal (fun r : option error * Conn =>
                             let '(ret, q') := r in
                             (ret, disarm (proxyHeaderTimeout p) q')) Hph)). }
      rewrite Hcp. apply disarm_rejected, fail_rejected. }
    split; [exact Hrej|].
    intros n. destruct Hrej as (Hret & _).
    destruct (checkPrefix p) as [ret q''] eqn:Ecp. cbn [fst] in Hret. subst ret.
    now rewrite (@Read_fresh_error n p q'' _ eq_refl Ecp).
Qed.

Lemma unknown_header_passes_payload_witness :
  let c := exampleConn (segment (str "PROXY UNKNOWN" ++ CRLF ++ str "hello")) in
  fst (RemoteAddr (wrapped c 0 false true)) = connRemote c.
Proof.
  intros c.
  refine (proj1 (proj2 (proj1
    (@unknown_header_passes_payload c 0 false true "013"%char (str "hello")
       _ _ _) _))).
  - reflexivity.
  - discriminate.
  - reflexivity.
  - reflexivity.
Defined.

(** ** A stream that ends inside the signature *)

(** X4: when the peer closes after sending only a proper prefix of the
    signature (nothing at all included), the [Read] that runs the parser
    returns [io.EOF] and no data although bytes were received; they are not
    lost: the [Read] calls that follow return them before [io.EOF] comes
    again.  An address accessor that runs the parser answers with the
    underlying connection's address, leaves the connection open and the
    same bytes readable. *)
Theorem short_stream_reports_EOF_first
    (c : NetConn) (t : Z) (use unk : bool) :
  closed c = false ->
  afterLead (incoming c) = [] ->
  let p := wrapped c t use unk in
  let s := lead (incoming c) in
  length s < prefixLen -> s = firstn (length s) prefix ->
  (forall n, fst (Read n p) = ([], Some io_EOF)) /\
  (forall m n fuel, 0 < n -> length s < fuel ->
     fst (drain fuel n (snd (Read m p))) = (s, Some io_EOF)) /\
  fst (RemoteAddr p) = connRemote c /\
  closed (conn (snd (RemoteAddr p))) = false /\
  (forall n fuel, 0 < n -> length s < fuel ->
     fst (drain fuel n (snd (RemoteAddr p))) = (s, Some io_EOF)).
Proof.
  intros Hopen Htl p s Hlen Hs.
  pose proof (@wrapped_readable c t use unk Hopen) as Hr. fold p s in Hr.
  rewrite Htl in Hr.
  assert (Hagree : agree prefix s = Short) by now apply agree_short.
  destruct (@checkPrefix_short p s [] Hr Hagree) as (q & Hq & Hrq & Ho).
  cbn [errOf tl is_net_timeout is_EOF lead afterLead] in Hq, Hrq, Ho.
  rewrite app_nil_r in Hrq.
  destruct Hrq as (Hqopen & Hqerr & Hqs & Hqtl).
  assert (Hd : forall n fuel, 0 < n -> length s < fuel ->
                 fst (drain fuel n (set_once true q)) = (s, Some io_EOF)).
  { intros n fuel Hn Hfuel.
    rewrite drain_settled; try assumption; try reflexivity.
    - cbn [fst]. change (bufReader (set_once true q)) with (bufReader q).
      change (conn (set_once true q)) with (conn q).
      now rewrite Hqs, nextErr_errOf, Hqtl.
    - change (bufReader (set_once true q)) with (bufReader q).
      change (conn (set_once true q)) with (conn q). now rewrite Hqs. }
  assert (Hcpo : checkPrefixOnce p = set_once true q).
  { rewrite checkPrefixOnce_fresh by reflexivity. rewrite Hq. reflexivity. }
  unfold outcome in Ho. injection Ho as Es _ _ _.
  split; [|split; [|split; [|split]]].
  - intros n. now rewrite (@Read_fresh_error n p q io_EOF eq_refl Hq).
  - intros m n fuel Hn Hfuel.
    rewrite (@Read_fresh_error m p q io_EOF eq_refl Hq). cbn [snd]. now apply Hd.
  - rewrite RemoteAddr_fresh by reflexivity. rewrite Hq. cbn [snd].
    now rewrite Es.
  - rewrite RemoteAddr_state, Hcpo. exact Hqopen.
  - intros n fuel Hn Hfuel. rewrite RemoteAddr_state, Hcpo. now apply Hd.
Qed.

Lemma short_stream_reports_EOF_first_witness :
  let c := exampleConn (segment (str "PRO")) in
  fst (drain 8 4 (snd (Read 16 (wrapped c 0 false false)))) = (str "PRO", Some io_EOF).
Proof.
  intros c.
  refine (proj1 (proj2
    (@short_stream_reports_EOF_first c 0 false false _ _ _ _)) 16 4 8 _ _).
  - reflexivity.
  - reflexivity.
  - apply Nat.ltb_lt. reflexivity.
  - reflexivity.
  - lia.
  - cbn. lia.
Defined.

(** ** When the destination address is stored, when the connection is closed *)

Lemma scanPrefix_matched_err (k : nat) : forall (i : nat) (p p' : Conn),
  scanPrefix k i p = (Matched, p') -> proxyErr p' = proxyErr p.
Proof.
  induction k as [|k IH]; intros i p p' H; cbn [scanPrefix] in H.
  - now injection H as <-.
  - destruct (Peek i (bufReader p) (conn p)) as [[inp err] [r c]].
    destruct err as [e|].
    + destruct (is_net_timeout e); discriminate.
    + destruct (negb _); [discriminate|].
      now rewrite (IH _ _ _ H).
Qed.

Lemma disarm_dstAddr (t : Z) (p : Conn) : dstAddr (disarm t p) = dstAddr p.
Proof. unfold disarm. now destruct (t =? 0)%Z. Qed.

Lemma disarm_srcAddr (t : Z) (p : Conn) : srcAddr (disarm t p) = srcAddr p.
Proof. unfold disarm. now destruct (t =? 0)%Z. Qed.

Lemma parseHeader_dst (line : gostring) (q : Conn) (a : TCPAddr) :
  dstAddr q = None ->
  dstAddr (snd (parseHeader line q)) = Some a ->
  fst (parseHeader line q) = None /\
  proxyErr (snd (parseHeader line q)) = proxyErr q /\
  exists b, srcAddr (snd (parseHeader line q)) = Some b.
Proof.
  intros Hq. unfold parseHeader.
  repeat match goal with
         | |- dstAddr (snd (if ?b then _ else _)) = _ -> _ => destruct b
         | |- dstAddr (snd (match ?x with Some _ => _ | None => _ end)) = _ -> _ =>
             destruct x
         end;
    cbn [fst snd fail dstAddr srcAddr proxyErr set_proxyErr close_conn set_conn
         set_reader set_srcAddr set_dstAddr set_useConnAddr];
    intros H; try congruence.
  repeat split. eexists; reflexivity.
Qed.

(** X5: [LocalAddr] answers with something else than the underlying
    connection's address only when the header was parsed to its end: the
    parser returned nil and stored no error, and [ProxySourceAddr] reports a
    source address without error. *)
Theorem LocalAddr_from_header_only_when_valid
    (c : NetConn) (t : Z) (use unk : bool) :
  let p := wrapped c t use unk in
  fst (LocalAddr p) <> connLocal c ->
  fst (checkPrefix p) = None /\
  exists b, fst (ProxySourceAddr p) = (Some (AddrTCP b), None).
Proof.
  intros p Hne.
  rewrite LocalAddr_fresh in Hne by reflexivity.
  rewrite ProxySourceAddr_fresh by reflexivity.
  destruct (dstAddr (snd (checkPrefix p))) as [a|] eqn:Ed; [|now exfalso].
  clear Hne. revert Ed. rewrite checkPrefix_arm.
  assert (Ha : dstAddr (arm p) = None /\ proxyErr (arm p) = None).
  { destruct (@outcome_fields (arm p) p (arm_outcome p)) as (_ & E1 & E2 & _).
    now rewrite E1, E2. }
  destruct Ha as (Had & Hae).
  unfold checkPrefixBody.
  destruct (scanPrefix_keeps prefixLen 1 (arm p)) as (_ & Hsd & _).
  pose proof (@scanPrefix_matched_err prefixLen 1 (arm p)) as Hse.
  destruct (scanPrefix prefixLen 1 (arm p)) as [[|ret] p1]; cbn [snd] in Hsd.
  - specialize (Hse p1 eq_refl).
    destruct (ReadString "010"%char (bufReader p1) (conn p1)) as [[header err] [r c']].
    destruct err as [e|].
    + cbn [fst snd]. rewrite disarm_dstAddr.
      unfold close_conn, set_conn, set_reader, set_proxyErr. cbn [dstAddr].
      intros Ed. congruence.
    + pose proof (@parseHeader_dst header (set_reader r c' p1) a) as Hph.
      destruct (parseHeader header (set_reader r c' p1)) as [ret q'].
      cbn [fst snd] in *. rewrite disarm_dstAddr, disarm_srcAddr, disarm_proxyErr.
      intros Ed.
      destruct (Hph ltac:(cbn [dstAddr set_reader]; congruence) Ed) as (Hret & Herr & b & Hb).
      split; [exact Hret|]. exists b. rewrite Hb, Herr.
      cbn [option_map proxyErr set_reader]. f_equal. congruence.
  - cbn [fst snd]. rewrite disarm_dstAddr. intros Ed. congruence.
Qed.

Lemma LocalAddr_from_header_only_when_valid_witness :
  let c := exampleConn (segment (str "PROXY TCP4 192.0.2.7 10.0.0.2 51234 443" ++ CRLF)) in
  fst (checkPrefix (wrapped c 0 false false)) = None.
Proof.
  intros c.
  refine (proj1 (@LocalAddr_from_header_only_when_valid c 0 false false _)).
  vm_compute. discriminate.
Defined.

Lemma parseHeader_closed (line : gostring) (q : Conn) :
  closed (conn q) = false ->
  closed (conn (snd (parseHeader line q))) =
  match fst (parseHeader line q) with Some _ => true | None => false end.
Proof.
  intros Hq. unfold parseHeader.
  repeat match goal with
         | |- closed (conn (snd (if ?b then _ else _))) = _ => destruct b
         | |- closed (conn (snd (match ?x with Some _ => _ | None => _ end))) = _ =>
             destruct x
         end;
    cbn [fst snd fail]; try exact Hq;
    unfold close_conn; cbn [conn set_proxyErr set_conn set_reader set_srcAddr];
    apply conn_Close_closed.
Qed.

(** X6: the parser closes the underlying connection exactly when the
    stream starts with the whole signature and the parser returns an error;
    a stream that does not start with the signature never gets its
    connection closed by the parser, whatever error the reads met. *)
Theorem closes_only_after_signature (c : NetConn) (t : Z) (use unk : bool) :
  closed c = false ->
  let p := wrapped c t use unk in
  closed (conn (snd (checkPrefix p))) = true <->
  (firstn prefixLen (lead (incoming c)) = prefix /\ fst (checkPrefix p) <> None).
Proof.
  intros Hopen p.
  pose proof (@wrapped_readable c t use unk Hopen) as Hr. fold p in Hr.
  set (s := lead (incoming c)) in *.
  destruct (agree prefix s) eqn:Hagree.
  - assert (Hpre : firstn prefixLen s = prefix).
    { apply agree_same_inv in Hagree as (t' & ->).
      change prefixLen with (length prefix + 0).
      rewrite firstn_app_exact. cbn [firstn]. apply app_nil_r. }
    destruct (IndexByte s "010"%char) as [i|] eqn:Hidx.
    + destruct (@checkPrefix_line p s _ i Hr Hagree Hidx) as (q & Hq & Hrq & _ & _).
      rewrite Hq.
      pose proof (@parseHeader_closed (firstn (S i) s) q ltac:(apply Hrq)) as Hc.
      destruct (parseHeader (firstn (S i) s) q) as [ret q'].
      cbn [fst snd] in *. rewrite disarm_closed, Hc.
      destruct ret as [e|].
      * split; [|reflexivity]. intros _. split; [exact Hpre | discriminate].
      * split; [discriminate|]. intros (_ & H). now exfalso.
    + destruct (@checkPrefix_noline p s _ Hr Hagree Hidx) as (q & Hq & Hcl & _).
      rewrite Hq. cbn [fst snd]. split; [|intros _; exact Hcl].
      intros _. split; [exact Hpre | discriminate].
  - destruct (@checkPrefix_differs p s _ Hr Hagree) as (q & Hq & Hrq & _).
    rewrite Hq. cbn [fst snd]. destruct Hrq as (Hqo & _). rewrite Hqo.
    split; [discriminate|]. intros (_ & H). now exfalso.
  - destruct (@checkPrefix_short p s _ Hr Hagree) as (q & Hq & Hrq & _).
    rewrite Hq. cbn [fst snd]. destruct Hrq as (Hqo & _). rewrite Hqo.
    split; [discriminate|]. intros (Hpre & _). exfalso.
    rewrite (@firstn_prefix_agree s Hpre) in Hagree. discriminate.
Qed.

Lemma closes_only_after_signature_witness :
  let c := exampleConn (segment (str "PROXY FOO" ++ CRLF)) in
  closed (conn (snd (checkPrefix (wrapped c 0 false false)))) = true.
Proof.
  intros c.
  apply (proj2 (@closes_only_after_signature c 0 false false eq_refl)).
  split; [reflexivity | vm_compute; discriminate].
Defined.

(** ** What [checkPrefixOnce] adds to the parser *)

Lemma checkPrefix_logged (p : Conn) : logged (snd (checkPrefix p)) = logged p.
Proof.
  destruct (checkPrefix_untouched p) as (_ & _ & _ & H & _). exact H.
Qed.

Lemma after_settled_logged (o : call) (p : Conn) :
  once p = true -> logged (after o p) = logged p.
Proof.
  intros H. destruct o as [n| | |]; cbn [after].
  - rewrite Read_settled by exact H.
    now destruct (Reader_Read n (bufReader p) (conn p)) as [res [r c]].
  - now rewrite LocalAddr_state, checkPrefixOnce_settled.
  - now rewrite RemoteAddr_state, checkPrefixOnce_settled.
  - now rewrite ProxySourceAddr_state, checkPrefixOnce_settled.
Qed.

Lemma afterAll_settled_logged (os : list call) : forall (p : Conn),
  once p = true -> logged (afterAll os p) = logged p.
Proof.
  induction os as [|o os IH]; intros p H; [reflexivity|].
  change (afterAll (o :: os) p) with (afterAll os (after o p)).
  rewrite IH by apply (after_settled o p H).
  now apply after_settled_logged.
Qed.

Lemma checkPrefixOnce_logged (p : Conn) :
  once p = false ->
  logged (checkPrefixOnce p) =
  logged p ++ match fst (checkPrefix p) with
              | Some e => if is_EOF e then [] else [e]
              | None => []
              end.
Proof.
  intros H. rewrite checkPrefixOnce_fresh by exact H.
  pose proof (checkPrefix_logged p) as Hl.
  destruct (checkPrefix p) as [[e|] q]; cbn [fst snd] in *.
  - unfold recover. destruct (is_EOF e); cbn [negb].
    + cbn [logged set_once]. now rewrite app_nil_r.
    + cbn [logged set_once set_reader close_conn set_conn log_Printf]. now rewrite Hl.
  - cbn [recover logged set_once]. now rewrite app_nil_r.
Qed.

(** X7: the error of the header parser is written to the log only by the
    address accessors, and only when it is not [io.EOF]: the call that runs
    the parser adds that one entry or none, a [Read] that runs it adds
    none, and no later call adds any. *)
Theorem parse_error_logged_by_accessors_only (p : Conn) (o : call) :
  once p = false ->
  logged (after o p) =
    logged p ++ match o, fst (checkPrefix p) with
                | CallRead _, _ => []
                | _, Some e => if is_EOF e then [] else [e]
                | _, None => []
                end /\
  forall os, logged (afterAll os (after o p)) = logged (after o p).
Proof.
  intros H. split.
  - destruct o as [n| | |]; cbn [after].
    + rewrite Read_fresh by exact H.
      pose proof (checkPrefix_logged p) as Hl.
      destruct (checkPrefix p) as [[e|] q]; cbn [fst snd] in *.
      * cbn [logged set_once]. now rewrite app_nil_r.
      * destruct (Reader_Read n (bufReader q) (conn q)) as [res [r c]].
        cbn [snd logged set_reader set_once]. now rewrite app_nil_r.
    + rewrite LocalAddr_state, (@checkPrefixOnce_logged p H).
      now destruct (fst (checkPrefix p)).
    + rewrite RemoteAddr_state, (@checkPrefixOnce_logged p H).
      now destruct (fst (checkPrefix p)).
    + rewrite ProxySourceAddr_state, (@checkPrefixOnce_logged p H).
      now destruct (fst (checkPrefix p)).
  - intros os. apply afterAll_settled_logged. apply (after_fresh o p H).
Qed.

Lemma parse_error_logged_by_accessors_only_witness :
  let p := wrapped (exampleConn (segment (str "PROXY FOO" ++ CRLF))) 0 false false in
  logged (after CallRemoteAddr p) =
    [fmt_Errorf (str "Unhandled address type: FOO")] /\
  logged (after (CallRead 16) p) = [].
Proof.
  intros p. split.
  - exact (proj1 (@parse_error_logged_by_accessors_only p CallRemoteAddr eq_refl)).
  - exact (proj1 (@parse_error_logged_by_accessors_only p (CallRead 16) eq_refl)).
Defined.

Lemma Reader_Read_closed (n : nat) (c : NetConn) :
  closed c = true ->
  Reader_Read n NewReader c =
    (([], match n with 0 => None | S _ => Some net_ErrClosed end), (NewReader, c)).
Proof.
  intros H. destruct n as [|n]; [reflexivity|].
  unfold Reader_Read, NewReader, conn_Read. cbn [buf rerr]. rewrite H.
  destruct (defaultBufSize <=? S n); reflexivity.
Qed.

Lemma after_reset (o : call) (q : Conn) :
  once q = true -> closed (conn q) = true -> bufReader q = NewReader ->
  once (after o q) = true /\ closed (conn (after o q)) = true /\
  bufReader (after o q) = NewReader.
Proof.
  intros Ho Hc Hb. destruct o as [n| | |]; cbn [after].
  - rewrite Read_settled by exact Ho. rewrite Hb, (@Reader_Read_closed n (conn q) Hc).
    cbn [snd once conn bufReader set_reader]. now repeat split.
  - rewrite LocalAddr_state, checkPrefixOnce_settled by exact Ho. now repeat split.
  - rewrite RemoteAddr_state, checkPrefixOnce_settled by exact Ho. now repeat split.
  - rewrite ProxySourceAddr_state, checkPrefixOnce_settled by exact Ho. now repeat split.
Qed.

Lemma afterAll_reset (os : list call) : forall (q : Conn),
  once q = true -> closed (conn q) = true -> bufReader q = NewReader ->
  once (afterAll os q) = true /\ closed (conn (afterAll os q)) = true /\
  bufReader (afterAll os q) = NewReader.
Proof.
  induction os as [|o os IH]; intros q Ho Hc Hb; [now repeat split|].
  change (afterAll (o :: os) q) with (afterAll os (after o q)).
  destruct (@after_reset o q Ho Hc Hb) as (Ho' & Hc' & Hb').
  now apply IH.
Qed.

Lemma checkPrefixOnce_reset (p : Conn) (e : error) :
  once p = false -> fst (checkPrefix p) = Some e -> is_EOF e = false ->
  once (checkPrefixOnce p) = true /\ closed (conn (checkPrefixOnce p)) = true /\
  bufReader (checkPrefixOnce p) = NewReader.
Proof.
  intros H He Heof. rewrite checkPrefixOnce_fresh by exact H.
  destruct (checkPrefix p) as [ret q]. cbn [fst] in He. subst ret.
  unfold recover. rewrite Heof. cbn [negb].
  cbn [once conn bufReader set_once set_reader]. repeat split.
  unfold close_conn. cbn [conn set_conn set_reader]. apply conn_Close_closed.
Qed.

(** X8: when an address accessor runs the parser and the parser returns an
    error other than [io.EOF], the accessor closes the connection and
    replaces the reader, so the bytes already buffered are dropped: whatever
    calls follow, the connection stays closed and every [Read] into a
    buffer that is not empty returns no data and the error of a closed
    connection. *)
Theorem accessor_error_discards_stream (p : Conn) (o : call) (e : error) :
  once p = false -> (forall n, o <> CallRead n) ->
  fst (checkPrefix p) = Some e -> is_EOF e = false ->
  forall (os : list call) (n : nat), 0 < n ->
    let q := afterAll os (after o p) in
    closed (conn q) = true /\ fst (Read n q) = ([], Some net_ErrClosed).
Proof.
  intros H Hacc He Heof os n Hn q.
  assert (Hst : after o p = checkPrefixOnce p).
  { destruct o as [m| | |]; cbn [after].
    - now exfalso; apply (Hacc m).
    - apply LocalAddr_state.
    - apply RemoteAddr_state.
    - apply ProxySourceAddr_state. }
  destruct (@checkPrefixOnce_reset p e H He Heof) as (Ho & Hc & Hb).
  rewrite <- Hst in Ho, Hc, Hb.
  destruct (@afterAll_reset os (after o p) Ho Hc Hb) as (Ho' & Hc' & Hb').
  fold q in Ho', Hc', Hb'. split; [exact Hc'|].
  rewrite Read_settled by exact Ho'. rewrite Hb', (@Reader_Read_closed n (conn q) Hc').
  destruct n as [|n]; [lia|reflexivity].
Qed.

Lemma accessor_error_discards_stream_witness :
  let p := wrapped (exampleConn (segment (str "PROXY FOO" ++ CRLF ++ str "hello")))
                   0 false false in
  let q := afterAll [CallRead 16; CallLocalAddr] (after CallRemoteAddr p) in
  closed (conn q) = true /\ fst (Read 16 q) = ([], Some net_ErrClosed).
Proof.
  intros p.
  assert (He : fst (checkPrefix p) =
               Some (fmt_Errorf (str "Unhandled address type: FOO")))
    by (vm_compute; reflexivity).
  assert (Hacc : forall n, CallRemoteAddr <> CallRead n) by (intros n; discriminate).
  exact (@accessor_error_discards_stream p CallRemoteAddr _
           eq_refl Hacc He eq_refl [CallRead 16; CallLocalAddr] 16 ltac:(lia)).
Defined.

(** ** A wrapper closed before its first use *)

Lemma Peek_closed (c : NetConn) :
  closed c = true ->
  Peek 1 NewReader c = (([], Some net_ErrClosed), (NewReader, c)).
Proof.
  intros H. unfold Peek. cbn [peekFill]. unfold NewReader at 1 2 3. cbn [buf rerr length].
  assert (E1 : (0 <? 1) = true) by reflexivity.
  assert (E2 : (0 <? defaultBufSize) = true)
    by (apply Nat.ltb_lt, defaultBufSize_pos).
  assert (E3 : (defaultBufSize <? 1) = false).
  { apply Nat.ltb_ge. pose proof defaultBufSize_pos. lia. }
  rewrite E1, E2. cbn [andb].
  rewrite (@fill_closed NewReader c H). cbn [buf rerr length NewReader].
  rewrite E3, E1. reflexivity.
Qed.

Lemma checkPrefixBody_closed (q : Conn) :
  closed (conn q) = true -> bufReader q = NewReader ->
  checkPrefixBody q =
    (Some net_ErrClosed,
     set_proxyErr (Some (errPeek net_ErrClosed)) (set_reader NewReader (conn q) q)).
Proof.
  intros Hc Hb. unfold checkPrefixBody. change prefixLen with 6.
  cbn [scanPrefix]. rewrite Hb, (@Peek_closed (conn q) Hc). reflexivity.
Qed.

Lemma arm_closed (p : Conn) :
  closed (conn p) = true ->
  conn (arm p) = conn p /\ bufReader (arm p) = bufReader p.
Proof.
  intros H. unfold arm. destruct (proxyHeaderTimeout p =? 0)%Z; [now split|].
  unfold conn_SetReadDeadline. change (conn (count_run p)) with (conn p).
  rewrite H. now split.
Qed.

Lemma checkPrefix_closed (p : Conn) :
  closed (conn p) = true -> bufReader p = NewReader ->
  fst (checkPrefix p) = Some net_ErrClosed /\
  outcome (snd (checkPrefix p)) =
    (srcAddr p, dstAddr p, Some (errPeek net_ErrClosed), useConnAddr p) /\
  incoming (conn (snd (checkPrefix p))) = incoming (conn p).
Proof.
  intros Hc Hb. rewrite checkPrefix_arm.
  destruct (@arm_closed p Hc) as (Ec & Eb).
  rewrite checkPrefixBody_closed by congruence.
  cbn [fst snd]. split; [reflexivity|]. split.
  - rewrite disarm_outcome. unfold outcome.
    destruct (@outcome_fields (arm p) p (arm_outcome p)) as (E1 & E2 & _ & E4).
    cbn [srcAddr dstAddr proxyErr useConnAddr set_proxyErr set_reader].
    now rewrite E1, E2, E4.
  - rewrite disarm_incoming. cbn [conn set_proxyErr set_reader]. now rewrite Ec.
Qed.

(** X9: a wrapper closed before anything was read from it: the first
    [Read] returns the error of a closed connection, whatever the size of
    its buffer; the address accessors answer with the underlying
    connection's addresses; [ProxySourceAddr] reports no address and that
    error, wrapped as a failure to read the header; nothing is taken from
    the stream. *)
Theorem closed_before_first_use (c : NetConn) (t : Z) (use unk : bool) :
  let p := snd (Close (wrapped c t use unk)) in
  (forall n, fst (Read n p) = ([], Some net_ErrClosed)) /\
  fst (RemoteAddr p) = connRemote c /\
  fst (LocalAddr p) = connLocal c /\
  fst (ProxySourceAddr p) = (None, Some (errPeek net_ErrClosed)) /\
  incoming (conn (snd (checkPrefix p))) = incoming c.
Proof.
  intros p.
  assert (Hp : p = wrapped (snd (conn_Close c)) t use unk).
  { unfold p. rewrite Close_close_conn. reflexivity. }
  assert (Hc : closed (conn p) = true).
  { rewrite Hp. apply conn_Close_closed. }
  assert (Hb : bufReader p = NewReader) by now rewrite Hp.
  assert (Ho : once p = false) by now rewrite Hp.
  destruct (conn_Close_same c) as (El & Er & _).
  assert (Hi : incoming (conn p) = incoming c).
  { rewrite Hp. cbn. unfold conn_Close. now destruct (closed c). }
  destruct (@checkPrefix_closed p Hc Hb) as (Hret & Hout & Hinc).
  unfold outcome in Hout. injection Hout as Es Ed Ee _.
  repeat split.
  - intros n. rewrite Read_fresh by exact Ho.
    destruct (checkPrefix p) as [ret q]. cbn [fst] in Hret. now subst ret.
  - rewrite RemoteAddr_fresh by exact Ho. rewrite Es, Hp. exact Er.
  - rewrite LocalAddr_fresh by exact Ho. rewrite Ed, Hp. exact El.
  - rewrite ProxySourceAddr_fresh by exact Ho. rewrite Es, Ee, Hp. reflexivity.
  - now rewrite Hinc.
Qed.

(** ** The read deadline *)

Lemma conn_Read_deadline (n : nat) (c : NetConn) :
  readDeadline (snd (conn_Read n c)) = readDeadline c.
Proof.
  unfold conn_Read. destruct (closed c); [reflexivity|].
  now destruct (incoming c) as [|[b bs|e] rest].
Qed.

Lemma conn_Close_deadline (c : NetConn) :
  readDeadline (snd (conn_Close c)) = readDeadline c.
Proof. unfold conn_Close. now destruct (closed c). Qed.

Lemma fillTries_deadline (i : nat) : forall (r : Reader) (c : NetConn),
  readDeadline (snd (fillTries i r c)) = readDeadline c.
Proof.
  induction i as [|i IH]; intros r c; [reflexivity|].
  rewrite fillTries_S.
  pose proof (conn_Read_deadline (defaultBufSize - length (buf r)) c) as H.
  destruct (conn_Read (defaultBufSize - length (buf r)) c) as [[d e] c'].
  cbn [snd] in H. destruct e; [exact H|]. destruct d; [|exact H].
  now rewrite IH.
Qed.

Lemma fill_deadline (r : Reader) (c : NetConn) :
  readDeadline (snd (fill r c)) = readDeadline c.
Proof. unfold fill. apply fillTries_deadline. Qed.

Lemma peekFill_deadline (fuel n : nat) : forall (r : Reader) (c : NetConn),
  readDeadline (snd (peekFill fuel n r c)) = readDeadline c.
Proof.
  induction fuel as [|f IH]; intros r c; [reflexivity|].
  cbn [peekFill].
  destruct (_ && _ && _); [|reflexivity].
  pose proof (fill_deadline r c) as H.
  destruct (fill r c) as [r' c']. cbn [snd] in H.
  now rewrite IH.
Qed.

Lemma Peek_deadline (n : nat) (r : Reader) (c : NetConn) :
  readDeadline (snd (snd (Peek n r c))) = readDeadline c.
Proof.
  unfold Peek. pose proof (peekFill_deadline n n r c) as H.
  destruct (peekFill n n r c) as [r1 c1]. cbn [snd] in H.
  destruct (defaultBufSize <? n); [exact H|].
  destruct (length (buf r1) <? n); exact H.
Qed.

Lemma readStringLoop_deadline (delim : byte) (fuel : nat) :
  forall (acc : list byte) (r : Reader) (c : NetConn) res r' c',
  readStringLoop fuel delim acc r c = Some (res, (r', c')) ->
  readDeadline c' = readDeadline c.
Proof.
  induction fuel as [|f IH]; intros acc r c res r' c' H; [discriminate|].
  cbn [readStringLoop] in H.
  destruct (IndexByte (buf r) delim).
  { now injection H as _ _ <-. }
  destruct (rerr r).
  { now injection H as _ _ <-. }
  destruct (defaultBufSize <=? length (buf r)).
  { eapply IH; exact H. }
  pose proof (fill_deadline r c) as Hf.
  destruct (fill r c) as [r1 c1]. cbn [snd] in Hf.
  rewrite <- Hf. eapply IH; exact H.
Qed.

Lemma ReadString_deadline (delim : byte) (r : Reader) (c : NetConn) :
  readDeadline (snd (snd (ReadString delim r c))) = readDeadline c.
Proof.
  unfold ReadString.
  destruct (readStringLoop (budget c) delim [] r c) as [[res [r' c']]|] eqn:E.
  - cbn [snd]. eapply readStringLoop_deadline; exact E.
  - reflexivity.
Qed.

Lemma Reader_Read_deadline (n : nat) (r : Reader) (c : NetConn) :
  readDeadline (snd (snd (Reader_Read n r c))) = readDeadline c.
Proof.
  unfold Reader_Read. destruct n as [|n].
  - now destruct (buf r).
  - destruct (buf r); [|reflexivity].
    destruct (rerr r); [reflexivity|].
    destruct (defaultBufSize <=? S n).
    + pose proof (conn_Read_deadline (S n) c) as H.
      destruct (conn_Read (S n) c) as [[d e] c']. exact H.
    + pose proof (conn_Read_deadline defaultBufSize c) as H.
      destruct (conn_Read defaultBufSize c) as [[d e] c']. now destruct d.
Qed.

Lemma scanPrefix_deadline (k : nat) : forall (i : nat) (p : Conn),
  readDeadline (conn (snd (scanPrefix k i p))) = readDeadline (conn p).
Proof.
  induction k as [|k IH]; intros i p; [reflexivity|].
  cbn [scanPrefix].
  pose proof (Peek_deadline i (bufReader p) (conn p)) as H.
  destruct (Peek i (bufReader p) (conn p)) as [[inp err] [r c]]. cbn [snd] in H.
  destruct err as [e|].
  - destruct (is_net_timeout e); exact H.
  - destruct (negb _); [exact H|]. now rewrite IH.
Qed.

Lemma fail_deadline (e : error) (p : Conn) :
  readDeadline (conn (snd (fail e p))) = readDeadline (conn p).
Proof. unfold fail, close_conn. apply conn_Close_deadline. Qed.

Lemma parseHeader_deadline (line : gostring) (p : Conn) :
  readDeadline (conn (snd (parseHeader line p))) = readDeadline (conn p).
Proof.
  unfold parseHeader.
  repeat match goal with
         | |- readDeadline (conn (snd (if ?b then _ else _))) = _ => destruct b
         | |- readDeadline (conn (snd (match ?x with Some _ => _ | None => _ end))) = _ =>
             destruct x
         end;
    first [ reflexivity | apply fail_deadline
          | exact (fail_deadline _ (set_srcAddr _ p)) ].
Qed.

Lemma checkPrefixBody_deadline (p : Conn) :
  readDeadline (conn (snd (checkPrefixBody p))) = readDeadline (conn p).
Proof.
  unfold checkPrefixBody.
  pose proof (scanPrefix_deadline prefixLen 1 p) as Hs.
  destruct (scanPrefix prefixLen 1 p) as [[|ret] p1]; cbn [snd] in Hs; [|exact Hs].
  pose proof (ReadString_deadline "010"%char (bufReader p1) (conn p1)) as Hr.
  destruct (ReadString _ (bufReader p1) (conn p1)) as [[header err] [r c]].
  cbn [snd] in Hr.
  destruct err as [e|]; cbn [snd].
  - unfold close_conn. cbn [conn set_conn set_reader set_proxyErr].
    rewrite conn_Close_deadline. congruence.
  - rewrite parseHeader_deadline. cbn [conn set_reader]. congruence.
Qed.

Lemma checkPrefix_deadline (p : Conn) :
  closed (conn p) = false ->
  readDeadline (conn (snd (checkPrefix p))) =
  if (proxyHeaderTimeout p =? 0)%Z then readDeadline (conn p)
  else if closed (conn (snd (checkPrefix p))) then Some (proxyHeaderTimeout p)
       else None.
Proof.
  intros Hopen. rewrite checkPrefix_arm.
  pose proof (checkPrefixBody_deadline (arm p)) as Hb.
  destruct (checkPrefixBody (arm p)) as [ret q]. cbn [snd] in *.
  unfold disarm, arm in *.
  destruct (proxyHeaderTimeout p =? 0)%Z; [exact Hb|].
  unfold conn_SetReadDeadline in *. change (conn (count_run p)) with (conn p) in Hb.
  rewrite Hopen in Hb. cbn [snd conn set_conn set_reader readDeadline] in Hb.
  cbn [conn set_conn set_reader].
  destruct (closed (conn q)) eqn:Hq; cbn [snd]; [now rewrite Hq | reflexivity].
Qed.

Lemma recover_deadline (err : option error) (q : Conn) :
  readDeadline (conn (recover err q)) = readDeadline (conn q).
Proof.
  unfold recover. destruct err as [e|]; [|reflexivity].
  destruct (negb (is_EOF e)); [|reflexivity].
  unfold close_conn. cbn [conn set_reader set_conn log_Printf].
  apply conn_Close_deadline.
Qed.

Lemma after_fresh_deadline (o : call) (p : Conn) :
  once p = false ->
  readDeadline (conn (after o p)) = readDeadline (conn (snd (checkPrefix p))).
Proof.
  intros H.
  assert (Hc : readDeadline (conn (checkPrefixOnce p)) =
               readDeadline (conn (snd (checkPrefix p)))).
  { rewrite checkPrefixOnce_fresh by exact H.
    destruct (checkPrefix p) as [err q]. cbn [snd conn set_once].
    apply recover_deadline. }
  destruct o as [n| | |]; cbn [after].
  - rewrite Read_fresh by exact H.
    destruct (checkPrefix p) as [[e|] q]; [reflexivity|].
    pose proof (Reader_Read_deadline n (bufReader q) (conn q)) as Hr.
    destruct (Reader_Read n (bufReader q) (conn q)) as [res [r c]]. exact Hr.
  - now rewrite LocalAddr_state.
  - now rewrite RemoteAddr_state.
  - now rewrite ProxySourceAddr_state.
Qed.

(** X10: with a header timeout configured, the call that runs the parser
    replaces whatever read deadline the caller had set on the wrapper: it
    leaves no deadline at all when the parser left the connection open, and
    the header deadline itself when the parser closed the connection (the
    deferred reset then fails).  Without a header timeout the caller's
    deadline stays. *)
Theorem header_timeout_replaces_read_deadline
    (c : NetConn) (t : Z) (use unk : bool) (d : option Z) (o : call) :
  closed c = false ->
  let p := snd (SetReadDeadline d (wrapped c t use unk)) in
  readDeadline (conn p) = d /\
  readDeadline (conn (after o p)) =
    if (t =? 0)%Z then d
    else if closed (conn (snd (checkPrefix p))) then Some t else None.
Proof.
  intros Hopen p.
  assert (Hp : p = wrapped (mkNetConn (incoming c) (closed c) (outgoing c) d
                               (connLocal c) (connRemote c)) t use unk).
  { unfold p, SetReadDeadline, wrapped, NewConn, conn_SetReadDeadline.
    cbn [conn set_unknownOK set_useConnAddr]. rewrite Hopen. reflexivity. }
  assert (Ht : proxyHeaderTimeout p = t) by now rewrite Hp.
  assert (Hd : readDeadline (conn p) = d) by now rewrite Hp.
  split; [exact Hd|].
  rewrite after_fresh_deadline by now rewrite Hp.
  rewrite checkPrefix_deadline by (rewrite Hp; exact Hopen).
  now rewrite Ht, Hd.
Qed.

Lemma header_timeout_replaces_read_deadline_witness :
  let c := exampleConn (segment (str "GET / HTTP/1.1" ++ CRLF)) in
  let p := snd (SetReadDeadline (Some 5000%Z) (wrapped c 1000 false false)) in
  readDeadline (conn (after CallRemoteAddr p)) = None.
Proof.
  intros c p.
  eapply eq_trans.
  - exact (proj2 (@header_timeout_replaces_read_deadline c 1000 false false
                    (Some 5000%Z) CallRemoteAddr eq_refl)).
  - vm_compute. reflexivity.
Defined.

(** ** What the result of the parser depends on *)

Lemma parseHeader_pure (l1 l2 : gostring) (q1 q2 : Conn) :
  stripEnd l1 = stripEnd l2 -> unknownOK q1 = unknownOK q2 ->
  outcome q1 = outcome q2 ->
  fst (parseHeader l1 q1) = fst (parseHeader l2 q2) /\
  outcome (snd (parseHeader l1 q1)) = outcome (snd (parseHeader l2 q2)).
Proof.
  intros Hl Hu Ho. unfold parseHeader. cbv zeta. rewrite Hl, Hu.
  unfold outcome in Ho. injection Ho as Es Ed Ee Eu.
  repeat match goal with
         | |- context [if ?b then _ else _] => destruct b
         | |- context [match ?x with Some _ => _ | None => _ end] => destruct x
         end;
    unfold fail, outcome, close_conn, set_conn;
    cbn [fst snd srcAddr dstAddr proxyErr useConnAddr set_proxyErr set_reader
         set_srcAddr set_dstAddr set_useConnAddr];
    split; congruence.
Qed.

Lemma checkPrefix_congruent (p1 p2 : Conn) (s1 s2 : list byte) (tl1 tl2 : list event) :
  readable p1 s1 tl1 -> readable p2 s2 tl2 ->
  unknownOK p1 = unknownOK p2 -> outcome p1 = outcome p2 ->
  agree prefix s1 = agree prefix s2 ->
  (agree prefix s1 = Short -> errOf tl1 = errOf tl2) ->
  (agree prefix s1 = Same ->
   (IndexByte s1 "010"%char = None /\ IndexByte s2 "010"%char = None /\
    errOf tl1 = errOf tl2) \/
   exists i j, IndexByte s1 "010"%char = Some i /\ IndexByte s2 "010"%char = Some j /\
               stripEnd (firstn (S i) s1) = stripEnd (firstn (S j) s2)) ->
  fst (checkPrefix p1) = fst (checkPrefix p2) /\
  outcome (snd (checkPrefix p1)) = outcome (snd (checkPrefix p2)) /\
  closed (conn (snd (checkPrefix p1))) = closed (conn (snd (checkPrefix p2))).
Proof.
  intros Hr1 Hr2 Hu Ho Ha Hshort Hline.
  unfold outcome in Ho. injection Ho as Es Ed Ee Eu.
  destruct (agree prefix s1) eqn:Ha1; symmetry in Ha.
  - destruct (Hline eq_refl) as [(Hn1 & Hn2 & He)|(i & j & Hi & Hj & Hs)].
    + destruct (@checkPrefix_noline p1 s1 tl1 Hr1 Ha1 Hn1) as (q1 & Hq1 & Hc1 & Ho1).
      destruct (@checkPrefix_noline p2 s2 tl2 Hr2 Ha Hn2) as (q2 & Hq2 & Hc2 & Ho2).
      rewrite Hq1, Hq2. cbn [fst snd]. rewrite Ho1, Ho2, Hc1, Hc2, He.
      repeat split; congruence.
    + destruct (@checkPrefix_line p1 s1 tl1 i Hr1 Ha1 Hi) as (q1 & Hq1 & Hrq1 & Ho1 & Hu1).
      destruct (@checkPrefix_line p2 s2 tl2 j Hr2 Ha Hj) as (q2 & Hq2 & Hrq2 & Ho2 & Hu2).
      rewrite Hq1, Hq2.
      assert (Hqu : unknownOK q1 = unknownOK q2).
      { destruct Hu1 as (_ & _ & U1 & _). destruct Hu2 as (_ & _ & U2 & _).
        rewrite U1, U2. exact Hu. }
      assert (Hqo : outcome q1 = outcome q2).
      { rewrite Ho1, Ho2. unfold outcome. congruence. }
      destruct (@parseHeader_pure _ _ q1 q2 Hs Hqu Hqo) as (Hf & Hout).
      pose proof (@parseHeader_closed (firstn (S i) s1) q1 ltac:(apply Hrq1)) as Hc1.
      pose proof (@parseHeader_closed (firstn (S j) s2) q2 ltac:(apply Hrq2)) as Hc2.
      destruct (parseHeader (firstn (S i) s1) q1) as [r1 q1'].
      destruct (parseHeader (firstn (S j) s2) q2) as [r2 q2'].
      cbn [fst snd] in *. rewrite !disarm_outcome, !disarm_closed, Hc1, Hc2, Hf.
      now repeat split.
  - destruct (@checkPrefix_differs p1 s1 tl1 Hr1 Ha1) as (q1 & Hq1 & Hrq1 & Ho1).
    destruct (@checkPrefix_differs p2 s2 tl2 Hr2 Ha) as (q2 & Hq2 & Hrq2 & Ho2).
    rewrite Hq1, Hq2. cbn [fst snd]. rewrite Ho1, Ho2.
    destruct Hrq1 as (C1 & _). destruct Hrq2 as (C2 & _).
    repeat split; congruence.
  - destruct (@checkPrefix_short p1 s1 tl1 Hr1 Ha1) as (q1 & Hq1 & Hrq1 & Ho1).
    destruct (@checkPrefix_short p2 s2 tl2 Hr2 Ha) as (q2 & Hq2 & Hrq2 & Ho2).
    rewrite Hq1, Hq2. cbn [fst snd]. rewrite Ho1, Ho2, (Hshort eq_refl).
    destruct Hrq1 as (C1 & _). destruct Hrq2 as (C2 & _).
    repeat split; congruence.
Qed.

(** X11: the parser drops the two last bytes of the header line without
    looking at the first of them: two streams whose lines differ only in
    the byte before the newline (a carriage return or any other byte) get
    the same return value, the same addresses and stored error, and the
    connection open or closed alike, whatever follows the line. *)
Theorem terminator_byte_is_not_checked
    (c1 c2 : NetConn) (t : Z) (use unk : bool)
    (body payload1 payload2 : list byte) (x1 x2 : byte) :
  closed c1 = false -> closed c2 = false ->
  agree prefix body = Same -> ~ In "010"%char body ->
  x1 <> "010"%char -> x2 <> "010"%char ->
  lead (incoming c1) = body ++ x1 :: "010"%char :: payload1 ->
  lead (incoming c2) = body ++ x2 :: "010"%char :: payload2 ->
  let r1 := checkPrefix (wrapped c1 t use unk) in
  let r2 := checkPrefix (wrapped c2 t use unk) in
  fst r1 = fst r2 /\ outcome (snd r1) = outcome (snd r2) /\
  closed (conn (snd r1)) = closed (conn (snd r2)).
Proof.
  intros Ho1 Ho2 Ha Hnl Hx1 Hx2 Hl1 Hl2 r1 r2.
  pose proof (@wrapped_readable c1 t use unk Ho1) as Hr1.
  pose proof (@wrapped_readable c2 t use unk Ho2) as Hr2.
  rewrite Hl1 in Hr1. rewrite Hl2 in Hr2.
  assert (Hsame : forall x rest, agree prefix (body ++ x :: "010"%char :: rest) = Same).
  { intros x rest. destruct (@agree_same_inv prefix body Ha) as (b' & ->).
    rewrite <- app_assoc. apply agree_same_app. }
  assert (Hidx : forall x rest, x <> "010"%char ->
            IndexByte (body ++ x :: "010"%char :: rest) "010"%char
              = Some (S (length body)) /\
            stripEnd (firstn (S (S (length body))) (body ++ x :: "010"%char :: rest))
              = body).
  { intros x rest Hx. split.
    - rewrite IndexByte_app_r by (apply IndexByte_None; exact Hnl).
      cbn [IndexByte]. destruct (Ascii.eqb x "010"%char) eqn:E.
      + apply Ascii.eqb_eq in E. contradiction.
      + rewrite Ascii.eqb_refl. f_equal. lia.
    - replace (S (S (length body))) with (length body + 2) by lia.
      rewrite firstn_app_exact. cbn [firstn]. unfold stripEnd.
      rewrite length_app. cbn [length].
      replace (length body + 2 - 2) with (length body + 0) by lia.
      rewrite firstn_app_exact. cbn [firstn]. apply app_nil_r. }
  apply (@checkPrefix_congruent _ _ _ _ _ _ Hr1 Hr2).
  - reflexivity.
  - reflexivity.
  - now rewrite !Hsame.
  - rewrite Hsame. discriminate.
  - intros _. right. exists (S (length body)), (S (length body)).
    destruct (Hidx x1 payload1 Hx1) as (I1 & S1).
    destruct (Hidx x2 payload2 Hx2) as (I2 & S2).
    repeat split; [exact I1 | exact I2 | exact (eq_trans S1 (eq_sym S2))].
Qed.

Lemma terminator_byte_is_not_checked_witness :
  let c1 := exampleConn
              (segment (str "PROXY TCP4 192.0.2.7 10.0.0.2 51234 443" ++ CRLF)) in
  let c2 := exampleConn
              (segment (str "PROXY TCP4 192.0.2.7 10.0.0.2 51234 4435"
                          ++ ["010"%char] ++ str "GET /")) in
  let r1 := checkPrefix (wrapped c1 0 false false) in
  let r2 := checkPrefix (wrapped c2 0 false false) in
  fst r1 = fst r2 /\ outcome (snd r1) = outcome (snd r2) /\
  closed (conn (snd r1)) = closed (conn (snd r2)).
Proof.
  intros c1 c2.
  refine (@terminator_byte_is_not_checked c1 c2 0 false false
            (str "PROXY TCP4 192.0.2.7 10.0.0.2 51234 443") [] (str "GET /")
            "013"%char "5"%char eq_refl eq_refl eq_refl _ _ _ eq_refl eq_refl).
  - apply IndexByte_None. reflexivity.
  - discriminate.
  - discriminate.
Defined.

(** X12: how the bytes arrive does not matter to the parser: two open
    connections that deliver the same bytes before their first failed read,
    in whatever segments, and fail there with the same error, get the same
    return value, the same addresses and stored error, the same answer of
    [ProxySourceAddr], and end open or closed alike. *)
Theorem segmentation_does_not_matter
    (c1 c2 : NetConn) (t : Z) (use unk : bool) :
  closed c1 = false -> closed c2 = false ->
  lead (incoming c1) = lead (incoming c2) ->
  nextErr (incoming c1) = nextErr (incoming c2) ->
  let p1 := wrapped c1 t use unk in
  let p2 := wrapped c2 t use unk in
  fst (checkPrefix p1) = fst (checkPrefix p2) /\
  outcome (snd (checkPrefix p1)) = outcome (snd (checkPrefix p2)) /\
  closed (conn (snd (checkPrefix p1))) = closed (conn (snd (checkPrefix p2))) /\
  fst (ProxySourceAddr p1) = fst (ProxySourceAddr p2).
Proof.
  intros Ho1 Ho2 Hl He p1 p2.
  pose proof (@wrapped_readable c1 t use unk Ho1) as Hr1.
  pose proof (@wrapped_readable c2 t use unk Ho2) as Hr2.
  rewrite !nextErr_errOf in He. rewrite Hl in Hr1.
  assert (H : fst (checkPrefix p1) = fst (checkPrefix p2) /\
              outcome (snd (checkPrefix p1)) = outcome (snd (checkPrefix p2)) /\
              closed (conn (snd (checkPrefix p1))) = closed (conn (snd (checkPrefix p2)))).
  { apply (@checkPrefix_congruent _ _ _ _ _ _ Hr1 Hr2); try reflexivity.
    - intros _. exact He.
    - intros _. destruct (IndexByte (lead (incoming c2)) "010"%char) as [i|].
      + right. exists i, i. now repeat split.
      + left. now repeat split. }
  destruct H as (H1 & H2 & H3). repeat split; try assumption.
  rewrite !ProxySourceAddr_fresh by reflexivity.
  destruct (@outcome_fields _ _ H2) as (Es & _ & Ee & _).
  now rewrite Es, Ee.
Qed.

Lemma segmentation_does_not_matter_witness :
  let c1 := exampleConn
              (segment (str "PROXY TCP4 192.0.2.7 10.0.0.2 51234 443" ++ CRLF)) in
  let c2 := exampleConn
              (segment (str "PR") ++ segment (str "OXY TCP4 192.0.2.7 10.")
               ++ segment (str "0.0.2 51234 443" ++ ["013"%char])
               ++ segment ["010"%char]) in
  fst (ProxySourceAddr (wrapped c1 0 false false)) =
  fst (ProxySourceAddr (wrapped c2 0 false false)).
Proof.
  intros c1 c2.
  exact (proj2 (proj2 (proj2
    (@segmentation_does_not_matter c1 c2 0 false false
       eq_refl eq_refl eq_refl eq_refl)))).
Defined.

(** ** A mismatch is found in the bytes at hand *)

Lemma Peek_buffered (n : nat) (r : Reader) (c : NetConn) :
  n <= length (buf r) -> n <= defaultBufSize ->
  Peek n r c = ((firstn n (buf r), None), (r, c)).
Proof.
  intros Hn Hsz. unfold Peek. rewrite peekFill_full by exact Hn.
  destruct (defaultBufSize <? n) eqn:E1; [apply Nat.ltb_lt in E1; lia|].
  destruct (length (buf r) <? n) eqn:E2; [apply Nat.ltb_lt in E2; lia|].
  reflexivity.
Qed.

Lemma Peek_first_segment (c : NetConn) (b : byte) (bs : list byte) (rest : list event) :
  closed c = false -> incoming c = Data b bs :: rest ->
  Peek 1 NewReader c =
    (([b], None),
     (mkReader (firstn defaultBufSize (b :: bs)) None,
      set_incoming (unread (skipn defaultBufSize (b :: bs)) rest) c)).
Proof.
  intros Hopen Hinc. unfold Peek. cbn [peekFill].
  assert (E1 : (length (buf NewReader) <? 1) = true) by reflexivity.
  assert (E2 : (length (buf NewReader) <? defaultBufSize) = true)
    by (apply Nat.ltb_lt, defaultBufSize_pos).
  assert (E3 : (defaultBufSize <? 1) = false).
  { apply Nat.ltb_ge. pose proof defaultBufSize_pos. lia. }
  rewrite E1, E2. unfold NewReader. cbn [andb rerr].
  rewrite (@fill_open (mkReader [] None) c Hopen) by apply defaultBufSize_pos.
  rewrite Hinc. cbv zeta. cbn [buf rerr length app]. rewrite Nat.sub_0_r, E3.
  pose proof defaultBufSize_pos as Hpos.
  destruct defaultBufSize as [|m]; [lia|]. reflexivity.
Qed.

Lemma scanPrefix_S (k i : nat) (p : Conn) :
  scanPrefix (S k) i p =
  let '((inp, err), (r, c)) := Peek i (bufReader p) (conn p) in
  let p := set_reader r c p in
  match err with
  | Some e =>
      let p := set_proxyErr (Some (errPeek e)) p in
      if is_net_timeout e then (Return None, p) else (Return (Some e), p)
  | None =>
      if negb (bytes_Equal inp (firstn i prefix))
      then (Return None, set_proxyErr (Some errMismatch) p)
      else scanPrefix k (S i) p
  end.
Proof. reflexivity. Qed.

Lemma scanPrefix_buffered (k : nat) : forall (j : nat) (p : Conn),
  j + k = prefixLen ->
  firstn j (buf (bufReader p)) = firstn j prefix ->
  agree (skipn j prefix) (skipn j (buf (bufReader p))) = Differs ->
  exists q,
    scanPrefix k (S j) p = (Return None, q) /\
    bufReader q = bufReader p /\ conn q = conn p.
Proof.
  induction k as [|k IH]; intros j p Hjk Hpre Hag.
  - rewrite skipn_all2 in Hag by (unfold prefixLen in Hjk; lia). discriminate.
  - assert (Hj : j < length prefix) by (unfold prefixLen in Hjk; lia).
    destruct (skipn j prefix) as [|a pt] eqn:Ea; [discriminate|].
    destruct (skipn_cons_firstn _ _ Ea) as (Hfa & Hsa & _).
    destruct (skipn j (buf (bufReader p))) as [|b st] eqn:Eb; [discriminate|].
    destruct (skipn_cons_firstn _ _ Eb) as (Hfb & Hsb & Hlb).
    assert (Hsz : S j <= defaultBufSize).
    { unfold prefix in Hj. cbn in Hj. unfold defaultBufSize. lia. }
    cbn [agree] in Hag. cbn [scanPrefix].
    rewrite Peek_buffered by (assumption || lia).
    rewrite Hfa, Hfb, Hpre.
    destruct (Ascii.eqb a b) eqn:Eab.
    + apply Ascii.eqb_eq in Eab. subst b.
      rewrite bytes_Equal_refl. cbn [negb].
      set (p1 := set_reader (bufReader p) (conn p) p).
      destruct (IH (S j) p1) as (q & Hq & Hqb & Hqc).
      * lia.
      * change (bufReader p1) with (bufReader p). now rewrite Hfa, Hfb, Hpre.
      * change (bufReader p1) with (bufReader p). now rewrite Hsa, Hsb.
      * exists q. repeat split; assumption.
    + assert (Hne : bytes_Equal (firstn j prefix ++ [b]) (firstn j prefix ++ [a]) = false).
      { apply bytes_Equal_neq. intros Heq. apply app_inv_head in Heq.
        apply Ascii.eqb_neq in Eab. congruence. }
      rewrite Hne. cbn [negb]. eexists. repeat split.
Qed.

Lemma agree_differs_firstn (pfx : list byte) : forall (s : list byte) (n : nat),
  agree pfx s = Differs -> length pfx <= n -> agree pfx (firstn n s) = Differs.
Proof.
  induction pfx as [|a pfx IH]; intros s n H Hn; [discriminate|].
  destruct s as [|b s]; [discriminate|].
  destruct n as [|n]; [cbn [length] in Hn; lia|].
  cbn [firstn agree] in *. destruct (Ascii.eqb a b); [|reflexivity].
  apply IH; [exact H | cbn [length] in Hn; lia].
Qed.

Lemma arm_open (p : Conn) :
  closed (conn p) = false ->
  closed (conn (arm p)) = false /\ bufReader (arm p) = bufReader p /\
  incoming (conn (arm p)) = incoming (conn p).
Proof.
  intros H. unfold arm. destruct (proxyHeaderTimeout p =? 0)%Z; [now repeat split|].
  cbn [conn bufReader set_conn set_reader count_run].
  rewrite conn_SetReadDeadline_closed, conn_SetReadDeadline_incoming.
  now repeat split.
Qed.

(** X13: a stream that is not a PROXY header is recognised from the bytes
    at hand: when the first segment the connection delivers already departs
    from the signature, the parser returns nil after that one read; the
    segment sits in the reader's buffer and nothing more was taken from the
    connection. *)
Theorem mismatch_found_in_first_segment
    (c : NetConn) (t : Z) (use unk : bool)
    (b : byte) (bs : list byte) (rest : list event) :
  closed c = false -> incoming c = Data b bs :: rest ->
  agree prefix (b :: bs) = Differs ->
  let r := checkPrefix (wrapped c t use unk) in
  fst r = None /\
  buf (bufReader (snd r)) = firstn defaultBufSize (b :: bs) /\
  incoming (conn (snd r)) = unread (skipn defaultBufSize (b :: bs)) rest.
Proof.
  intros Hopen Hinc Hag r. unfold r. rewrite checkPrefix_arm.
  set (p := wrapped c t use unk).
  destruct (@arm_open p Hopen) as (Ho & Hb & Hi).
  change (bufReader p) with NewReader in Hb. change (conn p) with c in Hi.
  rewrite Hinc in Hi.
  unfold checkPrefixBody. change prefixLen with 6. rewrite scanPrefix_S.
  rewrite Hb, (@Peek_first_segment (conn (arm p)) b bs rest Ho Hi). cbv zeta.
  set (p1 := set_reader _ _ (arm p)).
  assert (Hd : agree prefix (firstn defaultBufSize (b :: bs)) = Differs).
  { apply agree_differs_firstn; [exact Hag|]. unfold defaultBufSize. cbn. lia. }
  pose proof defaultBufSize_pos as Hpos.
  assert (Hf : firstn defaultBufSize (b :: bs) = b :: firstn (defaultBufSize - 1) bs).
  { destruct defaultBufSize as [|m]; [lia|]. cbn [firstn]. do 2 f_equal. lia. }
  change (firstn 1 prefix) with ["P"%char].
  destruct (Ascii.eqb "P"%char b) eqn:Eb.
  - apply Ascii.eqb_eq in Eb.
    assert (He : bytes_Equal [b] ["P"%char] = true)
      by (apply bytes_Equal_eq; now rewrite Eb).
    rewrite He. cbn [negb].
    assert (H1 : firstn 1 (firstn defaultBufSize (b :: bs)) = firstn 1 prefix).
    { rewrite Hf, <- Eb. reflexivity. }
    assert (H2 : agree (skipn 1 prefix)
                   (skipn 1 (firstn defaultBufSize (b :: bs))) = Differs).
    { rewrite Hf. rewrite Hf, <- Eb in Hd. exact Hd. }
    destruct (@scanPrefix_buffered 5 1 p1 eq_refl H1 H2) as (q & Hq & Hqb & Hqc).
    rewrite Hq. cbn [fst snd].
    rewrite disarm_bufReader, disarm_incoming, Hqb, Hqc. now repeat split.
  - assert (Hne : bytes_Equal [b] ["P"%char] = false).
    { apply bytes_Equal_neq. apply Ascii.eqb_neq in Eb. congruence. }
    rewrite Hne. cbn [negb fst snd].
    rewrite disarm_bufReader, disarm_incoming. now repeat split.
Qed.

Lemma mismatch_found_in_first_segment_witness :
  let c := exampleConn (segment (str "PRI * HTTP/2.0") ++ [Fault errTimeout]) in
  let r := checkPrefix (wrapped c 1000 false false) in
  fst r = None /\
  buf (bufReader (snd r)) = firstn defaultBufSize (str "PRI * HTTP/2.0") /\
  incoming (conn (snd r)) = [Fault errTimeout].
Proof.
  intros c.
  exact (@mismatch_found_in_first_segment c 1000 false false
           "P"%char (str "RI * HTTP/2.0") [Fault errTimeout]
           eq_refl eq_refl eq_refl).
Defined.

(** ** When [ProxySourceAddr] reports no error *)

Lemma parseHeader_proxyErr (line : gostring) (q : Conn) :
  proxyErr q = None ->
  proxyErr (snd (parseHeader line q)) = fst (parseHeader line q).
Proof.
  intros Hq. unfold parseHeader.
  repeat match goal with
         | |- proxyErr (snd (if ?b then _ else _)) = _ => destruct b
         | |- proxyErr (snd (match ?x with Some _ => _ | None => _ end)) = _ =>
             destruct x
         end;
    cbn [fst snd fail proxyErr set_proxyErr set_useConnAddr set_dstAddr set_srcAddr];
    first [reflexivity | exact Hq].
Qed.

(** X14: on an open connection [ProxySourceAddr] returns a nil error
    exactly when the stream starts with the whole signature and the parser
    returned nil, that is when a header was there and was accepted; for a
    stream without the signature it always returns an error, although the
    connection stays usable. *)
Theorem ProxySourceAddr_no_error_iff_header_accepted
    (c : NetConn) (t : Z) (use unk : bool) :
  closed c = false ->
  let p := wrapped c t use unk in
  snd (fst (ProxySourceAddr p)) = None <->
  (firstn prefixLen (lead (incoming c)) = prefix /\ fst (checkPrefix p) = None).
Proof.
  intros Hopen p.
  rewrite ProxySourceAddr_fresh by reflexivity. cbn [fst snd].
  pose proof (@wrapped_readable c t use unk Hopen) as Hr. fold p in Hr.
  set (s := lead (incoming c)) in *.
  destruct (agree prefix s) eqn:Hagree.
  - assert (Hpre : firstn prefixLen s = prefix).
    { apply agree_same_inv in Hagree as (t' & ->).
      change prefixLen with (length prefix + 0).
      rewrite firstn_app_exact. cbn [firstn]. apply app_nil_r. }
    destruct (IndexByte s "010"%char) as [i|] eqn:Hidx.
    + destruct (@checkPrefix_line p s _ i Hr Hagree Hidx) as (q & Hq & _ & Ho & _).
      rewrite Hq.
      destruct (@outcome_fields q p Ho) as (_ & _ & Ee & _).
      pose proof (@parseHeader_proxyErr (firstn (S i) s) q Ee) as He.
      destruct (parseHeader (firstn (S i) s) q) as [ret q'].
      cbn [fst snd] in *. rewrite disarm_proxyErr, He. tauto.
    + destruct (@checkPrefix_noline p s _ Hr Hagree Hidx) as (q & Hq & _ & Ho).
      rewrite Hq. cbn [fst snd].
      unfold outcome in Ho. injection Ho as _ _ Ee _.
      rewrite Ee. split; [discriminate | intros (_ & H); discriminate].
  - destruct (@checkPrefix_differs p s _ Hr Hagree) as (q & Hq & _ & Ho).
    rewrite Hq. cbn [fst snd].
    unfold outcome in Ho. injection Ho as _ _ Ee _.
    rewrite Ee. split; [discriminate|]. intros (Hpre & _). exfalso.
    rewrite (@firstn_prefix_agree s Hpre) in Hagree. discriminate.
  - destruct (@checkPrefix_short p s _ Hr Hagree) as (q & Hq & _ & Ho).
    rewrite Hq. cbn [fst snd].
    unfold outcome in Ho. injection Ho as _ _ Ee _.
    rewrite Ee. split; [discriminate|]. intros (Hpre & _). exfalso.
    rewrite (@firstn_prefix_agree s Hpre) in Hagree. discriminate.
Qed.

Lemma ProxySourceAddr_no_error_iff_header_accepted_witness :
  let c := exampleConn (segment (str "GET / HTTP/1.1" ++ CRLF)) in
  snd (fst (ProxySourceAddr (wrapped c 0 false false))) <> None.
Proof.
  intros c H.
  destruct (proj1 (@ProxySourceAddr_no_error_iff_header_accepted c 0 false false
                     eq_refl) H) as (Hpre & _).
  discriminate Hpre.
Defined.

(** ** The single run of the parser, the accessors and [Read] *)

Lemma after_callOf (a : accessor) (p : Conn) : after (callOf a) p = checkPrefixOnce p.
Proof.
  destruct a; cbn [after callOf].
  - apply LocalAddr_state.
  - apply RemoteAddr_state.
  - apply ProxySourceAddr_state.
Qed.

Lemma afterAll_accessors_settled (l : list accessor) (p : Conn) :
  once p = true -> afterAll (map callOf l) p = p.
Proof.
  intros H. induction l as [|a l IH]; [reflexivity|].
  cbn [map]. change (afterAll (callOf a :: map callOf l) p)
    with (afterAll (map callOf l) (after (callOf a) p)).
  now rewrite after_callOf, checkPrefixOnce_settled.
Qed.

Lemma afterAll_accessors_fresh (a : accessor) (l : list accessor) (p : Conn) :
  once p = false -> afterAll (map callOf (a :: l)) p = checkPrefixOnce p.
Proof.
  intros H. cbn [map].
  change (afterAll (callOf a :: map callOf l) p)
    with (afterAll (map callOf l) (after (callOf a) p)).
  rewrite after_callOf. apply afterAll_accessors_settled.
  apply (checkPrefixOnce_fresh_facts p H).
Qed.

Lemma Read_settled_result (n : nat) (p : Conn) :
  once p = true -> fst (Read n p) = fst (Reader_Read n (bufReader p) (conn p)).
Proof.
  intros H. rewrite Read_settled by exact H.
  now destruct (Reader_Read n (bufReader p) (conn p)) as [res [r c]].
Qed.

Lemma Read_fresh_result (n : nat) (p : Conn) :
  once p = false ->
  fst (Read n p) =
  match fst (checkPrefix p) with
  | Some e => ([], Some e)
  | None => fst (Reader_Read n (bufReader (snd (checkPrefix p)))
                   (conn (snd (checkPrefix p))))
  end.
Proof.
  intros H. rewrite Read_fresh by exact H.
  destruct (checkPrefix p) as [[e|] q]; cbn [fst snd]; [reflexivity|].
  now destruct (Reader_Read n (bufReader q) (conn q)) as [res [r c]].
Qed.

Lemma Read_after_Read (m n : nat) (p : Conn) :
  once p = false ->
  fst (Read n (snd (Read m p))) =
  match fst (checkPrefix p) with
  | Some _ => fst (Reader_Read n (bufReader (snd (checkPrefix p)))
                     (conn (snd (checkPrefix p))))
  | None =>
      let '(r, c) := snd (Reader_Read m (bufReader (snd (checkPrefix p)))
                            (conn (snd (checkPrefix p)))) in
      fst (Reader_Read n r c)
  end.
Proof.
  intros H. rewrite (@Read_fresh m p H).
  destruct (checkPrefix p) as [[e|] q]; cbn [fst snd].
  - now rewrite Read_settled_result by reflexivity.
  - destruct (Reader_Read m (bufReader q) (conn q)) as [res [r c]]. cbn [snd].
    now rewrite Read_settled_result by reflexivity.
Qed.

Lemma Read_after_accessors (a : accessor) (l : list accessor) (n : nat) (p : Conn) :
  once p = false ->
  fst (Read n (afterAll (map callOf (a :: l)) p)) =
  match fst (checkPrefix p) with
  | Some e =>
      if is_EOF e
      then fst (Reader_Read n (bufReader (snd (checkPrefix p)))
                  (conn (snd (checkPrefix p))))
      else ([], match n with 0 => None | S _ => Some net_ErrClosed end)
  | None => fst (Reader_Read n (bufReader (snd (checkPrefix p)))
                   (conn (snd (checkPrefix p))))
  end.
Proof.
  intros H. rewrite (@afterAll_accessors_fresh a l p H).
  rewrite Read_settled_result by apply (checkPrefixOnce_fresh_facts p H).
  rewrite checkPrefixOnce_fresh by exact H.
  destruct (checkPrefix p) as [[e|] q]; cbn [fst snd]; [|reflexivity].
  unfold recover. destruct (is_EOF e); cbn [negb]; [reflexivity|].
  cbn [bufReader conn set_once set_reader].
  rewrite Reader_Read_closed; [reflexivity|].
  unfold close_conn. cbn [conn set_conn set_reader]. apply conn_Close_closed.
Qed.

(** C8: whatever the order of the calls to [Read], [LocalAddr],
    [RemoteAddr] and [ProxySourceAddr] on a wrapped connection, the header
    parser has run exactly once after the first of them, and after every
    further call the stored outcome (addresses, error, flag) is the one that
    single run left; the address accessors answer from it in every order.
    [Read] does not: the [Read] that runs the parser returns the parser's
    error and no data, or, after a nil return, what the buffered reader
    returns; every later [Read] returns what the buffered reader returns and
    never looks at the stored outcome.  So after a parser error the [Read]
    that follows a [Read] goes on with the bytes the parser left in the
    reader, and the [Read] that follows address accessors gets the error of
    the closed connection (the accessors close it and replace the reader
    unless the error is [io.EOF]). *)
Theorem parse_runs_exactly_once
    (c : NetConn) (t : Z) (use unk : bool) (o : call) (os : list call) :
  let p := wrapped c t use unk in
  let q := snd (checkPrefix p) in
  let p' := afterAll (o :: os) p in
  parseRuns p = 0 /\ parseRuns p' = 1 /\ once p' = true /\
  outcome p' = outcome q /\
  fst (RemoteAddr p') =
    match srcAddr q with
    | Some a => if negb (useConnAddr q) then AddrTCP a else connRemote c
    | None => connRemote c
    end /\
  fst (LocalAddr p') =
    match dstAddr q with
    | Some a => if negb (useConnAddr q) then AddrTCP a else connLocal c
    | None => connLocal c
    end /\
  fst (ProxySourceAddr p') = (option_map AddrTCP (srcAddr q), proxyErr q) /\
  (forall o', parseRuns (after o' p') = 1 /\ outcome (after o' p') = outcome q) /\
  (forall n,
     fst (Read n p) =
       match fst (checkPrefix p) with
       | Some e => ([], Some e)
       | None => fst (Reader_Read n (bufReader q) (conn q))
       end) /\
  (forall n, fst (Read n p') = fst (Reader_Read n (bufReader p') (conn p'))) /\
  (forall m n,
     fst (Read n (snd (Read m p))) =
       match fst (checkPrefix p) with
       | Some _ => fst (Reader_Read n (bufReader q) (conn q))
       | None =>
           let '(r, c') := snd (Reader_Read m (bufReader q) (conn q)) in
           fst (Reader_Read n r c')
       end) /\
  (forall (a : accessor) (l : list accessor) n,
     fst (Read n (afterAll (map callOf (a :: l)) p)) =
       match fst (checkPrefix p) with
       | Some e =>
           if is_EOF e then fst (Reader_Read n (bufReader q) (conn q))
           else ([], match n with 0 => None | S _ => Some net_ErrClosed end)
       | None => fst (Reader_Read n (bufReader q) (conn q))
       end).
Proof.
  intros p q p'.
  destruct (@after_fresh o p eq_refl) as (H1 & H2 & H3 & H4).
  destruct (@afterAll_settled os (after o p) H1) as (K1 & K2 & K3 & K4).
  change (afterAll os (after o p)) with p' in *.
  fold q in H2, H3, H4.
  destruct (checkPrefix_wrapped_conn c t use unk) as (Hruns & Hloc & Hrem).
  fold p q in Hruns, Hloc, Hrem.
  assert (Hout : outcome p' = outcome q) by congruence.
  destruct (@outcome_fields p' q Hout) as (Es & Ed & Ee & Eu).
  assert (Hconn : sameConn (conn q) (conn p')) by (eapply sameConn_trans; eassumption).
  destruct Hconn as (Cl & Cr & _).
  split; [reflexivity|]. split; [congruence|]. split; [assumption|].
  split; [assumption|].
  split; [rewrite RemoteAddr_settled by assumption; rewrite Es, Eu, Cr, Hrem; reflexivity|].
  split; [rewrite LocalAddr_settled by assumption; rewrite Ed, Eu, Cl, Hloc; reflexivity|].
  split; [rewrite ProxySourceAddr_settled by assumption; rewrite Es, Ee; reflexivity|].
  split.
  { intros o'. destruct (@after_settled o' p' K1) as (_ & L2 & L3 & _).
    split; congruence. }
  split; [intros n; exact (@Read_fresh_result n p eq_refl)|].
  split; [intros n; exact (@Read_settled_result n p' K1)|].
  split; [intros m n; exact (@Read_after_Read m n p eq_refl)|].
  intros a l n. exact (@Read_after_accessors a l n p eq_refl).
Qed.

(** C8 as the specification words it does not hold: after a malformed
    header the results of [Read] are not consistent with what
    [ProxySourceAddr] reports, and they depend on the call that ran the
    parser.  When a [Read] ran it, the next [Read] returns the bytes that
    followed the header line, without error, while [ProxySourceAddr] goes on
    reporting the rejection; when [ProxySourceAddr] ran it, the [Read] that
    follows returns no data and the error of the closed connection. *)
Lemma Read_depends_on_the_call_that_parsed :
  let c := exampleConn (segment (str "PROXY FOO" ++ CRLF ++ str "hello")) in
  let p := wrapped c 0 false false in
  let e := fmt_Errorf (str "Unhandled address type: FOO") in
  fst (Read 100 (afterAll [CallRead 100] p)) = (str "hello", None) /\
  fst (ProxySourceAddr (afterAll [CallRead 100; CallRead 100] p)) = (None, Some e) /\
  fst (ProxySourceAddr p) = (None, Some e) /\
  fst (Read 100 (afterAll [CallProxySourceAddr] p)) = ([], Some net_ErrClosed).
Proof. vm_compute. repeat split. Qed.
